(** * EDM F1 scorer ([mrs/eval_edm_json.py]): a shallow embedding

    The development follows the source file top-down: the Python
    primitives the scorer relies on (exceptions, [str.split],
    [str.replace], [str], [int], true division), the span helpers, the
    graph classes [MrsNode] and [MrsGraph] with the record parser and
    the triple extractors, and finally [compute_f1].  A second layer
    runs the same scorer over a store of objects, where lists are
    shared and written in place.

    Conventions.
    - The source is read as Python 3: [/] on ints is true division.
    - Python strings are modelled as byte strings ([string]); every
      separator the scorer uses is an ASCII character, so splitting and
      substring replacement on UTF-8 bytes agree with Python's.
    - A Python exception is an [Err] result; evaluation order of the
      source decides which exception surfaces first.
    - A Python [set] of strings is a [gset string]; where the source
      turns a set into a list, the enumeration order (which depends on
      the interpreter's string hashing) is a parameter, see [SetOrder].
    - The final score is computed in exact rationals ([Q]), an
      idealisation of Python's floats; division keeps its
      [ZeroDivisionError].
    - Printing ([verbose], the final report line) is left out: the
      scorer returns the three ratios it would print.
    - Integers are unbounded, and [int] is modelled on ASCII text (see
      [Py.int]). *)

From Stdlib Require Import ZArith QArith Lqa DecimalString DecimalZ DecimalPos Ascii String.
From stdpp Require Import base list strings gmap.
Close Scope Q_scope.

(** ** Python primitives *)

Module Py.

Inductive error :=
| AssertionError
| ZeroDivisionError
| IndexError
| ValueError
| KeyError
| TypeError.

Inductive result (A : Type) :=
| Ok (a : A)
| Err (e : error).
Arguments Ok {A} a.
Arguments Err {A} e.

Definition bind {A B} (m : result A) (k : A → result B) : result B :=
  match m with
  | Ok a => k a
  | Err e => Err e
  end.

Definition is_ok {A} (m : result A) : bool :=
  match m with Ok _ => true | Err _ => false end.

(** [xs[i]] on a list: out of range raises [IndexError]. *)
Definition index {A} (xs : list A) (i : nat) : result A :=
  match xs !! i with
  | Some x => Ok x
  | None => Err IndexError
  end.

(** A list comprehension / loop whose body may raise: the first failing
    element, in order, aborts the whole. *)
Fixpoint for_each {A B} (f : A → result B) (xs : list A) : result (list B) :=
  match xs with
  | [] => Ok []
  | x :: xs' =>
      bind (f x) (λ y, bind (for_each f xs') (λ ys, Ok (y :: ys)))
  end.

(** A loop threading one accumulator. *)
Fixpoint fold_each {A S} (f : S → A → result S) (s : S) (xs : list A)
  : result S :=
  match xs with
  | [] => Ok s
  | x :: xs' => bind (f s x) (λ s', fold_each f s' xs')
  end.

(** [s.split(sep)] for a one-character separator: every occurrence
    cuts, so the result is never empty and may hold empty pieces. *)
Fixpoint split (sep : ascii) (s : string) : list string :=
  match s with
  | EmptyString => [EmptyString]
  | String c s' =>
      if Ascii.eqb c sep then EmptyString :: split sep s'
      else match split sep s' with
           | [] => [String c EmptyString]
           | w :: ws => String c w :: ws
           end
  end.

(** [s.replace(old, new)]: all non-overlapping occurrences, scanning
    left to right.  [skip] counts the characters of a matched
    occurrence still to be dropped. *)
Fixpoint replace_from (old new : string) (skip : nat) (s : string) : string :=
  match s with
  | EmptyString => EmptyString
  | String c s' =>
      match skip with
      | S k => replace_from old new k s'
      | O =>
          if String.prefix old s
          then new +:+ replace_from old new (String.length old - 1) s'
          else String c (replace_from old new 0 s')
      end
  end.

(** With an empty [old], Python inserts [new] before every character
    and at the end. *)
Fixpoint replace_empty (new : string) (s : string) : string :=
  match s with
  | EmptyString => new
  | String c s' => new +:+ String c (replace_empty new s')
  end.

Definition replace (old new s : string) : string :=
  match old with
  | EmptyString => replace_empty new s
  | _ => replace_from old new 0 s
  end.

(** [str(n)] for an int: canonical decimal, ["-"] for negatives. *)
Definition str (n : Z) : string := NilZero.string_of_int (Z.to_int n).

(** [int(s)]: surrounding whitespace is stripped, one sign is allowed,
    digits may be grouped by single underscores; anything else raises
    [ValueError].  The whitespace [int] strips from an ASCII string is
    tab, line feed, vertical tab, form feed, carriage return and the
    blank (the separators 28 to 31 are not stripped: [int] rejects
    them).  The model covers ASCII text: a string with a byte above
    127 is rejected, where Python also reads the decimal digits and
    whitespace of other scripts; and integers are unbounded, without
    the interpreter's configurable limit on the number of digits
    converted. *)
Definition is_space (c : ascii) : bool :=
  let n := nat_of_ascii c in
  ((9 <=? n) && (n <=? 13)) || (n =? 32).

Definition is_digit (c : ascii) : bool :=
  let n := nat_of_ascii c in (48 <=? n) && (n <=? 57).

Fixpoint lstrip (s : string) : string :=
  match s with
  | EmptyString => EmptyString
  | String c s' => if is_space c then lstrip s' else s
  end.

Fixpoint rstrip (s : string) : string :=
  match s with
  | EmptyString => EmptyString
  | String c s' =>
      match rstrip s' with
      | EmptyString => if is_space c then EmptyString else String c EmptyString
      | r => String c r
      end
  end.

Definition strip (s : string) : string := rstrip (lstrip s).

Fixpoint digits_of (after_digit : bool) (s : string) : option string :=
  match s with
  | EmptyString => if after_digit then Some EmptyString else None
  | String c s' =>
      if Ascii.eqb c "_" then
        if after_digit then digits_of false s' else None
      else if is_digit c then String c <$> digits_of true s'
      else None
  end.

Definition nat_of_digits (s : string) : result Z :=
  match digits_of false s with
  | Some ds =>
      match NilEmpty.uint_of_string ds with
      | Some d => Ok (Z.of_uint d)
      | None => Err ValueError
      end
  | None => Err ValueError
  end.

Definition int (s : string) : result Z :=
  match strip s with
  | String c body =>
      if Ascii.eqb c "-" then bind (nat_of_digits body) (λ n, Ok (- n)%Z)
      else if Ascii.eqb c "+" then nat_of_digits body
      else nat_of_digits (String c body)
  | EmptyString => Err ValueError
  end.

(** [a / b] (true division). *)
Definition div (a b : Q) : result Q :=
  if Qeq_bool b 0 then Err ZeroDivisionError else Ok (a / b)%Q.

End Py.

Notation "x <- m ;; k" := (Py.bind m (λ x, k))
  (at level 100, m at next level, right associativity).

Import Py.

#[global] Instance error_eq_dec : EqDecision error.
Proof. solve_decision. Defined.

#[global] Instance result_eq_dec {A} `{EqDecision A} : EqDecision (result A).
Proof. solve_decision. Defined.

(** ** Enumeration order of a Python set

    [list(spans)] enumerates a set in an order fixed by the interpreter
    (string hashes and insertion history), not by the program.  The
    scorer is therefore parametrised by an enumeration: given the
    sequence of [add] calls that built the set, it yields every member
    exactly once. *)

Record SetOrder := {
  enum : list string → list string;
  enum_NoDup : ∀ adds, NoDup (enum adds);
  enum_elem : ∀ adds x, x ∈ enum adds ↔ x ∈ adds
}.

(** ** Span helpers *)

Definition quote : ascii := "034"%char.

(** The [add] calls of [list_spans], in order. *)
Definition span_adds_of (triple : string) : list string :=
  let parts := split " " triple in
  if (1 <? length parts)%nat
     && (bool_decide (parts !! 1%nat = Some "NAME")
         || bool_decide (parts !! 1%nat = Some "CARG"))
  then match parts !! 0%nat with Some s => [s] | None => [] end
  else if (2 <? length parts)%nat
  then match parts !! 0%nat, parts !! 2%nat with
       | Some s0, Some s2 => [s0; s2]
       | _, _ => []
       end
  else [].

Definition span_adds (triples : list string) : list string :=
  flat_map span_adds_of triples.

Definition list_predicate_spans (triples : list string) : list string :=
  flat_map (λ triple,
    let parts := split " " triple in
    if (1 <? length parts)%nat && bool_decide (parts !! 1%nat = Some "NAME")
    then match parts !! 0%nat with Some s => [s] | None => [] end
    else []) triples.

Definition list_spans (O : SetOrder) (triples : list string) : list string :=
  enum O (span_adds triples).

(** [span.split(':')[0] + ":" + str(int(span.split(':')[1]) + delta)] *)
Definition shift_end (delta : Z) (span : string) : result string :=
  s0 <- index (split ":" span) 0 ;;
  s1 <- index (split ":" span) 1 ;;
  n <- int s1 ;;
  Ok (s0 +:+ ":" +:+ str (n + delta)).

Definition inc_end_spans (spans : list string) : result (list string) :=
  for_each (shift_end 1) spans.

Definition dec_end_spans (spans : list string) : result (list string) :=
  for_each (shift_end (-1)) spans.

(** ** Graph classes *)

Record MrsNode := {
  name : string;
  concept : string;
  start : Z;
  end_ : Z;
  constant : string;
  top : bool;
  edges : list nat;
  relations : list string
}.

Definition new_node (name concept : string) (start end_ : Z) : MrsNode :=
  {| name := name; concept := concept; start := start; end_ := end_;
     constant := ""; top := false; edges := []; relations := [] |}.

Definition span_str (node : MrsNode) (include_end : bool) : string :=
  if include_end
  then str (start node) +:+ ":" +:+ str (end_ node)
  else str (start node) +:+ ":" +:+ str (start node).

Definition append_edge (child_index : nat) (relation : string)
  (node : MrsNode) : MrsNode :=
  {| name := name node; concept := concept node; start := start node;
     end_ := end_ node; constant := constant node; top := top node;
     edges := edges node ++ [child_index];
     relations := relations node ++ [relation] |}.

Definition set_constant (const : string) (node : MrsNode) : MrsNode :=
  {| name := name node; concept := concept node; start := start node;
     end_ := end_ node; constant := const; top := top node;
     edges := edges node; relations := relations node |}.

Definition set_top (node : MrsNode) : MrsNode :=
  {| name := name node; concept := concept node; start := start node;
     end_ := end_ node; constant := constant node; top := true;
     edges := edges node; relations := relations node |}.

Record MrsGraph := {
  nodes : list MrsNode;
  parse_id : Z
}.

(** *** The deserialised parse record

    [json.loads] is outside the model: [parse_orig_json_line] starts
    from the decoded record.  Required fields are fields; the optional
    ones ([constant], [top], [edges]) are options. *)

Record edge_rec := {
  target : Z;
  label : string
}.

Record node_rec := {
  id : Z;
  predicate : string;
  prop_constant : option string;
  node_start : Z;
  node_end : Z;
  node_top : option bool;
  node_edges : option (list edge_rec)
}.

Record mrs_rec := {
  mrs_id : Z;
  mrs_nodes : list node_rec
}.

(** [d[k]] on a dict: a missing key raises [KeyError]. *)
Definition getitem {V} (d : gmap Z V) (k : Z) : result V :=
  match d !! k with
  | Some v => Ok v
  | None => Err KeyError
  end.

(** [const[0]] and [const[-1]] on a string. *)
Definition first_char (s : string) : result ascii :=
  match s with
  | EmptyString => Err IndexError
  | String c _ => Ok c
  end.

Fixpoint last_char (s : string) : result ascii :=
  match s with
  | EmptyString => Err IndexError
  | String c EmptyString => Ok c
  | String _ s' => last_char s'
  end.

(** Lines 95-99: make sure the constant starts and ends with a quote. *)
Definition canonical_constant (const : string) : result string :=
  c0 <- first_char const ;;
  let const := if Ascii.eqb c0 quote then const else String quote const in
  c1 <- last_char const ;;
  let const :=
    if Ascii.eqb c1 quote then const else const +:+ String quote EmptyString in
  Ok const.

(** First loop (lines 85-105): one graph node per record, and the index
    from record id to position. *)
Definition parse_node (st : list MrsNode * gmap Z nat) (node : node_rec)
  : result (list MrsNode * gmap Z nat) :=
  let node_id := (id node - 1)%Z in
  let nodes_index := <[node_id := length st.1]> st.2 in
  let graph_node :=
    new_node (str node_id) (predicate node) (node_start node) (node_end node) in
  graph_node <-
    match prop_constant node with
    | Some const =>
        const <- canonical_constant const ;;
        Ok (set_constant const graph_node)
    | None => Ok graph_node
    end ;;
  let graph_node :=
    match node_top node with
    | Some true => set_top graph_node
    | _ => graph_node
    end in
  Ok (st.1 ++ [graph_node], nodes_index).

(** Second loop (lines 108-114): resolve every edge target through the
    index and append the edge to its parent. *)
Definition add_edge (nodes_index : gmap Z nat) (parent_ind : nat)
  (nodes : list MrsNode) (edge : edge_rec) : result (list MrsNode) :=
  child_ind <- getitem nodes_index (target edge - 1)%Z ;;
  _ <- index nodes parent_ind ;;
  Ok (alter (append_edge child_ind (label edge)) parent_ind nodes).

Definition add_edges (nodes_index : gmap Z nat) (nodes : list MrsNode)
  (node : node_rec) : result (list MrsNode) :=
  parent_ind <- getitem nodes_index (id node - 1)%Z ;;
  match node_edges node with
  | Some es => fold_each (add_edge nodes_index parent_ind) nodes es
  | None => Ok nodes
  end.

Definition parse_orig_json_line (mrs : mrs_rec) : result MrsGraph :=
  st <- fold_each parse_node ([], ∅) (mrs_nodes mrs) ;;
  nodes <- fold_each (add_edges st.2) st.1 (mrs_nodes mrs) ;;
  Ok {| nodes := nodes; parse_id := mrs_id mrs |}.

(** ** Triple extraction *)

Definition has_constant (node : MrsNode) : bool :=
  negb (String.eqb (constant node) "").

Definition predicate_bag (g : MrsGraph) (include_constants : bool)
  : list string :=
  flat_map (λ node,
    concept node ::
    (if include_constants && has_constant node then [constant node] else []))
    (nodes g).

Definition predicate_triples (g : MrsGraph)
  (include_constants include_span_ends : bool) : list string :=
  flat_map (λ node,
    (span_str node include_span_ends +:+ " NAME " +:+ concept node) ::
    (if include_constants && has_constant node
     then [span_str node include_span_ends +:+ " CARG " +:+ constant node]
     else []))
    (nodes g).

(** Lines 138-141: one root marker per top node. *)
Definition top_triples (g : MrsGraph) (include_span_ends : bool)
  : list string :=
  flat_map (λ node,
    if top node then ["-1:-1 /H " +:+ span_str node include_span_ends] else [])
    (nodes g).

(** The /EQ test of lines 148-149. *)
Definition eq_swap (rel : string) (node child_node : MrsNode) : bool :=
  String.eqb rel "/EQ"
  && ((start child_node <? start node)%Z
      || ((start node =? start child_node)%Z
          && (end_ child_node <? end_ node)%Z)).

(** Lines 145-153, the loop over the edges of one node.  [node_ind] is
    assigned before the loop (line 144) and overwritten by the swap of
    line 150, so it is threaded from one edge to the next. *)
Fixpoint edge_triples (g : MrsGraph) (node : MrsNode)
  (include_span_ends labeled : bool) (k : nat) (children : list nat)
  (node_ind : string) : result (list string) :=
  match children with
  | [] => Ok []
  | child_index :: children' =>
      child_node <- index (nodes g) child_index ;;
      let child_ind := span_str child_node include_span_ends in
      relation <- index (relations node) k ;;
      let ends :=
        if eq_swap relation node child_node
        then (child_ind, node_ind) else (node_ind, child_ind) in
      let rel := if labeled then relation else "REL" in
      let rel := if String.eqb rel "/EQ" then "/EQ/U" else rel in
      rest <- edge_triples g node include_span_ends labeled (S k) children'
                ends.1 ;;
      Ok ((ends.1 +:+ " " +:+ rel +:+ " " +:+ ends.2) :: rest)
  end.

Definition node_edge_triples (g : MrsGraph) (include_span_ends labeled : bool)
  (node : MrsNode) : result (list string) :=
  edge_triples g node include_span_ends labeled 0 (edges node)
    (span_str node include_span_ends).

Definition relation_triples (g : MrsGraph) (include_span_ends labeled : bool)
  : result (list string) :=
  per_node <- for_each (node_edge_triples g include_span_ends labeled)
                (nodes g) ;;
  Ok (top_triples g include_span_ends ++ concat per_node).

Definition eds_triples (g : MrsGraph) (score_predicates score_relations
  include_span_ends include_constants labeled include_predicate_spans : bool)
  : result (list string) :=
  let triples :=
    if score_predicates then
      if include_predicate_spans
      then predicate_triples g include_constants include_span_ends
      else predicate_bag g include_constants
    else [] in
  if score_relations then
    rels <- relation_triples g include_span_ends labeled ;;
    Ok (triples ++ rels)
  else Ok triples.

(** ** The scorer *)

Record config := {
  score_predicates : bool;
  score_relations : bool;
  include_constants : bool;
  labeled : bool;
  include_span_ends : bool;
  include_predicate_spans : bool;
  score_nones : bool;
  verbose : bool
}.

(** A corpus is a dict from parse id to graph; [items()] walks it in
    insertion order. *)
Definition corpus := list (Z * MrsGraph).

Fixpoint corpus_get (c : corpus) (parse_id : Z) : option MrsGraph :=
  match c with
  | [] => None
  | (k, g) :: c' => if (k =? parse_id)%Z then Some g else corpus_get c' parse_id
  end.

Definition extract (cfg : config) (g : MrsGraph) : result (list string) :=
  eds_triples g (score_predicates cfg) (score_relations cfg)
    (include_span_ends cfg) (include_constants cfg) (labeled cfg)
    (include_predicate_spans cfg).

(** Lines 202-207.  The closure reads [gold_spans] and
    [predicted_spans] and rewrites [predicted_triples] in place; the
    list is threaded through.  [i] is the position [enumerate] has
    reached. *)
Fixpoint replace_new_spans (gold_spans : gset string)
  (predicted_spans : list string) (i : nat) (new_spans : list string)
  (predicted_triples : list string) : result (list string) :=
  match new_spans with
  | [] => Ok predicted_triples
  | new_span :: new_spans' =>
      old_span <- index predicted_spans i ;;
      let predicted_triples :=
        if bool_decide (old_span ∉ gold_spans) && bool_decide (new_span ∈ gold_spans)
        then map (replace old_span new_span) predicted_triples
        else predicted_triples in
      replace_new_spans gold_spans predicted_spans (S i) new_spans'
        predicted_triples
  end.

(** Lines 199-212: the off-by-one repair of the predicted spans. *)
Definition reconcile (O : SetOrder) (gold_triples predicted_triples : list string)
  : result (list string) :=
  let gold_spans : gset string := list_to_set (list_spans O gold_triples) in
  let predicted_spans := list_spans O predicted_triples in
  new_spans <- inc_end_spans predicted_spans ;;
  predicted_triples <-
    replace_new_spans gold_spans predicted_spans 0 new_spans predicted_triples ;;
  new_spans <- dec_end_spans predicted_spans ;;
  replace_new_spans gold_spans predicted_spans 0 new_spans predicted_triples.

Record totals := {
  total_gold : nat;
  total_predicted : nat;
  total_correct : nat;
  none_count : nat
}.

(** Lines 184-194: the two triple lists of one gold item, and whether
    the prediction is missing. *)
Definition item_triples (cfg : config) (predicted_graphs : corpus)
  (item : Z * MrsGraph) : result (list string * list string * bool) :=
  gold_triples <- extract cfg item.2 ;;
  match corpus_get predicted_graphs item.1 with
  | Some predicted_g =>
      predicted_triples <- extract cfg predicted_g ;;
      Ok (gold_triples, predicted_triples, false)
  | None =>
      Ok (if score_nones cfg then gold_triples else [], [], true)
  end.

(** One turn of the loop of line 183. *)
Definition score_item (O : SetOrder) (cfg : config) (predicted_graphs : corpus)
  (t : totals) (item : Z * MrsGraph) : result totals :=
  tr <- item_triples cfg predicted_graphs item ;;
  predicted_triples <- reconcile O tr.1.1 tr.1.2 ;;
  let gold_triples : gset string := list_to_set tr.1.1 in
  let predicted_triples : gset string := list_to_set predicted_triples in
  let correct_triples := gold_triples ∩ predicted_triples in
  Ok {| total_gold := total_gold t + size gold_triples;
        total_predicted := total_predicted t + size predicted_triples;
        total_correct := total_correct t + size correct_triples;
        none_count := if tr.2 then S (none_count t) else none_count t |}.

Definition accumulate (O : SetOrder) (cfg : config)
  (gold_graphs predicted_graphs : corpus) : result totals :=
  fold_each (score_item O cfg predicted_graphs)
    {| total_gold := 0; total_predicted := 0; total_correct := 0;
       none_count := 0 |}
    gold_graphs.

Record score := {
  precision : Q;
  recall : Q;
  f1 : Q
}.

Definition count (n : nat) : Q := inject_Z (Z.of_nat n).

(** Lines 235-242. *)
Definition final_score (t : totals) : result score :=
  if (0 <? total_predicted t)%nat && (0 <? total_gold t)%nat then
    precision <- div (count (total_correct t)) (count (total_predicted t)) ;;
    recall <- div (count (total_correct t)) (count (total_gold t)) ;;
    f1 <- div (2 * precision * recall)%Q (precision + recall)%Q ;;
    Ok {| precision := precision; recall := recall; f1 := f1 |}
  else Err AssertionError.

Definition compute_f1 (O : SetOrder) (gold_graphs predicted_graphs : corpus)
  (cfg : config) : result score :=
  t <- accumulate O cfg gold_graphs predicted_graphs ;;
  final_score t.

(** *** The scorer in the words of the specification (section 4.4)

    Per gold item the two triple collections become sets; the three
    totals are the sums of the set sizes; a run is valid when the
    predicted and gold totals are positive. *)

Definition item_sets (O : SetOrder) (cfg : config) (predicted_graphs : corpus)
  (item : Z * MrsGraph) : result (gset string * gset string) :=
  tr <- item_triples cfg predicted_graphs item ;;
  predicted_triples <- reconcile O tr.1.1 tr.1.2 ;;
  Ok (list_to_set tr.1.1, list_to_set predicted_triples).

Definition spec_total_gold (sets : list (gset string * gset string)) : nat :=
  sum_list_with (λ s, size s.1) sets.

Definition spec_total_predicted (sets : list (gset string * gset string)) : nat :=
  sum_list_with (λ s, size s.2) sets.

Definition spec_total_correct (sets : list (gset string * gset string)) : nat :=
  sum_list_with (λ s, size (s.1 ∩ s.2)) sets.

(** "After all items: require totalPredicted > 0 and totalGold > 0,
    else the run is invalid and must fail.  Otherwise precision =
    totalCorrect/totalPredicted, recall = totalCorrect/totalGold, F1 =
    2·precision·recall/(precision+recall) (0 if both are 0)." *)
Definition spec_score (gold predicted correct : nat) : result score :=
  if bool_decide (0 < predicted ∧ 0 < gold) then
    let p := (count correct / count predicted)%Q in
    let r := (count correct / count gold)%Q in
    Ok {| precision := p; recall := r;
          f1 := if Qeq_bool p 0 && Qeq_bool r 0 then 0%Q
                else (2 * p * r / (p + r))%Q |}
  else Err AssertionError.

(** *** The span reconciler in the words of the specification (4.3)

    The driving spans are the spans of the predicted triples in order
    with duplicates kept, recomputed from the current collection at
    the start of each of the two passes. *)

Definition spec_pass (delta : Z) (gold_spans : gset string)
  (predicted_triples : list string) : result (list string) :=
  let spans := span_adds predicted_triples in
  new_spans <- for_each (shift_end delta) spans ;;
  replace_new_spans gold_spans spans 0 new_spans predicted_triples.

Definition spec_reconcile (gold_triples predicted_triples : list string)
  : result (list string) :=
  let gold_spans : gset string := list_to_set (span_adds gold_triples) in
  predicted_triples <- spec_pass 1 gold_spans predicted_triples ;;
  spec_pass (-1) gold_spans predicted_triples.

(** ** The scorer over a store of Python objects

    Graphs, nodes and lists are objects reached through references: a
    list passed around is shared, and [predicted_triples[j] = ...]
    writes into whatever list object the name is bound to.  This layer
    keeps the objects in a store, so that what a scorer invocation
    writes can be compared with what the graphs occupy. *)

Module Store.

Inductive val :=
| VStr (s : string)
| VInt (n : nat)
| VRef (l : nat).

Inductive obj :=
| OList (items : list val)
| ONode (name concept : string) (start end_ : Z) (constant : string)
    (top : bool) (edges relations : nat)
| OGraph (nodes : nat) (parse_id : Z).

Abbreviation store := (list obj).

(** Reading the store (no effect). *)

Definition as_str (v : val) : result string :=
  match v with VStr s => Ok s | _ => Err TypeError end.

Definition as_int (v : val) : result nat :=
  match v with VInt n => Ok n | _ => Err TypeError end.

Definition as_ref (v : val) : result nat :=
  match v with VRef l => Ok l | _ => Err TypeError end.

Definition load_list (h : store) (l : nat) : result (list val) :=
  match h !! l with
  | Some (OList items) => Ok items
  | _ => Err TypeError
  end.

Definition load_strs (h : store) (l : nat) : result (list string) :=
  items <- load_list h l ;;
  for_each as_str items.

Definition load_node (h : store) (l : nat) : result MrsNode :=
  match h !! l with
  | Some (ONode name concept start end_ constant top edges relations) =>
      es <- load_list h edges ;;
      es <- for_each as_int es ;;
      rs <- load_strs h relations ;;
      Ok {| name := name; concept := concept; start := start; end_ := end_;
            constant := constant; top := top; edges := es; relations := rs |}
  | _ => Err TypeError
  end.

Definition load_graph (h : store) (l : nat) : result MrsGraph :=
  match h !! l with
  | Some (OGraph nodes parse_id) =>
      ns <- load_list h nodes ;;
      ns <- for_each as_ref ns ;;
      ns <- for_each (load_node h) ns ;;
      Ok {| nodes := ns; parse_id := parse_id |}
  | _ => Err TypeError
  end.

(** Commands: a result and the store they leave, also when they raise. *)

Definition M (A : Type) : Type := store → result A * store.

Definition ret {A} (a : A) : M A := λ h, (Ok a, h).

Definition raise {A} (e : error) : M A := λ h, (Err e, h).

Definition seq {A B} (m : M A) (k : A → M B) : M B :=
  λ h, match m h with
       | (Ok a, h') => k a h'
       | (Err e, h') => (Err e, h')
       end.

Definition lift {A} (r : result A) : M A := λ h, (r, h).

Definition read {A} (f : store → result A) : M A := λ h, (f h, h).

(** [[]] or any other constructor call: a new object. *)
Definition alloc (o : obj) : M nat := λ h, (Ok (length h), h ++ [o]).

(** [xs.extend(ys)] *)
Definition extend (l : nat) (ys : list string) : M unit :=
  λ h, match load_list h l with
       | Ok items => (Ok tt, <[l := OList (items ++ map VStr ys)]> h)
       | Err e => (Err e, h)
       end.

(** [xs[j]] *)
Definition getitem_str (l j : nat) : M string :=
  read (λ h, items <- load_list h l ;; v <- index items j ;; as_str v).

(** [xs[j] = s] *)
Definition setitem (l j : nat) (s : string) : M unit :=
  λ h, match load_list h l with
       | Ok items =>
           if (j <? length items)%nat
           then (Ok tt, <[l := OList (<[j := VStr s]> items)]> h)
           else (Err IndexError, h)
       | Err e => (Err e, h)
       end.

Notation "x <-- m ;; k" := (seq m (λ x, k))
  (at level 100, m at next level, right associativity).

(** [eds_triples]: [triples = []], then one [extend] per part. *)
Definition eds_triples (g : nat) (score_predicates score_relations
  include_span_ends include_constants labeled include_predicate_spans : bool)
  : M nat :=
  triples <-- alloc (OList []) ;;
  graph <-- read (λ h, load_graph h g) ;;
  _ <-- (if score_predicates then
           if include_predicate_spans
           then extend triples
                  (predicate_triples graph include_constants include_span_ends)
           else extend triples (predicate_bag graph include_constants)
         else ret tt) ;;
  _ <-- (if score_relations then
           rels <-- lift (relation_triples graph include_span_ends labeled) ;;
           extend triples rels
         else ret tt) ;;
  ret triples.

Definition extract (cfg : config) (g : nat) : M nat :=
  eds_triples g (score_predicates cfg) (score_relations cfg)
    (include_span_ends cfg) (include_constants cfg) (labeled cfg)
    (include_predicate_spans cfg).

(** Lines 206-207: [n] turns of the inner loop, from position [j]. *)
Fixpoint rewrite_triples (predicted_triples : nat) (old_span new_span : string)
  (j n : nat) : M unit :=
  match n with
  | O => ret tt
  | S n' =>
      triple <-- getitem_str predicted_triples j ;;
      _ <-- setitem predicted_triples j (replace old_span new_span triple) ;;
      rewrite_triples predicted_triples old_span new_span (S j) n'
  end.

Fixpoint replace_new_spans (gold_spans : gset string)
  (predicted_spans : list string) (predicted_triples : nat) (i : nat)
  (new_spans : list string) : M unit :=
  match new_spans with
  | [] => ret tt
  | new_span :: new_spans' =>
      old_span <-- lift (index predicted_spans i) ;;
      _ <-- (if bool_decide (old_span ∉ gold_spans)
                && bool_decide (new_span ∈ gold_spans)
             then
               items <-- read (λ h, load_list h predicted_triples) ;;
               rewrite_triples predicted_triples old_span new_span 0
                 (length items)
             else ret tt) ;;
      replace_new_spans gold_spans predicted_spans predicted_triples (S i)
        new_spans'
  end.

Definition reconcile (O : SetOrder) (gold_triples predicted_triples : nat)
  : M unit :=
  gold <-- read (λ h, load_strs h gold_triples) ;;
  predicted <-- read (λ h, load_strs h predicted_triples) ;;
  let gold_spans : gset string := list_to_set (list_spans O gold) in
  let predicted_spans := list_spans O predicted in
  new_spans <-- lift (inc_end_spans predicted_spans) ;;
  _ <-- replace_new_spans gold_spans predicted_spans predicted_triples 0
          new_spans ;;
  new_spans <-- lift (dec_end_spans predicted_spans) ;;
  replace_new_spans gold_spans predicted_spans predicted_triples 0 new_spans.

(** A corpus maps parse ids to graph objects. *)
Definition graph_refs := list (Z * nat).

Fixpoint refs_get (c : graph_refs) (parse_id : Z) : option nat :=
  match c with
  | [] => None
  | (k, g) :: c' => if (k =? parse_id)%Z then Some g else refs_get c' parse_id
  end.

(** Lines 184-194: the two triple lists of one gold item. *)
Definition item_lists (cfg : config) (predicted_graphs : graph_refs)
  (item : Z * nat) : M (nat * nat * bool) :=
  gold_triples <-- extract cfg item.2 ;;
  match refs_get predicted_graphs item.1 with
  | Some predicted_g =>
      predicted_triples <-- extract cfg predicted_g ;;
      ret (gold_triples, predicted_triples, false)
  | None =>
      predicted_triples <-- alloc (OList []) ;;
      gold_triples <-- (if score_nones cfg then ret gold_triples
                        else alloc (OList [])) ;;
      ret (gold_triples, predicted_triples, true)
  end.

(** Lines 199-233: repair the predicted list in place, then count. *)
Definition score_lists (O : SetOrder) (t : totals) (tr : nat * nat * bool)
  : M totals :=
  _ <-- reconcile O tr.1.1 tr.1.2 ;;
  gold <-- read (λ h, load_strs h tr.1.1) ;;
  predicted <-- read (λ h, load_strs h tr.1.2) ;;
  let gold_triples : gset string := list_to_set gold in
  let predicted_triples : gset string := list_to_set predicted in
  let correct_triples := gold_triples ∩ predicted_triples in
  ret {| total_gold := total_gold t + size gold_triples;
         total_predicted := total_predicted t + size predicted_triples;
         total_correct := total_correct t + size correct_triples;
         none_count := if tr.2 then S (none_count t) else none_count t |}.

Definition score_item (O : SetOrder) (cfg : config) (predicted_graphs : graph_refs)
  (t : totals) (item : Z * nat) : M totals :=
  tr <-- item_lists cfg predicted_graphs item ;;
  score_lists O t tr.

Fixpoint accumulate_from (O : SetOrder) (cfg : config)
  (predicted_graphs : graph_refs) (t : totals) (items : graph_refs) : M totals :=
  match items with
  | [] => ret t
  | item :: items' =>
      t' <-- score_item O cfg predicted_graphs t item ;;
      accumulate_from O cfg predicted_graphs t' items'
  end.

Definition compute_f1 (O : SetOrder) (gold_graphs predicted_graphs : graph_refs)
  (cfg : config) : M score :=
  t <-- accumulate_from O cfg predicted_graphs
          {| total_gold := 0; total_predicted := 0; total_correct := 0;
             none_count := 0 |} gold_graphs ;;
  lift (final_score t).

(** Several invocations in a row on the same two corpora, each with its
    own configuration; every outcome is recorded. *)
Fixpoint invocations (O : SetOrder) (gold_graphs predicted_graphs : graph_refs)
  (cfgs : list config) (h : store) : list (result score) * store :=
  match cfgs with
  | [] => ([], h)
  | cfg :: cfgs' =>
      let r := compute_f1 O gold_graphs predicted_graphs cfg h in
      let rs := invocations O gold_graphs predicted_graphs cfgs' r.2 in
      (r.1 :: rs.1, rs.2)
  end.

(** The pure corpus a store corpus stands for. *)
Definition load_corpus (h : store) (c : graph_refs) : result corpus :=
  for_each (λ item : Z * nat, g <- load_graph h item.2 ;; Ok (item.1, g)) c.

End Store.

(** * Notions used by the properties *)

(** ** The graph invariant

    Every child index of a node is a position of the graph, and a node
    has as many relation labels as edges. *)

Definition wf_node (n : nat) (node : MrsNode) : Prop :=
  length (relations node) = length (edges node)
  ∧ Forall (λ child_index, child_index < n) (edges node).

Definition wf_graph (g : MrsGraph) : Prop :=
  Forall (wf_node (length (nodes g))) (nodes g).

Definition wf_corpus (c : corpus) : Prop :=
  Forall (λ item : Z * MrsGraph, wf_graph item.2) c.

(** ** The edge triples without their label

    [edge_ends] runs the loop of [edge_triples] but records, for every
    edge, the two span strings in emitted order together with the
    relation as the graph has it; what the triple shows as its label is
    [emitted_label]. *)

Fixpoint edge_ends (g : MrsGraph) (node : MrsNode) (include_span_ends : bool)
  (k : nat) (children : list nat) (node_ind : string)
  : result (list (string * string * string)) :=
  match children with
  | [] => Ok []
  | child_index :: children' =>
      child_node <- index (nodes g) child_index ;;
      let child_ind := span_str child_node include_span_ends in
      relation <- index (relations node) k ;;
      let ends :=
        if eq_swap relation node child_node
        then (child_ind, node_ind) else (node_ind, child_ind) in
      rest <- edge_ends g node include_span_ends (S k) children' ends.1 ;;
      Ok ((ends.1, relation, ends.2) :: rest)
  end.

Definition relation_ends (g : MrsGraph) (include_span_ends : bool)
  : result (list (string * string * string)) :=
  per_node <- for_each (λ node,
                edge_ends g node include_span_ends 0 (edges node)
                  (span_str node include_span_ends)) (nodes g) ;;
  Ok (concat per_node).

Definition emitted_label (labeled : bool) (relation : string) : string :=
  if labeled
  then if String.eqb relation "/EQ" then "/EQ/U" else relation
  else "REL".

Definition render (labeled : bool) (e : string * string * string) : string :=
  e.1.1 +:+ " " +:+ emitted_label labeled e.1.2 +:+ " " +:+ e.2.

(** ** The final score by cases

    What lines 235-242 do with the three counters: the assertion, then
    the three divisions, the last of which divides by 0 when nothing
    is correct. *)

Definition score_cases (gold predicted correct : nat) : result score :=
  if bool_decide (predicted = 0%nat ∨ gold = 0%nat) then Err AssertionError
  else if bool_decide (correct = 0%nat) then Err ZeroDivisionError
  else
    let p := (count correct / count predicted)%Q in
    let r := (count correct / count gold)%Q in
    Ok {| precision := p; recall := r; f1 := (2 * p * r / (p + r))%Q |}.

(** ** The missing counter

    The gold items without a prediction (section 4.4). *)

Definition spec_none_count (predicted_graphs gold_graphs : corpus) : nat :=
  length (filter (λ item : Z * MrsGraph,
                    corpus_get predicted_graphs item.1 = None)
            gold_graphs).

(** ** One pass of the reconciler

    Over pairs (old span, shifted span), as a fold. *)

Definition rewrite_pass (gold_spans : gset string)
  (pairs : list (string * string)) (predicted_triples : list string)
  : list string :=
  foldl (λ triples p,
           if bool_decide (p.1 ∉ gold_spans) && bool_decide (p.2 ∈ gold_spans)
           then map (replace p.1 p.2) triples
           else triples)
    predicted_triples pairs.

(** ** Character classes *)

Fixpoint all_chars (P : ascii → bool) (s : string) : bool :=
  match s with
  | EmptyString => true
  | String c s' => P c && all_chars P s'
  end.

(** [c not in s] *)
Definition lacks (c : ascii) (s : string) : bool :=
  all_chars (λ a, negb (Ascii.eqb a c)) s.

(** The characters [str] produces. *)
Definition int_char (c : ascii) : bool := is_digit c || Ascii.eqb c "-".

(** The span string of the offsets [a] and [b]. *)
Definition span_of (a b : Z) : string := str a +:+ ":" +:+ str b.

(** ** Graphs whose texts keep the triple format

    A triple is a line of fields separated by single blanks.  The
    fields stay apart when the relation labels hold no blank and,
    where predicates are emitted without a span, when the concepts and
    constants hold no blank either. *)

Definition plain (s : string) : bool := lacks " " s.

Definition labels_plain (g : MrsGraph) : bool :=
  forallb (λ node, forallb plain (relations node)) (nodes g).

Definition names_plain (g : MrsGraph) : bool :=
  forallb (λ node, plain (concept node) && plain (constant node)) (nodes g).

Definition keeps_format (cfg : config) (g : MrsGraph) : bool :=
  (negb (score_relations cfg) || labels_plain g)
  && (negb (score_predicates cfg) || include_predicate_spans cfg
      || names_plain g).

(** The same, counting only the texts a configuration puts into its
    triples: the relation labels when relations are scored with their
    labels (the placeholder REL holds no blank), and, when predicates
    are scored without spans, the concepts, and the constants if they
    are included. *)
Definition emitted_names_plain (include_constants : bool) (g : MrsGraph)
  : bool :=
  forallb (λ node, plain (concept node)
                   && (negb include_constants || plain (constant node)))
    (nodes g).

Definition emits_plain (cfg : config) (g : MrsGraph) : bool :=
  (negb (score_relations cfg) || negb (labeled cfg) || labels_plain g)
  && (negb (score_predicates cfg) || include_predicate_spans cfg
      || emitted_names_plain (include_constants cfg) g).

(** A span string of some node of the graph. *)
Definition node_span (g : MrsGraph) (include_span_ends : bool) (s : string)
  : Prop :=
  ∃ node, node ∈ nodes g ∧ s = span_str node include_span_ends.

(** * Example inputs *)

(** ** A concrete enumeration order

    Used to run the scorer on examples: members in order of their last
    [add]. *)

Definition last_add_order : SetOrder :=
  {| enum := remove_dups;
     enum_NoDup := NoDup_remove_dups;
     enum_elem := elem_of_remove_dups |}.

(** The configuration of the first report line ("Full EDM"). *)
Definition full_edm : config :=
  {| score_predicates := true; score_relations := true;
     include_constants := true; labeled := true; include_span_ends := true;
     include_predicate_spans := true; score_nones := true; verbose := false |}.

(** Relations only, start offsets only. *)
Definition relations_start_only : config :=
  {| score_predicates := false; score_relations := true;
     include_constants := true; labeled := true; include_span_ends := false;
     include_predicate_spans := true; score_nones := true; verbose := false |}.

(** A record whose only node carries an empty constant. *)
Definition rec_empty_constant : mrs_rec :=
  {| mrs_id := 1;
     mrs_nodes :=
       [ {| id := 1; predicate := "named"; prop_constant := Some "";
            node_start := 0; node_end := 1; node_top := None;
            node_edges := None |} ] |}.

(** "Kim sleeps": a named node with a constant and one argument edge. *)
Definition rec_kim_sleeps : mrs_rec :=
  {| mrs_id := 7;
     mrs_nodes :=
       [ {| id := 1; predicate := "named"; prop_constant := Some "Kim";
            node_start := 0; node_end := 3; node_top := None;
            node_edges := None |};
         {| id := 2; predicate := "_sleep_v_1"; prop_constant := None;
            node_start := 4; node_end := 10; node_top := Some true;
            node_edges := Some [ {| target := 1; label := "ARG1/NEQ" |} ] |} ] |}.

(** The same sentence with the edge pointing at a node id (5) that no
    node of the record has. *)
Definition rec_dangling_target : mrs_rec :=
  {| mrs_id := 7;
     mrs_nodes :=
       [ {| id := 1; predicate := "named"; prop_constant := Some "Kim";
            node_start := 0; node_end := 3; node_top := None;
            node_edges := None |};
         {| id := 2; predicate := "_sleep_v_1"; prop_constant := None;
            node_start := 4; node_end := 10; node_top := Some true;
            node_edges := Some [ {| target := 5; label := "ARG1/NEQ" |} ] |} ] |}.

(** The same sentence with every span twenty characters further on. *)
Definition rec_kim_elsewhere : mrs_rec :=
  {| mrs_id := 7;
     mrs_nodes :=
       [ {| id := 1; predicate := "named"; prop_constant := Some "Kim";
            node_start := 20; node_end := 23; node_top := None;
            node_edges := None |};
         {| id := 2; predicate := "_sleep_v_1"; prop_constant := None;
            node_start := 24; node_end := 30; node_top := Some true;
            node_edges := Some [ {| target := 1; label := "ARG1/NEQ" |} ] |} ] |}.

Definition graph_kim_elsewhere : MrsGraph :=
  {| nodes :=
       [ set_constant (String quote "Kim" +:+ String quote "")
           (new_node "0" "named" 20 23);
         append_edge 0 "ARG1/NEQ" (set_top (new_node "1" "_sleep_v_1" 24 30)) ];
     parse_id := 7 |}.

Definition graph_kim_sleeps : MrsGraph :=
  {| nodes :=
       [ set_constant (String quote "Kim" +:+ String quote "")
           (new_node "0" "named" 0 3);
         append_edge 0 "ARG1/NEQ" (set_top (new_node "1" "_sleep_v_1" 4 10)) ];
     parse_id := 7 |}.

(** The Full EDM triples of the two graphs. *)
Definition triples_kim_sleeps : list string :=
  [ "0:3 NAME named";
    "0:3 CARG " +:+ String quote ("Kim" +:+ String quote "");
    "4:10 NAME _sleep_v_1";
    "-1:-1 /H 4:10";
    "4:10 ARG1/NEQ 0:3" ].

Definition triples_kim_elsewhere : list string :=
  [ "20:23 NAME named";
    "20:23 CARG " +:+ String quote ("Kim" +:+ String quote "");
    "24:30 NAME _sleep_v_1";
    "-1:-1 /H 24:30";
    "24:30 ARG1/NEQ 20:23" ].

(** Three nodes at 1:2, 3:4 and 5:6; the last one has two /EQ edges, to
    the first and to the second. *)
Definition rec_two_eq : mrs_rec :=
  {| mrs_id := 1;
     mrs_nodes :=
       [ {| id := 1; predicate := "a"; prop_constant := None;
            node_start := 1; node_end := 2; node_top := None;
            node_edges := None |};
         {| id := 2; predicate := "b"; prop_constant := None;
            node_start := 3; node_end := 4; node_top := None;
            node_edges := None |};
         {| id := 3; predicate := "c"; prop_constant := None;
            node_start := 5; node_end := 6; node_top := None;
            node_edges := Some [ {| target := 1; label := "/EQ" |};
                                 {| target := 2; label := "/EQ" |} ] |} ] |}.

Definition graph_two_eq : MrsGraph :=
  {| nodes :=
       [ new_node "0" "a" 1 2;
         new_node "1" "b" 3 4;
         append_edge 1 "/EQ" (append_edge 0 "/EQ" (new_node "2" "c" 5 6)) ];
     parse_id := 1 |}.

(** A top node at 5:6 with an /EQ edge to a node at 1:2. *)
Definition graph_eq_top : MrsGraph :=
  {| nodes := [ append_edge 1 "/EQ" (set_top (new_node "0" "c" 5 6));
                new_node "1" "a" 1 2 ];
     parse_id := 2 |}.

(** The same graph with the second /EQ edge reversed: it now leaves
    the node at 3:4 and enters the node at 5:6. *)
Definition rec_two_eq_reversed : mrs_rec :=
  {| mrs_id := 1;
     mrs_nodes :=
       [ {| id := 1; predicate := "a"; prop_constant := None;
            node_start := 1; node_end := 2; node_top := None;
            node_edges := None |};
         {| id := 2; predicate := "b"; prop_constant := None;
            node_start := 3; node_end := 4; node_top := None;
            node_edges := Some [ {| target := 3; label := "/EQ" |} ] |};
         {| id := 3; predicate := "c"; prop_constant := None;
            node_start := 5; node_end := 6; node_top := None;
            node_edges := Some [ {| target := 1; label := "/EQ" |} ] |} ] |}.

Definition graph_two_eq_reversed : MrsGraph :=
  {| nodes :=
       [ new_node "0" "a" 1 2;
         append_edge 2 "/EQ" (new_node "1" "b" 3 4);
         append_edge 0 "/EQ" (new_node "2" "c" 5 6) ];
     parse_id := 1 |}.

(** A gold graph with an edge whose label holds a blank: its triple
    reads "4:4 x 5:6 7:7". *)
Definition graph_blank_label : MrsGraph :=
  {| nodes := [ append_edge 1 "x 5:6" (new_node "0" "a" 4 9);
                new_node "1" "b" 7 8 ];
     parse_id := 3 |}.

(** A prediction for it with a node starting at 5. *)
Definition graph_start_five : MrsGraph :=
  {| nodes := [ append_edge 1 "ARG1" (new_node "0" "a" 5 9);
                new_node "1" "b" 7 8 ];
     parse_id := 3 |}.

(** Relations only, start offsets only, labels replaced by REL. *)
Definition relations_start_only_unlabeled : config :=
  {| score_predicates := false; score_relations := true;
     include_constants := true; labeled := false; include_span_ends := false;
     include_predicate_spans := true; score_nones := true; verbose := false |}.

(** Predicates only, with their spans. *)
Definition predicates_only : config :=
  {| score_predicates := true; score_relations := false;
     include_constants := true; labeled := true; include_span_ends := true;
     include_predicate_spans := true; score_nones := true; verbose := false |}.

(** Two nodes on the same span, and their two predicate triples. *)
Definition graph_same_span : MrsGraph :=
  {| nodes := [ new_node "0" "a" 1 2; new_node "1" "b" 1 2 ]; parse_id := 4 |}.

Definition triples_same_span : list string :=
  ["1:2 NAME a"; "1:2 NAME b"].

(** Gold spans 3:5 and 3:50 against predicted spans 3:4 and 3:41: the
    first pass turns "3:41" into "3:51" while repairing "3:4". *)
Definition graph_3_5_50 : MrsGraph :=
  {| nodes := [ new_node "0" "a" 3 5; new_node "1" "b" 3 50 ]; parse_id := 5 |}.

Definition graph_3_4_41 : MrsGraph :=
  {| nodes := [ new_node "0" "a" 3 4; new_node "1" "b" 3 41 ]; parse_id := 5 |}.

Definition gold_3_5_50 : list string := ["3:5 NAME a"; "3:50 NAME b"].

Definition predicted_3_4_41 : list string := ["3:4 NAME a"; "3:41 NAME b"].

(** A store holding the graph of "Kim sleeps": the edge and relation
    lists of the two nodes, the nodes, the node list and the graph
    object (at position 7). *)
Definition store_kim_sleeps : list Store.obj :=
  [ Store.OList [];
    Store.OList [];
    Store.ONode "0" "named" 0 3 (String quote "Kim" +:+ String quote "")
      false 0 1;
    Store.OList [Store.VInt 0];
    Store.OList [Store.VStr "ARG1/NEQ"];
    Store.ONode "1" "_sleep_v_1" 4 10 "" true 3 4;
    Store.OList [Store.VRef 2; Store.VRef 5];
    Store.OGraph 6 7 ].


(** * The command-line driver (lines 250-327)

    Argument parsing and file reading stay outside: [main] starts from
    the parsed flags and the decoded lines of the two files. *)

(** [gold_graphs[graph.parse_id] = graph]: a dict keeps a key at the
    position of its first insertion and holds the value of the last. *)
Fixpoint corpus_set (c : corpus) (parse_id : Z) (g : MrsGraph) : corpus :=
  match c with
  | [] => [(parse_id, g)]
  | (k, g') :: c' =>
      if (k =? parse_id)%Z then (k, g) :: c'
      else (k, g') :: corpus_set c' parse_id g
  end.

(** Lines 283-285 and 289-291: one turn of the loop over the lines. *)
Definition read_graph (c : corpus) (line : mrs_rec) : result corpus :=
  graph <- parse_orig_json_line line ;;
  Ok (corpus_set c (parse_id graph) graph).

Definition read_corpus (lines : list mrs_rec) : result corpus :=
  fold_each read_graph [] lines.

Record args := {
  orig : bool;
  exclude_constants : bool;
  unlabeled : bool;
  exclude_missing_graphs : bool;
  detailed : bool;
  args_verbose : bool
}.

(** The calls of lines 293-327, each with the header printed before
    it; parameters not passed take the defaults of [compute_f1]. *)
Definition reports (a : args) : list (string * config) :=
  let include_constants := negb (exclude_constants a) in
  let labeled := negb (unlabeled a) in
  let score_nones := negb (exclude_missing_graphs a) in
  let call sp sr lab ise ips :=
    {| score_predicates := sp; score_relations := sr;
       include_constants := include_constants; labeled := lab;
       include_span_ends := ise; include_predicate_spans := ips;
       score_nones := score_nones; verbose := args_verbose a |} in
  [ ("Full EDM", call true true labeled true true);
    ("Predicate EDM", call true false true true true);
    ("Relation EDM", call false true labeled true true) ]
  ++ (if detailed a
      then [ ("Full EDM, start spans only", call true true labeled false true);
             ("Predicate EDM, start spans only", call true false true false true);
             ("Predicate EDM, ignoring spans", call true false true true false) ]
      else [])
  ++ [ ("Relation EDM, start spans only", call false true labeled false true) ].

(** What a run leaves on the terminal: the scores printed, and, when an
    exception ended the run, the header printed last (none while the
    files are read) and the exception. *)
Inductive outcome :=
| Done (printed : list (string * score))
| Raised (printed : list (string * score)) (header : option string) (e : error).

Fixpoint run_reports (O : SetOrder) (gold_graphs predicted_graphs : corpus)
  (calls : list (string * config)) (printed : list (string * score))
  : outcome :=
  match calls with
  | [] => Done printed
  | (header, cfg) :: calls' =>
      match compute_f1 O gold_graphs predicted_graphs cfg with
      | Ok s =>
          run_reports O gold_graphs predicted_graphs calls'
            (printed ++ [(header, s)])
      | Err e => Raised printed (Some header) e
      end
  end.

Definition main (O : SetOrder) (a : args) (gold_lines system_lines : list mrs_rec)
  : outcome :=
  if orig a then
    match read_corpus gold_lines with
    | Ok gold_graphs =>
        match read_corpus system_lines with
        | Ok predicted_graphs =>
            run_reports O gold_graphs predicted_graphs (reports a) []
        | Err e => Raised [] None e
        end
    | Err e => Raised [] None e
    end
  else Raised [] None AssertionError.

(** The flags of a plain run: [--orig] only. *)
Definition args_orig : args :=
  {| orig := true; exclude_constants := false; unlabeled := false;
     exclude_missing_graphs := false; detailed := false;
     args_verbose := false |}.


(** ** What the parser makes of a record *)

(** The node built from a node record by the first loop. *)
Definition node_of_record (rec : node_rec) (node : MrsNode) : Prop :=
  name node = str (id rec - 1)
  ∧ concept node = predicate rec
  ∧ start node = node_start rec
  ∧ end_ node = node_end rec
  ∧ top node = bool_decide (node_top rec = Some true)
  ∧ match prop_constant rec with
    | Some const => canonical_constant const = Ok (constant node)
    | None => constant node = ""
    end.

(** The edge records of a node record ([[]] without an "edges" field). *)
Definition edges_of (rec : node_rec) : list edge_rec :=
  default [] (node_edges rec).

(** The second loop on one node, as a function: every edge appended,
    its target looked up in the index. *)
Definition append_edges (nodes_index : gmap Z nat) (es : list edge_rec)
  (node : MrsNode) : MrsNode :=
  foldl (λ nd e,
           append_edge (default 0 (nodes_index !! (target e - 1)%Z)) (label e) nd)
    node es.


(** ** Sizes of a graph *)

Definition const_count (g : MrsGraph) : nat :=
  length (filter (λ node, has_constant node = true) (nodes g)).

Definition top_count (g : MrsGraph) : nat :=
  length (filter (λ node, top node = true) (nodes g)).

Definition edge_count (g : MrsGraph) : nat :=
  sum_list_with (λ node, length (edges node)) (nodes g).

(** The number of triples a configuration asks for. *)
Definition triple_count (cfg : config) (g : MrsGraph) : nat :=
  (if score_predicates cfg
   then length (nodes g) + (if include_constants cfg then const_count g else 0)
   else 0)
  + (if score_relations cfg then top_count g + edge_count g else 0).


(** ** Totals up to the missing counter

    The score is computed from the three triple counters only. *)

Definition same_counts (t t' : totals) : Prop :=
  total_gold t = total_gold t'
  ∧ total_predicted t = total_predicted t'
  ∧ total_correct t = total_correct t'.

(** The gold items that have a prediction. *)
Definition predicted_items (predicted_graphs gold_graphs : corpus) : corpus :=
  filter (λ item : Z * MrsGraph, is_Some (corpus_get predicted_graphs item.1))
    gold_graphs.

(** A configuration that scores neither predicates nor relations. *)
Definition nothing_scored (cfg : config) : bool :=
  negb (score_predicates cfg) && negb (score_relations cfg).


(** ** Notions for the driver *)

(** The last line of a file that carries a given parse id. *)
Definition last_line (lines : list mrs_rec) (parse_id : Z) : option mrs_rec :=
  last (filter (λ line, mrs_id line = parse_id) lines).

Definition returned {A} (m : result A) : option A :=
  match m with Ok a => Some a | Err _ => None end.

(** The scores a run has printed when it ends, either way. *)
Definition printed_of (o : outcome) : list (string * score) :=
  match o with
  | Done printed => printed
  | Raised printed _ _ => printed
  end.

Definition perfect (s : score) : Prop :=
  (precision s == 1)%Q ∧ (recall s == 1)%Q ∧ (f1 s == 1)%Q.


(** * Properties *)

(** ** Results and loops *)

Lemma bind_Ok_inv {A B} (m : result A) (k : A → result B) (b : B) :
  Py.bind m k = Ok b → ∃ a, m = Ok a ∧ k a = Ok b.
Proof. destruct m as [a|e]; simpl; [eauto | discriminate]. Qed.

Lemma bind_Err_inv {A B} (m : result A) (k : A → result B) (e : error) :
  Py.bind m k = Err e → m = Err e ∨ ∃ a, m = Ok a ∧ k a = Err e.
Proof. destruct m as [a|e']; simpl; [eauto | intros [= ->]; auto]. Qed.

Lemma elem_of_flat_map {A B} (f : A → list B) (l : list A) (y : B) :
  y ∈ flat_map f l ↔ ∃ x, x ∈ l ∧ y ∈ f x.
Proof.
  rewrite list_elem_of_In, in_flat_map. split.
  - intros (x & Hx & Hy). exists x. by rewrite !list_elem_of_In.
  - intros (x & Hx & Hy). exists x. by rewrite <- !list_elem_of_In.
Qed.

Lemma elem_of_map {A B} (f : A → B) (l : list A) (y : B) :
  y ∈ map f l ↔ ∃ x, y = f x ∧ x ∈ l.
Proof.
  rewrite list_elem_of_In, in_map_iff. split.
  - intros (x & Hx & Hy). exists x. by rewrite list_elem_of_In.
  - intros (x & Hx & Hy). exists x. by rewrite <- list_elem_of_In.
Qed.

Section Loops.
Context {A B S : Type}.

Lemma for_each_length (f : A → result B) xs ys :
  for_each f xs = Ok ys → length ys = length xs.
Proof.
  revert ys. induction xs as [|x xs IH]; simpl; intros ys H.
  - by injection H as <-.
  - destruct (f x) as [y|]; [|done]. simpl in H.
    destruct (for_each f xs) as [ys'|]; [|done].
    injection H as <-. simpl. by rewrite (IH ys').
Qed.

Lemma for_each_lookup (f : A → result B) xs ys i x :
  for_each f xs = Ok ys → xs !! i = Some x →
  ∃ y, ys !! i = Some y ∧ f x = Ok y.
Proof.
  revert ys i. induction xs as [|x' xs IH]; simpl; intros ys i H Hi; [done|].
  destruct (f x') as [y'|] eqn:Hf; [|done]. simpl in H.
  destruct (for_each f xs) as [ys'|]; [|done].
  injection H as <-. destruct i as [|i]; simpl in *.
  - injection Hi as ->. eauto.
  - eauto.
Qed.

Lemma for_each_all_ok (f : A → result B) (g : A → B) xs :
  (∀ x, x ∈ xs → f x = Ok (g x)) → for_each f xs = Ok (map g xs).
Proof.
  induction xs as [|x xs IH]; simpl; intros H; [done|].
  rewrite H by left. simpl. rewrite IH; [done|].
  intros y Hy. apply H. by right.
Qed.

Lemma for_each_ext (f g : A → result B) xs :
  (∀ x, x ∈ xs → f x = g x) → for_each f xs = for_each g xs.
Proof.
  induction xs as [|x xs IH]; simpl; intros H; [done|].
  rewrite H by left. rewrite IH; [done|].
  intros y Hy. apply H. by right.
Qed.

Lemma fold_each_fails (f : S → A → result S) xs x :
  x ∈ xs → (∀ s, is_ok (f s x) = false) →
  ∀ s, is_ok (fold_each f s xs) = false.
Proof.
  intros Hx Hf. induction xs as [|x' xs IH]; intros s; [by inversion Hx|].
  simpl. destruct (f s x') as [s'|] eqn:Hs; simpl; [|done].
  apply elem_of_cons in Hx as [->|Hx].
  - specialize (Hf s). by rewrite Hs in Hf.
  - by apply IH.
Qed.

Lemma fold_each_raises (P : error → Prop) (f : S → A → result S) xs :
  (∀ s x e, f s x = Err e → P e) →
  ∀ s e, fold_each f s xs = Err e → P e.
Proof.
  intros Hf. induction xs as [|x xs IH]; simpl; intros s e H; [done|].
  apply bind_Err_inv in H as [H|(s' & _ & H)]; eauto.
Qed.

Lemma for_each_raises (P : error → Prop) (f : A → result B) xs :
  (∀ x e, f x = Err e → P e) →
  ∀ e, for_each f xs = Err e → P e.
Proof.
  intros Hf. induction xs as [|x xs IH]; simpl; intros e H; [done|].
  apply bind_Err_inv in H as [H|(y & _ & H)]; [eauto|].
  apply bind_Err_inv in H as [H|(ys & _ & H)]; [eauto|done].
Qed.
End Loops.

(** ** Graph construction *)

Lemma string_app_cons (a : ascii) (s t : string) :
  String a s +:+ t = String a (s +:+ t).
Proof. reflexivity. Qed.

Lemma string_app_nil_l (t : string) : "" +:+ t = t.
Proof. reflexivity. Qed.

Lemma string_app_nil_r (s : string) : s +:+ "" = s.
Proof. induction s as [|a s IH]; [done|]. by rewrite string_app_cons, IH. Qed.

Lemma string_app_assoc (s t u : string) : (s +:+ t) +:+ u = s +:+ (t +:+ u).
Proof.
  induction s as [|a s IH]; [done|]. by rewrite !string_app_cons, IH.
Qed.

Lemma first_char_app (s t : string) (c : ascii) :
  first_char s = Ok c → first_char (s +:+ t) = Ok c.
Proof. by destruct s. Qed.

Lemma last_char_cons (a : ascii) (s : string) (c : ascii) :
  last_char s = Ok c → last_char (String a s) = Ok c.
Proof. by destruct s. Qed.

Lemma last_char_snoc (s : string) (c : ascii) :
  last_char (s +:+ String c "") = Ok c.
Proof.
  induction s as [|a s IH]; [done|].
  rewrite string_app_cons. by apply last_char_cons.
Qed.

Lemma last_char_nonempty (a : ascii) (s : string) :
  ∃ c, last_char (String a s) = Ok c.
Proof.
  revert a. induction s as [|b s IH]; intros a; [by exists a|].
  destruct (IH b) as [c Hc]. exists c. by apply last_char_cons.
Qed.

(** A non-empty constant is stored with a quote at both ends; a quote is
    added in front when the value does not begin with one, and at the
    back when the value (with its leading quote) does not end with one. *)
Lemma canonical_constant_wraps (const : string) :
  const ≠ "" →
  ∃ c, canonical_constant const = Ok c
       ∧ first_char c = Ok quote ∧ last_char c = Ok quote
       ∧ c = (if bool_decide (first_char const = Ok quote) then "" else String quote "")
             +:+ const
             +:+ (if bool_decide (last_char const = Ok quote) then "" else String quote "").
Proof.
  destruct const as [|c0 s]; [done|]. intros _.
  unfold canonical_constant. cbn [first_char Py.bind].
  destruct (last_char_nonempty c0 s) as [c1 Hc1].
  destruct (Ascii.eqb_spec c0 quote) as [->|Hc0].
  - rewrite Hc1. cbn [Py.bind]. rewrite (bool_decide_eq_true_2 (Ok _ = _)) by done.
    rewrite string_app_nil_l.
    destruct (Ascii.eqb_spec c1 quote) as [->|Hne]; eexists; (split; [done|]).
    + rewrite bool_decide_eq_true_2 by done. rewrite string_app_nil_r.
      by split_and!.
    + rewrite bool_decide_eq_false_2 by congruence.
      split_and!; [done| apply last_char_snoc |done].
  - rewrite (last_char_cons quote _ c1 Hc1). cbn [Py.bind].
    rewrite (bool_decide_eq_false_2 (Ok _ = _)) by congruence.
    destruct (Ascii.eqb_spec c1 quote) as [->|Hne]; eexists; (split; [done|]).
    + rewrite bool_decide_eq_true_2 by done. rewrite string_app_nil_r.
      split_and!; [done| by apply last_char_cons |done].
    + rewrite bool_decide_eq_false_2 by congruence.
      split_and!; [done| |done].
      apply (last_char_snoc (String quote (String c0 s))).
Qed.

(** An empty constant stops the construction: [const[0]] is out of range. *)
Lemma canonical_constant_empty : canonical_constant "" = Err IndexError.
Proof. reflexivity. Qed.

(** C6, at the failing input: a node record that supplies the constant
    [""] is not stored with quotes around it; graph construction raises
    [IndexError] while reading the first character of the constant. *)
Theorem C6_empty_constant_raises :
  prop_constant <$> mrs_nodes rec_empty_constant = [Some ""]
  ∧ parse_orig_json_line rec_empty_constant = Err IndexError.
Proof. split; reflexivity. Qed.


Lemma parse_node_raises st node e :
  parse_node st node = Err e → e = IndexError.
Proof.
  unfold parse_node. destruct (prop_constant node) as [const|]; [|done].
  unfold canonical_constant. destruct const as [|c0 s]; simpl; [congruence|].
  destruct (last_char_nonempty c0 s) as [c1 Hc1].
  destruct (Ascii.eqb c0 quote).
  - rewrite Hc1. done.
  - rewrite (last_char_cons quote _ c1 Hc1). done.
Qed.

Lemma parse_node_index st node st' :
  parse_node st node = Ok st' →
  st'.2 = <[(id node - 1)%Z := length st.1]> st.2
  ∧ length st'.1 = S (length st.1).
Proof.
  unfold parse_node. intros H.
  apply bind_Ok_inv in H as (graph_node & _ & H).
  injection H as <-. simpl. split; [done|].
  rewrite length_app. simpl. lia.
Qed.

(** The index built by the first loop holds exactly the ids of the
    records seen (shifted by one), on top of what it held before. *)
Lemma parse_nodes_index recs : ∀ st st',
  fold_each parse_node st recs = Ok st' →
  ∀ k, is_Some (st'.2 !! k) ↔
       is_Some (st.2 !! k) ∨ ∃ n, n ∈ recs ∧ (id n - 1)%Z = k.
Proof.
  induction recs as [|node recs IH]; simpl; intros st st' H k.
  - injection H as <-. split; [auto|]. intros [?|(n & Hn & _)]; [done|].
    by inversion Hn.
  - apply bind_Ok_inv in H as (st1 & H1 & H).
    apply parse_node_index in H1 as [Hidx _].
    rewrite (IH _ _ H k), Hidx.
    destruct (decide ((id node - 1)%Z = k)) as [<-|Hne].
    + rewrite lookup_insert_eq. split; intros _.
      * right. exists node. split; [left|done].
      * left. eauto.
    + rewrite lookup_insert_ne by done. split.
      * intros [?|(n & Hn & Hk)]; [by left|].
        right. exists n. split; [by right|done].
      * intros [?|(n & Hn & Hk)]; [by left|].
        apply elem_of_cons in Hn as [->|Hn]; [done|].
        right. eauto.
Qed.

Lemma add_edge_unknown_target nodes_index parent_ind nodes edge :
  nodes_index !! (target edge - 1)%Z = None →
  add_edge nodes_index parent_ind nodes edge = Err KeyError.
Proof. intros H. unfold add_edge, getitem. by rewrite H. Qed.

Lemma add_edges_raises nodes_index nodes node e :
  add_edges nodes_index nodes node = Err e → e = KeyError ∨ e = IndexError.
Proof.
  unfold add_edges, getitem.
  destruct (nodes_index !! _) as [parent_ind|]; simpl; [|intros [= <-]; auto].
  destruct (node_edges node) as [es|]; [|done].
  apply (fold_each_raises (λ e, e = KeyError ∨ e = IndexError)).
  clear. intros ns edge e. unfold add_edge, getitem.
  destruct (nodes_index !! _); simpl; [|intros [= <-]; auto].
  unfold index. destruct (ns !! parent_ind); simpl; [done|intros [= <-]; auto].
Qed.

(** Whatever stops the construction is a [KeyError] (an id that the
    index does not hold) or an [IndexError] (an empty constant). *)
Lemma parse_orig_json_line_raises mrs e :
  parse_orig_json_line mrs = Err e → e = KeyError ∨ e = IndexError.
Proof.
  unfold parse_orig_json_line. intros H.
  apply bind_Err_inv in H as [H|(st & _ & H)].
  - right. revert H. apply (fold_each_raises (λ e, e = IndexError)).
    intros ???. apply parse_node_raises.
  - apply bind_Err_inv in H as [H|(ns & _ & H)]; [|done].
    revert H. apply (fold_each_raises (λ e, e = KeyError ∨ e = IndexError)).
    intros ???. apply add_edges_raises.
Qed.

(** C5: a record with an edge whose target id is the id of none of its
    nodes is not turned into a graph; the construction raises (a
    [KeyError] at that edge, unless an earlier record already stopped
    the construction). *)
Theorem C5_unknown_target_raises (mrs : mrs_rec) (node : node_rec)
  (es : list edge_rec) (edge : edge_rec) :
  node ∈ mrs_nodes mrs →
  node_edges node = Some es →
  edge ∈ es →
  (∀ n, n ∈ mrs_nodes mrs → id n ≠ target edge) →
  ∃ e, parse_orig_json_line mrs = Err e ∧ (e = KeyError ∨ e = IndexError).
Proof.
  intros Hnode Hes Hedge Hunknown.
  destruct (parse_orig_json_line mrs) as [g|e] eqn:Hparse.
  - exfalso. unfold parse_orig_json_line in Hparse.
    apply bind_Ok_inv in Hparse as (st & Hst & Hparse).
    apply bind_Ok_inv in Hparse as (ns & Hns & _).
    assert (Hnone : st.2 !! (target edge - 1)%Z = None).
    { apply eq_None_not_Some. intros Hsome.
      apply (parse_nodes_index _ _ _ Hst) in Hsome as [Hsome|(n & Hn & Hk)].
      - simpl in Hsome. rewrite lookup_empty in Hsome. by destruct Hsome.
      - apply (Hunknown n Hn). lia. }
    pose proof (fold_each_fails (add_edges st.2) (mrs_nodes mrs) node Hnode)
      as Hfail.
    enough (is_ok (fold_each (add_edges st.2) st.1 (mrs_nodes mrs)) = false)
      as Hno by (by rewrite Hns in Hno).
    apply Hfail. intros s. unfold add_edges.
    destruct (getitem st.2 (id node - 1)%Z) as [parent_ind|]; [|done].
    simpl. rewrite Hes.
    apply (fold_each_fails _ es edge Hedge). intros s'.
    by rewrite add_edge_unknown_target.
  - exists e. split; [done|]. by apply (parse_orig_json_line_raises mrs).
Qed.

Lemma C5_witness :
  ∃ e, parse_orig_json_line rec_dangling_target = Err e
       ∧ (e = KeyError ∨ e = IndexError).
Proof.
  apply (C5_unknown_target_raises rec_dangling_target
           {| id := 2; predicate := "_sleep_v_1"; prop_constant := None;
              node_start := 4; node_end := 10; node_top := Some true;
              node_edges := Some [ {| target := 5; label := "ARG1/NEQ" |} ] |}
           [ {| target := 5; label := "ARG1/NEQ" |} ]
           {| target := 5; label := "ARG1/NEQ" |}).
  - right. left.
  - reflexivity.
  - left.
  - intros n Hn. simpl in Hn.
    apply elem_of_cons in Hn as [->|Hn]; [simpl; lia|].
    apply elem_of_cons in Hn as [->|Hn]; [simpl; lia|].
    by apply elem_of_nil in Hn.
Defined.


(** *** Constructed graphs satisfy the graph invariant *)

Lemma parse_nodes_shape recs : ∀ st st',
  fold_each parse_node st recs = Ok st' →
  length st'.1 = length st.1 + length recs
  ∧ (∀ k v, st'.2 !! k = Some v → st.2 !! k = Some v ∨ v < length st'.1)
  ∧ (∀ n, Forall (wf_node n) st.1 → Forall (wf_node n) st'.1).
Proof.
  induction recs as [|node recs IH]; simpl; intros st st' H.
  - injection H as <-. split_and!; [lia|auto|auto].
  - apply bind_Ok_inv in H as (st1 & H1 & H).
    destruct (IH _ _ H) as (Hlen & Hidx & Hwf).
    pose proof (parse_node_index _ _ _ H1) as [Hidx1 Hlen1].
    split_and!.
    + lia.
    + intros k v Hv. apply Hidx in Hv as [Hv|Hv]; [|by right].
      rewrite Hidx1 in Hv.
      destruct (decide ((id node - 1)%Z = k)) as [<-|Hne].
      * rewrite lookup_insert_eq in Hv. injection Hv as <-. right. lia.
      * rewrite lookup_insert_ne in Hv by done. by left.
    + intros n Hn. apply Hwf. clear -H1 Hn.
      unfold parse_node in H1.
      apply bind_Ok_inv in H1 as (graph_node & Hg & H1).
      injection H1 as <-. simpl. apply Forall_app. split; [done|].
      apply Forall_singleton.
      assert (edges graph_node = [] ∧ relations graph_node = []) as [He Hr].
      { destruct (prop_constant node) as [const|].
        - apply bind_Ok_inv in Hg as (c & _ & Hg). by injection Hg as <-.
        - by injection Hg as <-. }
      destruct (node_top node) as [[]|]; (split; simpl; [by rewrite He, Hr|]);
        rewrite He; constructor.
Qed.

Lemma alter_append_edge_wf n child_ind relation parent_ind nodes :
  child_ind < n → Forall (wf_node n) nodes →
  Forall (wf_node n) (alter (append_edge child_ind relation) parent_ind nodes).
Proof.
  intros Hc Hwf. apply Forall_alter; [done|].
  intros node _ [Hlen Hch]. split; simpl.
  - rewrite !length_app. simpl. lia.
  - apply Forall_app. split; [done|]. by apply Forall_singleton.
Qed.

Lemma add_edges_wf nodes_index n node : ∀ nodes nodes',
  (∀ k v, nodes_index !! k = Some v → v < n) →
  add_edges nodes_index nodes node = Ok nodes' →
  Forall (wf_node n) nodes →
  Forall (wf_node n) nodes' ∧ length nodes' = length nodes.
Proof.
  intros nodes nodes' Hidx H Hwf. unfold add_edges in H.
  apply bind_Ok_inv in H as (parent_ind & _ & H).
  destruct (node_edges node) as [es|]; [|by injection H as <-].
  revert nodes nodes' H Hwf.
  induction es as [|edge es IH]; simpl; intros nodes nodes' H Hwf.
  - by injection H as <-.
  - apply bind_Ok_inv in H as (nodes1 & H1 & H).
    unfold add_edge in H1.
    apply bind_Ok_inv in H1 as (child_ind & Hc & H1).
    apply bind_Ok_inv in H1 as (? & _ & H1). injection H1 as <-.
    unfold getitem in Hc.
    destruct (nodes_index !! _) as [v|] eqn:Hv; [|done]. injection Hc as ->.
    destruct (IH _ _ H) as [Hwf' Hlen'].
    + apply alter_append_edge_wf; eauto.
    + split; [done|]. by rewrite Hlen', length_alter.
Qed.

Lemma add_all_edges_wf nodes_index n recs : ∀ nodes nodes',
  (∀ k v, nodes_index !! k = Some v → v < n) →
  fold_each (add_edges nodes_index) nodes recs = Ok nodes' →
  Forall (wf_node n) nodes →
  Forall (wf_node n) nodes' ∧ length nodes' = length nodes.
Proof.
  induction recs as [|node recs IH]; simpl; intros nodes nodes' Hidx H Hwf.
  - by injection H as <-.
  - apply bind_Ok_inv in H as (nodes1 & H1 & H).
    destruct (add_edges_wf _ n _ _ _ Hidx H1 Hwf) as [Hwf1 Hlen1].
    destruct (IH _ _ Hidx H Hwf1) as [Hwf' Hlen'].
    split; [done|congruence].
Qed.

Lemma parse_orig_json_line_wf mrs g :
  parse_orig_json_line mrs = Ok g → wf_graph g.
Proof.
  unfold parse_orig_json_line. intros H.
  apply bind_Ok_inv in H as (st & Hst & H).
  apply bind_Ok_inv in H as (ns & Hns & H). injection H as <-.
  destruct (parse_nodes_shape _ _ _ Hst) as (Hlen & Hidx & Hwf).
  unfold wf_graph. simpl.
  assert (Hbound : ∀ k v, st.2 !! k = Some v → v < length st.1).
  { intros k v Hv. apply Hidx in Hv as [Hv|Hv]; [|done].
    simpl in Hv. by rewrite lookup_empty in Hv. }
  destruct (add_all_edges_wf _ (length st.1) _ _ _ Hbound Hns) as [Hwf' Hlen'].
  - apply Hwf. simpl. constructor.
  - by rewrite Hlen'.
Qed.


(** ** Triple extraction *)

Lemma for_each_map_ok {A B C} (f : A → result B) (h : B → C) xs :
  for_each (λ x, y <- f x ;; Ok (h y)) xs
  = (ys <- for_each f xs ;; Ok (map h ys)).
Proof.
  induction xs as [|x xs IH]; simpl; [done|].
  destruct (f x) as [y|]; simpl; [|done].
  rewrite IH. by destruct (for_each f xs).
Qed.

Lemma edge_triples_render g node ise labeled : ∀ children k node_ind,
  edge_triples g node ise labeled k children node_ind
  = (ends <- edge_ends g node ise k children node_ind ;;
     Ok (map (render labeled) ends)).
Proof.
  induction children as [|c children IH]; simpl; intros k node_ind; [done|].
  destruct (index (nodes g) c) as [child_node|]; simpl; [|done].
  destruct (index (relations node) k) as [relation|]; simpl; [|done].
  rewrite IH.
  destruct (edge_ends g node ise (S k) children _) as [rest|]; simpl; [|done].
  do 2 f_equal. unfold render, emitted_label. simpl.
  destruct labeled; [done|]. done.
Qed.

Lemma concat_map_map {A B} (h : A → B) (xss : list (list A)) :
  concat (map (map h) xss) = map h (concat xss).
Proof.
  induction xss as [|xs xss IH]; simpl; [done|].
  by rewrite IH, map_app.
Qed.

(** The relation triples are the root markers followed by the rendered
    edge ends; only the rendering looks at [labeled]. *)
Lemma relation_triples_render g ise labeled :
  relation_triples g ise labeled
  = (ends <- relation_ends g ise ;;
     Ok (top_triples g ise ++ map (render labeled) ends)).
Proof.
  unfold relation_triples, relation_ends.
  rewrite (for_each_ext (node_edge_triples g ise labeled)
             (λ node, ends <- edge_ends g node ise 0 (edges node)
                                (span_str node ise) ;;
                      Ok (map (render labeled) ends))).
  2:{ intros node _. apply edge_triples_render. }
  rewrite for_each_map_ok.
  destruct (for_each _ (nodes g)) as [per_node|]; simpl; [|done].
  by rewrite concat_map_map.
Qed.

Lemma top_triples_spec g ise t :
  t ∈ top_triples g ise ↔
  ∃ node, node ∈ nodes g ∧ top node = true
          ∧ t = "-1:-1 /H " +:+ span_str node ise.
Proof.
  unfold top_triples. rewrite elem_of_flat_map. split.
  - intros (node & Hn & Ht). exists node.
    destruct (top node); [|by inversion Ht].
    apply list_elem_of_singleton in Ht. done.
  - intros (node & Hn & Htop & ->). exists node.
    rewrite Htop. split; [done|]. by left.
Qed.

(** An /EQ edge between two nodes without other edges gives the same
    relation triples whichever of the two is its source. *)
Lemma lone_eq_edge_canonical (a b : MrsNode) (pid : Z) (ise labeled : bool) :
  edges a = [] → relations a = [] → edges b = [] → relations b = [] →
  relation_triples
    {| nodes := [append_edge 1 "/EQ" a; b]; parse_id := pid |} ise labeled
  = relation_triples
      {| nodes := [a; append_edge 0 "/EQ" b]; parse_id := pid |} ise labeled.
Proof.
  destruct a as [an ac sa ea ak at_ aes ars], b as [bn bc sb eb bk bt bes brs].
  simpl. intros -> -> -> ->.
  unfold relation_triples, node_edge_triples, top_triples, eq_swap, span_str,
    append_edge, index.
  cbn -[String.append Z.ltb Z.eqb].
  destruct (Z.ltb_spec sb sa), (Z.ltb_spec sa sb), (Z.eqb_spec sa sb),
    (Z.eqb_spec sb sa), (Z.ltb_spec eb ea), (Z.ltb_spec ea eb);
    cbn -[String.append]; try lia; try done.
  all: by assert (ea = eb) as -> by lia; subst.
Qed.

(** C3, at the failing input: the node at 5:6 has an /EQ edge to the
    node at 1:2 and then one to the node at 3:4.  The first swap
    leaves ["1:2"] in [node_ind], so the second edge is emitted as
    ["3:4 /EQ/U 1:2"]; with that second edge reversed the triple is
    ["3:4 /EQ/U 5:6"]. *)
Theorem C3_second_eq_edge_not_canonical :
  parse_orig_json_line rec_two_eq = Ok graph_two_eq
  ∧ parse_orig_json_line rec_two_eq_reversed = Ok graph_two_eq_reversed
  ∧ relation_triples graph_two_eq true true
    = Ok ["1:2 /EQ/U 5:6"; "3:4 /EQ/U 1:2"]
  ∧ relation_triples graph_two_eq_reversed true true
    = Ok ["3:4 /EQ/U 5:6"; "1:2 /EQ/U 5:6"].
Proof. split_and!; reflexivity. Qed.


(** *** Which exceptions extraction can raise, and when it cannot *)

Lemma index_raises {A} (xs : list A) i e : index xs i = Err e → e = IndexError.
Proof. unfold index. destruct (xs !! i); [done|]. by intros [= <-]. Qed.

Lemma edge_triples_raises g node ise labeled e : ∀ children k node_ind,
  edge_triples g node ise labeled k children node_ind = Err e → e = IndexError.
Proof.
  induction children as [|c children IH]; simpl; intros k node_ind H; [done|].
  apply bind_Err_inv in H as [H|(child_node & _ & H)];
    [by apply index_raises in H|].
  apply bind_Err_inv in H as [H|(relation & _ & H)];
    [by apply index_raises in H|].
  apply bind_Err_inv in H as [H|(rest & _ & H)]; [eauto|done].
Qed.

Lemma relation_triples_raises g ise labeled e :
  relation_triples g ise labeled = Err e → e = IndexError.
Proof.
  unfold relation_triples. intros H.
  apply bind_Err_inv in H as [H|(per_node & _ & H)]; [|done].
  revert H. apply (for_each_raises (λ e, e = IndexError)).
  intros node e'. apply edge_triples_raises.
Qed.

Lemma extract_raises cfg g e : extract cfg g = Err e → e = IndexError.
Proof.
  unfold extract, eds_triples. destruct (score_relations cfg); [|done].
  intros H. apply bind_Err_inv in H as [H|(rels & _ & H)]; [|done].
  by apply relation_triples_raises in H.
Qed.

Lemma edge_triples_total g node ise labeled : ∀ children k node_ind,
  Forall (λ c, c < length (nodes g)) children →
  k + length children ≤ length (relations node) →
  is_ok (edge_triples g node ise labeled k children node_ind) = true.
Proof.
  induction children as [|c children IH]; simpl; intros k node_ind Hc Hk;
    [done|].
  apply Forall_cons in Hc as [Hc Hcs].
  unfold index at 1. destruct (lookup_lt_is_Some_2 (nodes g) c Hc) as [cn ->].
  simpl. unfold index at 1.
  destruct (lookup_lt_is_Some_2 (relations node) k ltac:(lia)) as [r ->].
  simpl.
  specialize (IH (S k) (if eq_swap r node cn
                        then (span_str cn ise, node_ind)
                        else (node_ind, span_str cn ise)).1 Hcs ltac:(lia)).
  by destruct (edge_triples g node ise labeled (S k) children _).
Qed.

Lemma for_each_total {A B} (f : A → result B) xs :
  Forall (λ x, is_ok (f x) = true) xs → is_ok (for_each f xs) = true.
Proof.
  induction 1 as [|x xs Hx _ IH]; simpl; [done|].
  destruct (f x); [|done]. simpl. by destruct (for_each f xs).
Qed.

Lemma relation_triples_total g ise labeled :
  wf_graph g → is_ok (relation_triples g ise labeled) = true.
Proof.
  intros Hwf. unfold relation_triples.
  assert (is_ok (for_each (node_edge_triples g ise labeled) (nodes g)) = true)
    as Hok.
  { apply for_each_total. eapply Forall_impl; [exact Hwf|].
    intros node [Hlen Hch]. apply edge_triples_total; [done|]. simpl. lia. }
  by destruct (for_each _ (nodes g)).
Qed.

Lemma extract_total cfg g : wf_graph g → is_ok (extract cfg g) = true.
Proof.
  intros Hwf. unfold extract, eds_triples.
  destruct (score_relations cfg); [|done].
  pose proof (relation_triples_total g (include_span_ends cfg) (labeled cfg) Hwf).
  by destruct (relation_triples g _ _).
Qed.


(** ** The scorer *)

Lemma count_pos_nonzero n : 0 < n → ¬ (count n == 0)%Q.
Proof.
  intros Hn. unfold count, Qeq. simpl. lia.
Qed.

Lemma count_ratio_pos c n : 0 < c → 0 < n → (0 < count c / count n)%Q.
Proof.
  intros Hc Hn. apply Qlt_shift_div_l.
  - unfold count, Qlt. simpl. lia.
  - unfold count, Qlt. simpl. lia.
Qed.

Lemma div_count c n :
  0 < n → div (count c) (count n) = Ok (count c / count n)%Q.
Proof.
  intros Hn. unfold div.
  destruct (Qeq_bool (count n) 0) eqn:E; [|done].
  apply Qeq_bool_iff in E. by apply count_pos_nonzero in E.
Qed.

(** The last lines of [compute_f1] in terms of the three totals: the
    assertion fails when a total is zero, the F1 division fails when
    nothing is correct, and otherwise the three ratios come out. *)
Lemma final_score_cases t :
  final_score t
  = score_cases (total_gold t) (total_predicted t) (total_correct t).
Proof.
  unfold final_score, score_cases.
  destruct (Nat.ltb_spec 0 (total_predicted t)) as [Hp|Hp]; simpl.
  2:{ rewrite bool_decide_eq_true_2; [done|]. left. lia. }
  destruct (Nat.ltb_spec 0 (total_gold t)) as [Hg|Hg]; simpl.
  2:{ rewrite bool_decide_eq_true_2; [done|]. right. lia. }
  rewrite bool_decide_eq_false_2 by lia.
  rewrite !div_count by done. simpl.
  unfold div. case_bool_decide as Hc.
  - rewrite Hc.
    assert (Qeq_bool (count 0 / count (total_predicted t)
                      + count 0 / count (total_gold t)) 0 = true) as ->; [|done].
    apply Qeq_bool_iff. unfold Qdiv. change (count 0) with 0%Q. ring.
  - destruct (Qeq_bool _ 0) eqn:E; [|done].
    apply Qeq_bool_iff in E. exfalso.
    pose proof (count_ratio_pos (total_correct t) (total_predicted t)
                  ltac:(lia) Hp) as H1.
    pose proof (count_ratio_pos (total_correct t) (total_gold t)
                  ltac:(lia) Hg) as H2.
    pose proof (Qplus_lt_le_compat _ _ _ _ H1 (Qlt_le_weak _ _ H2)) as H3.
    rewrite E in H3. revert H3. apply Qlt_irrefl.
Qed.

Lemma spec_none_count_cons predicted_graphs item gold_graphs :
  spec_none_count predicted_graphs (item :: gold_graphs)
  = (if decide (corpus_get predicted_graphs item.1 = None) then 1 else 0)
    + spec_none_count predicted_graphs gold_graphs.
Proof.
  unfold spec_none_count.
  rewrite (filter_cons (λ item : Z * MrsGraph,
                          corpus_get predicted_graphs item.1 = None)).
  by case_decide.
Qed.

Lemma score_item_sets O cfg predicted_graphs t item :
  score_item O cfg predicted_graphs t item
  = (s <- item_sets O cfg predicted_graphs item ;;
     Ok {| total_gold := total_gold t + size s.1;
           total_predicted := total_predicted t + size s.2;
           total_correct := total_correct t + size (s.1 ∩ s.2);
           none_count :=
             none_count t + spec_none_count predicted_graphs [item] |}).
Proof.
  unfold score_item, item_sets. rewrite spec_none_count_cons.
  destruct (item_triples cfg predicted_graphs item) as [tr|] eqn:Htr;
    simpl; [|done].
  destruct (reconcile O tr.1.1 tr.1.2) as [predicted|]; simpl; [|done].
  do 2 f_equal.
  unfold item_triples in Htr.
  apply bind_Ok_inv in Htr as (gold & _ & Htr).
  change (spec_none_count predicted_graphs []) with 0.
  destruct (corpus_get predicted_graphs item.1) as [predicted_g|].
  - apply bind_Ok_inv in Htr as (p & _ & Htr). injection Htr as <-.
    rewrite decide_False by done. simpl. lia.
  - injection Htr as <-. rewrite decide_True by done. simpl. lia.
Qed.

(** The loop with its four counters against the sums over the items. *)
Lemma accumulate_from_spec O cfg predicted_graphs gold_graphs : ∀ t,
  fold_each (score_item O cfg predicted_graphs) t gold_graphs
  = (sets <- for_each (item_sets O cfg predicted_graphs) gold_graphs ;;
     Ok {| total_gold := total_gold t + spec_total_gold sets;
           total_predicted := total_predicted t + spec_total_predicted sets;
           total_correct := total_correct t + spec_total_correct sets;
           none_count :=
             none_count t + spec_none_count predicted_graphs gold_graphs |}).
Proof.
  induction gold_graphs as [|item gold_graphs IH]; intros t.
  - simpl. change (spec_none_count predicted_graphs []) with 0.
    destruct t; simpl. do 2 f_equal; lia.
  - cbn [fold_each for_each]. rewrite score_item_sets.
    destruct (item_sets O cfg predicted_graphs item) as [s|]; simpl; [|done].
    rewrite IH.
    destruct (for_each _ gold_graphs) as [sets|]; simpl; [|done].
    rewrite (spec_none_count_cons _ item gold_graphs), spec_none_count_cons.
    change (spec_none_count predicted_graphs []) with 0.
    do 2 f_equal; unfold spec_total_gold, spec_total_predicted,
      spec_total_correct; simpl; lia.
Qed.

Lemma accumulate_spec O cfg gold_graphs predicted_graphs :
  accumulate O cfg gold_graphs predicted_graphs
  = (sets <- for_each (item_sets O cfg predicted_graphs) gold_graphs ;;
     Ok {| total_gold := spec_total_gold sets;
           total_predicted := spec_total_predicted sets;
           total_correct := spec_total_correct sets;
           none_count := spec_none_count predicted_graphs gold_graphs |}).
Proof. unfold accumulate. by rewrite accumulate_from_spec. Qed.

(** The scorer as sums over sets: it walks the gold items; each item
    yields the set of its gold triples and the set of its reconciled
    predicted triples; the three totals are the sums of the sizes of
    the gold sets, of the predicted sets and of their intersections;
    the outcome is decided by the three totals. *)
Lemma compute_f1_cases (O : SetOrder) (gold_graphs predicted_graphs : corpus)
  (cfg : config) :
  compute_f1 O gold_graphs predicted_graphs cfg
  = (sets <- for_each (item_sets O cfg predicted_graphs) gold_graphs ;;
     score_cases (spec_total_gold sets) (spec_total_predicted sets)
       (spec_total_correct sets)).
Proof.
  unfold compute_f1. rewrite accumulate_spec.
  destruct (for_each _ gold_graphs) as [sets|]; simpl; [|done].
  apply final_score_cases.
Qed.

(** Where the code and the specification part: with something correct,
    or on an invalid run, lines 235-242 give what section 4.4 asks
    for; on a valid run with nothing correct they raise, where section
    4.4 asks for the score 0. *)
Lemma score_cases_spec_score (gold predicted correct : nat) :
  0 < correct ∨ predicted = 0 ∨ gold = 0 →
  score_cases gold predicted correct = spec_score gold predicted correct.
Proof.
  intros H. unfold score_cases, spec_score.
  destruct (decide (predicted = 0 ∨ gold = 0)) as [Hinv|Hval].
  - rewrite bool_decide_eq_true_2 by done.
    by rewrite bool_decide_eq_false_2 by lia.
  - rewrite bool_decide_eq_false_2 by done.
    rewrite (bool_decide_eq_true_2 (0 < predicted ∧ 0 < gold)) by lia.
    rewrite bool_decide_eq_false_2 by lia.
    assert (Qeq_bool (count correct / count predicted) 0 = false) as ->;
      [|done].
    apply not_true_is_false. intros Hz%Qeq_bool_iff.
    pose proof (count_ratio_pos correct predicted ltac:(lia) ltac:(lia)).
    lra.
Qed.

Lemma score_cases_nothing_correct (gold predicted : nat) :
  0 < predicted → 0 < gold →
  score_cases gold predicted 0 = Err ZeroDivisionError
  ∧ ∃ s, spec_score gold predicted 0 = Ok s
         ∧ (precision s == 0)%Q ∧ (recall s == 0)%Q ∧ (f1 s == 0)%Q.
Proof.
  intros Hp Hg. unfold score_cases, spec_score. split.
  - by rewrite bool_decide_eq_false_2 by lia.
  - rewrite bool_decide_eq_true_2 by lia. eexists. split; [done|].
    cbn [precision recall f1]. change (count 0) with 0%Q.
    assert (Hz : ∀ n, (0 / count n == 0)%Q) by (intros n; apply Qmult_0_l).
    split_and!; [apply Hz|apply Hz|].
    assert (Qeq_bool (0 / count predicted) 0 = true) as ->
      by apply Qeq_bool_iff, Hz.
    assert (Qeq_bool (0 / count gold) 0 = true) as ->
      by apply Qeq_bool_iff, Hz.
    done.
Qed.

Lemma compute_f1_spec_score (O : SetOrder)
  (gold_graphs predicted_graphs : corpus) (cfg : config)
  (sets : list (gset string * gset string)) :
  for_each (item_sets O cfg predicted_graphs) gold_graphs = Ok sets →
  0 < spec_total_correct sets
  ∨ spec_total_predicted sets = 0 ∨ spec_total_gold sets = 0 →
  compute_f1 O gold_graphs predicted_graphs cfg
  = spec_score (spec_total_gold sets) (spec_total_predicted sets)
      (spec_total_correct sets).
Proof.
  intros Hsets H. rewrite compute_f1_cases, Hsets. cbn [Py.bind].
  by apply score_cases_spec_score.
Qed.

(** *** What the reconciler can raise *)

Lemma nat_of_digits_raises s e : nat_of_digits s = Err e → e = ValueError.
Proof.
  unfold nat_of_digits. destruct (digits_of false s) as [ds|]; [|congruence].
  destruct (NilEmpty.uint_of_string ds); congruence.
Qed.

Lemma int_raises s e : int s = Err e → e = ValueError.
Proof.
  unfold int. destruct (strip s) as [|c body]; [congruence|].
  destruct (Ascii.eqb c "-").
  - intros H. apply bind_Err_inv in H as [H|(n & _ & H)]; [|done].
    by apply nat_of_digits_raises in H.
  - destruct (Ascii.eqb c "+"); apply nat_of_digits_raises.
Qed.

Lemma shift_end_raises delta span e :
  shift_end delta span = Err e → e = IndexError ∨ e = ValueError.
Proof.
  unfold shift_end. intros H.
  apply bind_Err_inv in H as [H|(s0 & _ & H)];
    [left; by apply index_raises in H|].
  apply bind_Err_inv in H as [H|(s1 & _ & H)];
    [left; by apply index_raises in H|].
  apply bind_Err_inv in H as [H|(n & _ & H)]; [|done].
  right. by apply int_raises in H.
Qed.

Lemma replace_new_spans_raises gold_spans predicted_spans e :
  ∀ new_spans i predicted_triples,
  replace_new_spans gold_spans predicted_spans i new_spans predicted_triples
  = Err e → e = IndexError.
Proof.
  induction new_spans as [|new_span new_spans IH]; simpl; intros i pt H;
    [done|].
  apply bind_Err_inv in H as [H|(old_span & _ & H)];
    [by apply index_raises in H|eauto].
Qed.

Lemma reconcile_raises O gold_triples predicted_triples e :
  reconcile O gold_triples predicted_triples = Err e →
  e = IndexError ∨ e = ValueError.
Proof.
  unfold reconcile, inc_end_spans, dec_end_spans. intros H.
  apply bind_Err_inv in H as [H|(inc & _ & H)].
  { revert H. apply (for_each_raises (λ e, e = IndexError ∨ e = ValueError)).
    intros ??. apply shift_end_raises. }
  apply bind_Err_inv in H as [H|(pt & _ & H)];
    [left; by apply replace_new_spans_raises in H|].
  apply bind_Err_inv in H as [H|(dec & _ & H)].
  { revert H. apply (for_each_raises (λ e, e = IndexError ∨ e = ValueError)).
    intros ??. apply shift_end_raises. }
  left. by apply replace_new_spans_raises in H.
Qed.

Lemma item_triples_raises cfg predicted_graphs item e :
  item_triples cfg predicted_graphs item = Err e → e = IndexError.
Proof.
  unfold item_triples. intros H.
  apply bind_Err_inv in H as [H|(gold & _ & H)];
    [by apply extract_raises in H|].
  destruct (corpus_get predicted_graphs item.1) as [predicted_g|]; [|done].
  apply bind_Err_inv in H as [H|(p & _ & H)]; [|done].
  by apply extract_raises in H.
Qed.

(** The accumulation loop raises nothing but [IndexError] and
    [ValueError]; in particular never the [AssertionError] of line 235. *)
Lemma accumulate_raises O cfg gold_graphs predicted_graphs e :
  accumulate O cfg gold_graphs predicted_graphs = Err e →
  e = IndexError ∨ e = ValueError.
Proof.
  unfold accumulate.
  apply (fold_each_raises (λ e, e = IndexError ∨ e = ValueError)).
  intros t item e'. unfold score_item. intros H.
  apply bind_Err_inv in H as [H|(tr & _ & H)];
    [left; by apply item_triples_raises in H|].
  apply bind_Err_inv in H as [H|(p & _ & H)]; [|done].
  by apply reconcile_raises in H.
Qed.

Lemma final_score_assertion t :
  final_score t = Err AssertionError ↔
  total_predicted t = 0 ∨ total_gold t = 0.
Proof.
  rewrite final_score_cases. unfold score_cases.
  case_bool_decide as Hz; [by split|].
  split; [|done]. by case_bool_decide.
Qed.

(** *** An empty predicted corpus *)

Lemma enum_nil O : enum O [] = [].
Proof.
  destruct (enum O []) as [|x xs] eqn:E; [done|].
  assert (x ∈ enum O []) as Hx by (rewrite E; left).
  apply enum_elem in Hx. by inversion Hx.
Qed.

Lemma reconcile_nil O gold_triples : reconcile O gold_triples [] = Ok [].
Proof.
  unfold reconcile, list_spans. change (span_adds []) with (@nil string).
  by rewrite enum_nil.
Qed.

Lemma accumulate_no_predictions O cfg gold_graphs :
  wf_corpus gold_graphs →
  ∃ t, accumulate O cfg gold_graphs [] = Ok t ∧ total_predicted t = 0.
Proof.
  intros Hwf. rewrite accumulate_spec.
  assert (∃ sets, for_each (item_sets O cfg []) gold_graphs = Ok sets
                  ∧ spec_total_predicted sets = 0) as (sets & -> & Hp).
  { induction Hwf as [|item gold_graphs Hitem _ (sets & IH & Hp)].
    - by exists [].
    - cbn [for_each]. unfold item_sets at 1, item_triples. simpl.
      pose proof (extract_total cfg item.2 Hitem) as Hok.
      destruct (extract cfg item.2) as [gold|]; [|done]. simpl.
      rewrite reconcile_nil. simpl. rewrite IH. simpl.
      eexists. split; [done|].
      unfold spec_total_predicted in *. simpl. by rewrite Hp. }
  simpl. eauto.
Qed.

(** C2: the scorer raises the [AssertionError] of line 235 exactly when
    the loop over the gold items has run to its end and left
    [total_predicted] or [total_gold] at zero; with an empty predicted
    corpus (and gold graphs satisfying the graph invariant) that is what
    happens, whatever the gold corpus and the configuration, and no
    score is returned. *)
Theorem C2_invalid_run (O : SetOrder) (gold_graphs predicted_graphs : corpus)
  (cfg : config) :
  (compute_f1 O gold_graphs predicted_graphs cfg = Err AssertionError ↔
   ∃ t, accumulate O cfg gold_graphs predicted_graphs = Ok t
        ∧ (total_predicted t = 0 ∨ total_gold t = 0))
  ∧ (wf_corpus gold_graphs →
     compute_f1 O gold_graphs [] cfg = Err AssertionError).
Proof.
  split.
  - unfold compute_f1. split.
    + intros H. apply bind_Err_inv in H as [H|(t & Ht & H)].
      * apply accumulate_raises in H as [H|H]; discriminate.
      * exists t. split; [done|]. by apply final_score_assertion.
    + intros (t & -> & Hz). simpl. by apply final_score_assertion.
  - intros Hwf. unfold compute_f1.
    destruct (accumulate_no_predictions O cfg gold_graphs Hwf) as (t & -> & Hp).
    simpl. apply final_score_assertion. by left.
Qed.


Example parse_kim_sleeps :
  parse_orig_json_line rec_kim_sleeps = Ok graph_kim_sleeps.
Proof. reflexivity. Qed.

Lemma wf_graph_kim_sleeps : wf_graph graph_kim_sleeps.
Proof. apply (parse_orig_json_line_wf rec_kim_sleeps). reflexivity. Defined.

Lemma C2_witness :
  compute_f1 last_add_order [(7%Z, graph_kim_sleeps)] [] full_edm
  = Err AssertionError.
Proof.
  apply (proj2 (C2_invalid_run last_add_order [(7%Z, graph_kim_sleeps)] []
                  full_edm)).
  constructor; [|constructor]. exact wf_graph_kim_sleeps.
Defined.

(** *** Predictions that equal the gold triples *)

Lemma replace_new_spans_all_gold gold_spans predicted_spans :
  (∀ old_span, old_span ∈ predicted_spans → old_span ∈ gold_spans) →
  ∀ new_spans i predicted_triples r,
  replace_new_spans gold_spans predicted_spans i new_spans predicted_triples
  = Ok r → r = predicted_triples.
Proof.
  intros Hgold. induction new_spans as [|new_span new_spans IH]; simpl;
    intros i pt r H.
  - by injection H as <-.
  - apply bind_Ok_inv in H as (old_span & Hold & H).
    unfold index in Hold.
    destruct (predicted_spans !! i) as [x|] eqn:Hx; [|done].
    injection Hold as ->.
    rewrite bool_decide_eq_false_2 in H; [by apply IH in H|].
    intros Hnot. apply Hnot, Hgold. by eapply list_elem_of_lookup_2.
Qed.

Lemma reconcile_all_gold O gold_triples predicted_triples r :
  (∀ span, span ∈ span_adds predicted_triples → span ∈ span_adds gold_triples) →
  reconcile O gold_triples predicted_triples = Ok r →
  r = predicted_triples.
Proof.
  intros Hsub. unfold reconcile. intros H.
  assert (Hgold : ∀ old_span,
            old_span ∈ list_spans O predicted_triples →
            old_span ∈ (list_to_set (list_spans O gold_triples) : gset string)).
  { intros s Hs. apply elem_of_list_to_set. unfold list_spans in *.
    apply enum_elem. apply enum_elem in Hs. auto. }
  apply bind_Ok_inv in H as (inc & _ & H).
  apply bind_Ok_inv in H as (pt & Hpt & H).
  apply bind_Ok_inv in H as (dec & _ & H).
  apply (replace_new_spans_all_gold _ _ Hgold) in Hpt as ->.
  by apply (replace_new_spans_all_gold _ _ Hgold) in H.
Qed.

Lemma span_adds_same_set (ts us : list string) span :
  (list_to_set ts : gset string) = list_to_set us →
  span ∈ span_adds ts → span ∈ span_adds us.
Proof.
  intros Hset. unfold span_adds. rewrite !elem_of_flat_map.
  intros (t & Ht & Hs). exists t. split; [|done].
  apply (elem_of_list_to_set (C := gset string)).
  rewrite <- Hset. by apply elem_of_list_to_set.
Qed.

Lemma fold_each_Ok_each {A S} (f : S → A → result S) xs x :
  x ∈ xs → ∀ s s', fold_each f s xs = Ok s' → ∃ s1 s2, f s1 x = Ok s2.
Proof.
  induction xs as [|y xs IH]; intros Hx s s' H; [by inversion Hx|].
  simpl in H. apply bind_Ok_inv in H as (s1 & H1 & H).
  apply elem_of_cons in Hx as [->|Hx]; eauto.
Qed.

Lemma f1_of_equal_totals t :
  total_predicted t = total_gold t → total_correct t = total_gold t →
  0 < total_gold t →
  ∃ s, final_score t = Ok s
       ∧ (precision s == 1)%Q ∧ (recall s == 1)%Q ∧ (f1 s == 1)%Q.
Proof.
  intros Hp Hc Hn. rewrite final_score_cases, Hp, Hc. unfold score_cases.
  rewrite bool_decide_eq_false_2 by lia.
  rewrite bool_decide_eq_false_2 by lia.
  eexists. split; [done|]. simpl.
  pose proof (count_pos_nonzero _ Hn) as Hnz.
  split_and!; field; done.
Qed.

Lemma item_sets_equal O cfg predicted_graphs item s :
  (∀ tr, item_triples cfg predicted_graphs item = Ok tr →
         (list_to_set tr.1.2 : gset string) = list_to_set tr.1.1) →
  item_sets O cfg predicted_graphs item = Ok s →
  s.2 = s.1
  ∧ ∀ tr, item_triples cfg predicted_graphs item = Ok tr →
          reconcile O tr.1.1 tr.1.2 = Ok tr.1.2.
Proof.
  intros Hsame H. unfold item_sets in H.
  apply bind_Ok_inv in H as (tr & Htr & H).
  apply bind_Ok_inv in H as (p & Hp & H). injection H as <-.
  pose proof (Hsame tr Htr) as Hset.
  assert (p = tr.1.2) as ->.
  { apply (reconcile_all_gold O tr.1.1); [|done].
    intros span. by apply span_adds_same_set. }
  split; [done|]. intros tr' Htr'. congruence.
Qed.

Lemma equal_sets_equal_totals (sets : list (gset string * gset string)) :
  Forall (λ s, s.2 = s.1) sets →
  spec_total_predicted sets = spec_total_gold sets
  ∧ spec_total_correct sets = spec_total_gold sets.
Proof.
  unfold spec_total_predicted, spec_total_gold, spec_total_correct.
  induction sets as [|s sets IH]; simpl; intros Hall; [done|].
  apply Forall_cons in Hall as [Hs Hall]. destruct (IH Hall) as [IH1 IH2].
  rewrite IH1, IH2, Hs. split; [done|]. by rewrite (idemp_L (∩) s.1).
Qed.

Lemma for_each_Forall {A B} (f : A → result B) (P : B → Prop) xs ys :
  (∀ x y, x ∈ xs → f x = Ok y → P y) →
  for_each f xs = Ok ys → Forall P ys.
Proof.
  revert ys. induction xs as [|x xs IH]; simpl; intros ys HP H.
  - injection H as <-. constructor.
  - apply bind_Ok_inv in H as (y & Hy & H).
    apply bind_Ok_inv in H as (ys' & Hys & H). injection H as <-.
    constructor.
    + apply (HP x); [left|done].
    + apply IH; [|done]. intros x' y' Hx'. apply HP. by right.
Qed.

Lemma for_each_Ok_each {A B} (f : A → result B) xs ys x :
  for_each f xs = Ok ys → x ∈ xs → ∃ y, f x = Ok y.
Proof.
  revert ys. induction xs as [|x' xs IH]; simpl; intros ys H Hx;
    [by inversion Hx|].
  apply bind_Ok_inv in H as (y & Hy & H).
  apply bind_Ok_inv in H as (ys' & Hys & H).
  apply elem_of_cons in Hx as [->|Hx]; eauto.
Qed.

(** C7: when, for every gold item, the predicted triples as a set
    equal the gold triples as a set, and the loop over the gold items
    ends with positive totals, the scorer returns precision, recall
    and F1 equal to 1, whatever the configuration and the enumeration
    order; and on every item the reconciler returns the predicted
    triples as they were extracted. *)
Theorem C7_equal_sets_score_one (O : SetOrder) (gold_graphs predicted_graphs : corpus)
  (cfg : config) (t : totals) :
  (∀ item tr, item ∈ gold_graphs →
     item_triples cfg predicted_graphs item = Ok tr →
     (list_to_set tr.1.2 : gset string) = list_to_set tr.1.1) →
  accumulate O cfg gold_graphs predicted_graphs = Ok t →
  0 < total_predicted t → 0 < total_gold t →
  (∃ s, compute_f1 O gold_graphs predicted_graphs cfg = Ok s
        ∧ (f1 s == 1)%Q ∧ (precision s == 1)%Q ∧ (recall s == 1)%Q)
  ∧ (∀ item tr, item ∈ gold_graphs →
       item_triples cfg predicted_graphs item = Ok tr →
       reconcile O tr.1.1 tr.1.2 = Ok tr.1.2).
Proof.
  intros Hsame Hacc Hp Hg.
  pose proof Hacc as Hacc'. rewrite accumulate_spec in Hacc'.
  apply bind_Ok_inv in Hacc' as (sets & Hsets & Ht).
  split.
  - unfold compute_f1. rewrite Hacc. simpl.
    assert (Forall (λ s : gset string * gset string, s.2 = s.1) sets) as Heq.
    { eapply for_each_Forall; [|exact Hsets].
      intros item s Hitem Hs.
      apply (item_sets_equal O cfg predicted_graphs item s); [|done].
      intros tr. by apply Hsame. }
    apply equal_sets_equal_totals in Heq as [Hpg Hcg].
    injection Ht as <-. simpl in *.
    destruct (f1_of_equal_totals
                {| total_gold := spec_total_gold sets;
                   total_predicted := spec_total_predicted sets;
                   total_correct := spec_total_correct sets;
                   none_count := spec_none_count predicted_graphs gold_graphs |})
      as (s & Hs & Hprec & Hrec & Hf1); [done..|].
    exists s. by split_and!.
  - intros item tr Hitem Htr.
    destruct (for_each_Ok_each _ _ _ item Hsets Hitem) as [s Hs].
    apply (item_sets_equal O cfg predicted_graphs item s); [|done..].
    intros tr'. by apply Hsame.
Qed.

Lemma C7_witness :
  (∃ s, compute_f1 last_add_order [(7%Z, graph_kim_sleeps)]
          [(7%Z, graph_kim_sleeps)] full_edm = Ok s
        ∧ (f1 s == 1)%Q ∧ (precision s == 1)%Q ∧ (recall s == 1)%Q)
  ∧ (∀ item tr, item ∈ [(7%Z, graph_kim_sleeps)] →
       item_triples full_edm [(7%Z, graph_kim_sleeps)] item = Ok tr →
       reconcile last_add_order tr.1.1 tr.1.2 = Ok tr.1.2).
Proof.
  apply (C7_equal_sets_score_one last_add_order [(7%Z, graph_kim_sleeps)]
           [(7%Z, graph_kim_sleeps)] full_edm
           {| total_gold := 5; total_predicted := 5; total_correct := 5;
              none_count := 0 |}).
  - intros item tr Hitem Htr.
    apply list_elem_of_singleton in Hitem as ->.
    vm_compute in Htr. by injection Htr as <-.
  - vm_compute. reflexivity.
  - simpl. lia.
  - simpl. lia.
Defined.


(** ** Strings: splitting, and the decimal form of integers *)

Lemma all_chars_impl (P Q : ascii → bool) s :
  (∀ c, P c = true → Q c = true) → all_chars P s = true → all_chars Q s = true.
Proof.
  intros HPQ. induction s as [|c s IH]; simpl; [done|].
  rewrite !andb_true_iff. intros [Hc Hs]. auto.
Qed.

Lemma all_chars_app P s t :
  all_chars P (s +:+ t) = all_chars P s && all_chars P t.
Proof.
  induction s as [|c s IH]; [done|].
  rewrite string_app_cons. simpl. by rewrite IH, andb_assoc.
Qed.

Lemma split_lacks sep s : lacks sep s = true → split sep s = [s].
Proof.
  unfold lacks. induction s as [|c s IH]; simpl; [done|].
  rewrite andb_true_iff, negb_true_iff. intros [-> Hs]. by rewrite IH.
Qed.

Lemma split_app sep s rest :
  lacks sep s = true →
  split sep (s +:+ String sep rest) = s :: split sep rest.
Proof.
  unfold lacks. induction s as [|c s IH].
  - intros _. rewrite string_app_nil_l. simpl. by rewrite Ascii.eqb_refl.
  - cbn [all_chars]. rewrite andb_true_iff, negb_true_iff. intros [Hc Hs].
    rewrite string_app_cons. simpl. by rewrite Hc, IH.
Qed.

Lemma split_nonempty sep s : split sep s ≠ [].
Proof.
  destruct s as [|c s]; simpl; [done|].
  destruct (Ascii.eqb c sep); [done|]. by destruct (split sep s).
Qed.

Lemma digit_is_int_char c : is_digit c = true → int_char c = true.
Proof. unfold int_char. by intros ->. Qed.

Lemma uint_digits d : all_chars is_digit (NilEmpty.string_of_uint d) = true.
Proof. induction d; simpl; by rewrite ?IHd. Qed.

Lemma uint_nonnil_string d :
  d ≠ Decimal.Nil →
  NilZero.string_of_uint d = NilEmpty.string_of_uint d
  ∧ NilEmpty.string_of_uint d ≠ "".
Proof. by destruct d. Qed.

(** [str n] is a non-empty run of digits, after ["-"] when [n] is
    negative. *)
Lemma str_shape n :
  ∃ d, all_chars is_digit (NilEmpty.string_of_uint d) = true
       ∧ NilEmpty.string_of_uint d ≠ ""
       ∧ ((str n = NilEmpty.string_of_uint d ∧ Z.of_uint d = n)
          ∨ (str n = String "-" (NilEmpty.string_of_uint d)
             ∧ (- Z.of_uint d)%Z = n)).
Proof.
  pose proof (DecimalZ.of_to n) as Hof. unfold str.
  destruct n as [|p|p]; simpl in *.
  - exists (Decimal.D0 Decimal.Nil). split_and!; [done..|]. by left.
  - exists (Pos.to_uint p).
    destruct (uint_nonnil_string _ (Unsigned.to_uint_nonnil p)) as [-> Hne].
    split_and!; [apply uint_digits|done|]. by left.
  - exists (Pos.to_uint p).
    destruct (uint_nonnil_string _ (Unsigned.to_uint_nonnil p)) as [-> Hne].
    split_and!; [apply uint_digits|done|]. by right.
Qed.

Lemma str_chars n : all_chars int_char (str n) = true.
Proof.
  destruct (str_shape n) as (d & Hd & _ & [[-> _]|[-> _]]).
  - revert Hd. apply all_chars_impl, digit_is_int_char.
  - simpl. revert Hd. apply all_chars_impl, digit_is_int_char.
Qed.

Lemma int_char_not c sep :
  int_char sep = false → int_char c = true → negb (Ascii.eqb c sep) = true.
Proof.
  intros Hsep Hc. apply negb_true_iff.
  destruct (Ascii.eqb_spec c sep) as [->|]; [congruence|done].
Qed.

Lemma str_lacks sep n : int_char sep = false → lacks sep (str n) = true.
Proof.
  intros Hsep. unfold lacks.
  apply (all_chars_impl int_char); [|apply str_chars].
  intros c. by apply int_char_not.
Qed.

Lemma rstrip_digits s : all_chars is_digit s = true → rstrip s = s.
Proof.
  induction s as [|c s IH]; simpl; [done|].
  rewrite andb_true_iff. intros [Hc Hs]. rewrite (IH Hs).
  destruct s; [|done].
  assert (is_space c = false) as ->; [|done].
  revert Hc. by destruct c as [[] [] [] [] [] [] [] []].
Qed.

Lemma digits_of_digits s b :
  all_chars is_digit s = true → (b = true ∨ s ≠ "") →
  digits_of b s = Some s.
Proof.
  revert b. induction s as [|c s IH]; simpl; intros b Hs Hb.
  - by destruct Hb as [->|].
  - apply andb_true_iff in Hs as [Hc Hs].
    assert (Ascii.eqb c "_" = false) as ->.
    { revert Hc. by destruct c as [[] [] [] [] [] [] [] []]. }
    rewrite Hc, (IH true Hs); [done|by left].
Qed.

Lemma nat_of_digits_uint d :
  all_chars is_digit (NilEmpty.string_of_uint d) = true →
  NilEmpty.string_of_uint d ≠ "" →
  nat_of_digits (NilEmpty.string_of_uint d) = Ok (Z.of_uint d).
Proof.
  intros Hd Hne. unfold nat_of_digits.
  rewrite digits_of_digits by auto. by rewrite NilEmpty.usu.
Qed.

(** [int(str(n)) == n] *)
Lemma int_str n : int (str n) = Ok n.
Proof.
  destruct (str_shape n) as (d & Hd & Hne & [[-> <-]|[-> <-]]).
  - unfold int, strip.
    destruct (NilEmpty.string_of_uint d) as [|c s] eqn:E; [done|].
    pose proof Hd as Hd'. simpl in Hd'.
    apply andb_true_iff in Hd' as [Hc Hs].
    assert (is_space c = false ∧ Ascii.eqb c "-" = false
            ∧ Ascii.eqb c "+" = false) as (Hsp & Hm & Hp).
    { revert Hc. by destruct c as [[] [] [] [] [] [] [] []]. }
    cbn [lstrip]. rewrite Hsp, (rstrip_digits _ Hd), Hm, Hp.
    rewrite <- E. apply nat_of_digits_uint; by rewrite E.
  - unfold int, strip. cbn [lstrip].
    change (is_space "-") with false. cbn iota.
    assert (rstrip (String "-" (NilEmpty.string_of_uint d))
            = String "-" (NilEmpty.string_of_uint d)) as ->.
    { cbn [rstrip]. rewrite (rstrip_digits _ Hd).
      by destruct (NilEmpty.string_of_uint d). }
    rewrite Ascii.eqb_refl, nat_of_digits_uint by done. done.
Qed.

Lemma str_inj a b : str a = str b → a = b.
Proof.
  intros H. pose proof (int_str a) as Ha. rewrite H, int_str in Ha. congruence.
Qed.


(** ** Span strings *)

Lemma colon_not_int_char : int_char ":" = false.
Proof. reflexivity. Qed.

Lemma blank_not_int_char : int_char " " = false.
Proof. reflexivity. Qed.

Lemma split_span a b : split ":" (span_of a b) = [str a; str b].
Proof.
  unfold span_of.
  change (str a +:+ ":" +:+ str b) with (str a +:+ String ":" (str b)).
  rewrite split_app by apply str_lacks, colon_not_int_char.
  by rewrite split_lacks by apply str_lacks, colon_not_int_char.
Qed.

Lemma span_of_inj a b c d : span_of a b = span_of c d → a = c ∧ b = d.
Proof.
  intros H. apply (f_equal (split ":")) in H. rewrite !split_span in H.
  injection H as Ha Hb. split; by apply str_inj.
Qed.

Lemma span_of_plain a b : plain (span_of a b) = true.
Proof.
  unfold plain, lacks, span_of. rewrite !all_chars_app.
  pose proof (str_lacks " " a blank_not_int_char) as Ha.
  pose proof (str_lacks " " b blank_not_int_char) as Hb.
  unfold lacks in Ha, Hb. by rewrite Ha, Hb.
Qed.

Lemma span_str_span_of node ise :
  span_str node ise
  = span_of (start node) (if ise then end_ node else start node).
Proof. by destruct ise. Qed.

Lemma span_str_plain node ise : plain (span_str node ise) = true.
Proof. rewrite span_str_span_of. apply span_of_plain. Qed.

(** Shifting the end of a well-formed span. *)
Lemma shift_end_span delta a b :
  shift_end delta (span_of a b) = Ok (span_of a (b + delta)).
Proof.
  unfold shift_end. rewrite split_span. simpl. by rewrite int_str.
Qed.

(** *** The spans [list_spans] reads off a triple *)

Lemma span_adds_of_keyed (key : string) span rest :
  plain span = true → plain key = true →
  span_adds_of (span +:+ " " +:+ key +:+ " " +:+ rest)
  = if bool_decide (key = "NAME") || bool_decide (key = "CARG") then [span]
    else match split " " rest with
         | field :: _ => [span; field]
         | [] => []
         end.
Proof.
  intros Hspan Hkey. unfold span_adds_of.
  change (span +:+ " " +:+ key +:+ " " +:+ rest)
    with (span +:+ String " " (key +:+ String " " rest)).
  rewrite !split_app by done.
  destruct (split " " rest) as [|field fields] eqn:E;
    [by apply split_nonempty in E|].
  cbn [length lookup list_lookup Nat.ltb Nat.leb andb].
  assert (∀ k : string, bool_decide (Some key = Some k) = bool_decide (key = k))
    as Hk.
  { intros k. apply bool_decide_ext. split; congruence. }
  rewrite !Hk. by destruct (bool_decide _ || bool_decide _).
Qed.

Lemma span_adds_of_plain t : plain t = true → span_adds_of t = [].
Proof. intros Ht. unfold span_adds_of. by rewrite split_lacks. Qed.


(** *** The spans of extracted triples *)

Lemma for_each_elem {A B} (f : A → result B) xs ys y :
  for_each f xs = Ok ys → y ∈ ys → ∃ x, x ∈ xs ∧ f x = Ok y.
Proof.
  revert ys. induction xs as [|x xs IH]; simpl; intros ys H Hy.
  - injection H as <-. by inversion Hy.
  - apply bind_Ok_inv in H as (y' & Hy' & H).
    apply bind_Ok_inv in H as (ys' & Hys & H). injection H as <-.
    apply elem_of_cons in Hy as [->|Hy].
    + exists x. split; [left|done].
    + destruct (IH _ Hys Hy) as (x' & Hx' & Hf). exists x'. split; [by right|done].
Qed.

Lemma elem_of_concat {A} (xss : list (list A)) (x : A) :
  x ∈ concat xss ↔ ∃ xs, xs ∈ xss ∧ x ∈ xs.
Proof.
  induction xss as [|ys xss IH]; simpl.
  - split; [by inversion 1|]. intros (xs & Hxs & _). by inversion Hxs.
  - rewrite elem_of_app, IH. split.
    + intros [Hx|(xs & Hxs & Hx)].
      * exists ys. split; [left|done].
      * exists xs. split; [by right|done].
    + intros (xs & Hxs & Hx). apply elem_of_cons in Hxs as [->|Hxs]; eauto.
Qed.

Lemma span_adds_app ts us : span_adds (ts ++ us) = span_adds ts ++ span_adds us.
Proof. unfold span_adds. apply flat_map_app. Qed.

Lemma index_elem {A} (xs : list A) i x : index xs i = Ok x → x ∈ xs.
Proof.
  unfold index. destruct (xs !! i) as [y|] eqn:E; [|done].
  intros [= <-]. by eapply list_elem_of_lookup_2.
Qed.

Lemma edge_ends_spans g node ise : ∀ children k node_ind ends,
  node_span g ise node_ind →
  edge_ends g node ise k children node_ind = Ok ends →
  ∀ e, e ∈ ends →
    node_span g ise e.1.1 ∧ node_span g ise e.2 ∧ e.1.2 ∈ relations node.
Proof.
  induction children as [|c children IH]; simpl; intros k node_ind ends Hind H e He.
  - injection H as <-. by inversion He.
  - apply bind_Ok_inv in H as (child_node & Hc & H).
    apply bind_Ok_inv in H as (relation & Hr & H).
    apply bind_Ok_inv in H as (rest & Hrest & H). injection H as <-.
    assert (node_span g ise (span_str child_node ise)) as Hchild.
    { exists child_node. split; [by apply index_elem in Hc|done]. }
    apply elem_of_cons in He as [->|He].
    + apply index_elem in Hr. by destruct (eq_swap relation node child_node).
    + eapply IH; [|exact Hrest|exact He].
      by destruct (eq_swap relation node child_node).
Qed.

Lemma relation_ends_spans g ise ends e :
  relation_ends g ise = Ok ends → e ∈ ends →
  node_span g ise e.1.1 ∧ node_span g ise e.2
  ∧ ∃ node, node ∈ nodes g ∧ e.1.2 ∈ relations node.
Proof.
  unfold relation_ends. intros H He.
  apply bind_Ok_inv in H as (per_node & Hper & H). injection H as <-.
  apply elem_of_concat in He as (es & Hes & He).
  destruct (for_each_elem _ _ _ _ Hper Hes) as (node & Hnode & Hends).
  destruct (edge_ends_spans g node ise _ _ _ _ ltac:(by exists node) Hends e He)
    as (H1 & H2 & H3).
  eauto.
Qed.

Lemma node_span_plain g ise s : node_span g ise s → plain s = true.
Proof. intros (node & _ & ->). apply span_str_plain. Qed.

Lemma emitted_label_plain labeled r :
  plain r = true → plain (emitted_label labeled r) = true.
Proof.
  intros Hr. unfold emitted_label. destruct labeled; [|done].
  by destruct (String.eqb r "/EQ").
Qed.

Lemma labels_plain_spec g node r :
  labels_plain g = true → node ∈ nodes g → r ∈ relations node →
  plain r = true.
Proof.
  unfold labels_plain. rewrite forallb_forall. intros H Hnode Hr.
  apply list_elem_of_In in Hnode. specialize (H node Hnode).
  rewrite forallb_forall in H. apply H. by apply list_elem_of_In.
Qed.

Lemma predicate_triples_spans g ic ise s :
  s ∈ span_adds (predicate_triples g ic ise) → node_span g ise s.
Proof.
  unfold span_adds, predicate_triples. rewrite elem_of_flat_map.
  intros (t & Ht & Hs). apply elem_of_flat_map in Ht as (node & Hnode & Ht).
  exists node. split; [done|].
  apply elem_of_cons in Ht as [->|Ht].
  - change (span_str node ise +:+ " NAME " +:+ concept node)
      with (span_str node ise +:+ " " +:+ "NAME" +:+ " " +:+ concept node) in Hs.
    rewrite span_adds_of_keyed in Hs by (done || apply span_str_plain).
    by apply list_elem_of_singleton in Hs.
  - destruct (ic && has_constant node); [|by inversion Ht].
    apply list_elem_of_singleton in Ht as ->.
    change (span_str node ise +:+ " CARG " +:+ constant node)
      with (span_str node ise +:+ " " +:+ "CARG" +:+ " " +:+ constant node) in Hs.
    rewrite span_adds_of_keyed in Hs by (done || apply span_str_plain).
    by apply list_elem_of_singleton in Hs.
Qed.

Lemma predicate_bag_spans g ic s :
  names_plain g = true → s ∈ span_adds (predicate_bag g ic) → False.
Proof.
  unfold names_plain, span_adds, predicate_bag. rewrite forallb_forall.
  intros Hplain. rewrite elem_of_flat_map.
  intros (t & Ht & Hs). apply elem_of_flat_map in Ht as (node & Hnode & Ht).
  apply list_elem_of_In in Hnode. specialize (Hplain node Hnode).
  apply andb_true_iff in Hplain as [Hc Hk].
  apply elem_of_cons in Ht as [->|Ht].
  - rewrite span_adds_of_plain in Hs by done. by inversion Hs.
  - destruct (ic && has_constant node); [|by inversion Ht].
    apply list_elem_of_singleton in Ht as ->.
    rewrite span_adds_of_plain in Hs by done. by inversion Hs.
Qed.

Lemma relation_triples_spans_labels g ise labeled ts s :
  (∀ node r, node ∈ nodes g → r ∈ relations node →
             plain (emitted_label labeled r) = true) →
  relation_triples g ise labeled = Ok ts → s ∈ span_adds ts →
  s = span_of (-1) (-1) ∨ node_span g ise s.
Proof.
  intros Hplain H Hs. rewrite relation_triples_render in H.
  apply bind_Ok_inv in H as (ends & Hends & H). injection H as <-.
  rewrite span_adds_app in Hs. apply elem_of_app in Hs as [Hs|Hs].
  - unfold span_adds in Hs. apply elem_of_flat_map in Hs as (t & Ht & Hs).
    apply top_triples_spec in Ht as (node & Hnode & _ & ->).
    change ("-1:-1 /H " +:+ span_str node ise)
      with ("-1:-1" +:+ " " +:+ "/H" +:+ " " +:+ span_str node ise) in Hs.
    rewrite span_adds_of_keyed in Hs by done.
    rewrite split_lacks in Hs by apply span_str_plain. simpl in Hs.
    apply elem_of_cons in Hs as [->|Hs]; [by left|].
    apply list_elem_of_singleton in Hs as ->. right. by exists node.
  - unfold span_adds in Hs. apply elem_of_flat_map in Hs as (t & Ht & Hs).
    apply elem_of_map in Ht as (e & -> & He).
    destruct (relation_ends_spans g ise ends e Hends He)
      as (H1 & H2 & node & Hnode & Hr).
    unfold render in Hs.
    rewrite span_adds_of_keyed in Hs.
    + rewrite split_lacks in Hs by by eapply node_span_plain.
      destruct (_ || _).
      * apply list_elem_of_singleton in Hs as ->. by right.
      * apply elem_of_cons in Hs as [->|Hs]; [by right|].
        apply list_elem_of_singleton in Hs as ->. by right.
    + by eapply node_span_plain.
    + by eapply Hplain.
Qed.

Lemma relation_triples_spans g ise labeled ts s :
  labels_plain g = true →
  relation_triples g ise labeled = Ok ts → s ∈ span_adds ts →
  s = span_of (-1) (-1) ∨ node_span g ise s.
Proof.
  intros Hplain. apply relation_triples_spans_labels.
  intros node r Hnode Hr. apply emitted_label_plain.
  by eapply labels_plain_spec.
Qed.

(** C10: with [labeled] false the relation triples are the root
    markers ["-1:-1 /H <span>"], one for every top node, and triples
    [<span> REL <span>] on node spans, an /EQ edge included (so none
    shows /EQ/U); the span pairs are those of the labeled run, which
    shows the relation, or /EQ/U for /EQ, between them; and the swap
    is applied: the first edge of a node is emitted child span first
    exactly when the graph has it as an /EQ edge whose source lies
    after its target (by start, then by end). *)
Theorem C10_unlabeled_edges_carry_REL (g : MrsGraph) (include_span_ends : bool) :
  relation_triples g include_span_ends false
  = (ends <- relation_ends g include_span_ends ;;
     Ok (top_triples g include_span_ends
         ++ map (λ e, e.1.1 +:+ " REL " +:+ e.2) ends))
  ∧ relation_triples g include_span_ends true
    = (ends <- relation_ends g include_span_ends ;;
       Ok (top_triples g include_span_ends
           ++ map (λ e, e.1.1 +:+ " "
                        +:+ (if String.eqb e.1.2 "/EQ" then "/EQ/U" else e.1.2)
                        +:+ " " +:+ e.2) ends))
  ∧ ∀ ts, relation_triples g include_span_ends false = Ok ts →
      (∀ t, t ∈ ts →
         (∃ node, node ∈ nodes g ∧ top node = true
                  ∧ t = "-1:-1 /H " +:+ span_str node include_span_ends)
         ∨ (∃ x y, node_span g include_span_ends x
                   ∧ node_span g include_span_ends y
                   ∧ t = x +:+ " REL " +:+ y))
      ∧ (∀ node, node ∈ nodes g → top node = true →
           "-1:-1 /H " +:+ span_str node include_span_ends ∈ ts)
      ∧ (∀ node child_index rest relation child_node,
           node ∈ nodes g →
           edges node = child_index :: rest →
           relations node !! 0 = Some relation →
           nodes g !! child_index = Some child_node →
           (if String.eqb relation "/EQ"
               && ((start child_node <? start node)%Z
                   || ((start node =? start child_node)%Z
                       && (end_ child_node <? end_ node)%Z))
            then span_str child_node include_span_ends
                 +:+ " REL " +:+ span_str node include_span_ends
            else span_str node include_span_ends
                 +:+ " REL " +:+ span_str child_node include_span_ends)
           ∈ ts).
Proof.
  split_and!.
  - apply relation_triples_render.
  - apply relation_triples_render.
  - intros ts Hts. split_and!.
    + intros t Ht. rewrite relation_triples_render in Hts.
      apply bind_Ok_inv in Hts as (ends & Hends & Hts). injection Hts as <-.
      apply elem_of_app in Ht as [Ht|Ht].
      * left. by apply top_triples_spec.
      * right. apply elem_of_map in Ht as (e & -> & He).
        destruct (relation_ends_spans g _ ends e Hends He) as (H1 & H2 & _).
        by exists e.1.1, e.2.
    + intros node Hnode Htop. unfold relation_triples in Hts.
      apply bind_Ok_inv in Hts as (per_node & _ & Hts). injection Hts as <-.
      apply elem_of_app. left. apply top_triples_spec. eauto.
    + intros node child_index rest relation child_node Hnode He Hr Hc.
      unfold relation_triples in Hts.
      apply bind_Ok_inv in Hts as (per_node & Hper & Hts). injection Hts as <-.
      apply elem_of_app. right.
      apply list_elem_of_lookup in Hnode as [i Hi].
      destruct (for_each_lookup _ _ _ _ _ Hper Hi) as (l & Hl & Hnode_l).
      apply elem_of_concat. exists l.
      split; [by eapply list_elem_of_lookup_2|].
      unfold node_edge_triples in Hnode_l. rewrite He in Hnode_l.
      cbn [edge_triples] in Hnode_l. unfold index in Hnode_l at 1 2.
      rewrite Hc, Hr in Hnode_l. cbn [Py.bind] in Hnode_l.
      apply bind_Ok_inv in Hnode_l as (rest_l & _ & Hnode_l).
      injection Hnode_l as <-. unfold eq_swap.
      destruct (String.eqb relation "/EQ" && _); left.
Qed.

Lemma C10_witness :
  "-1:-1 /H 5:6" ∈ ["-1:-1 /H 5:6"; "1:2 REL 5:6"]
  ∧ "1:2 REL 5:6" ∈ ["-1:-1 /H 5:6"; "1:2 REL 5:6"].
Proof.
  destruct (C10_unlabeled_edges_carry_REL graph_eq_top true) as (_ & _ & H).
  destruct (H ["-1:-1 /H 5:6"; "1:2 REL 5:6"] eq_refl) as (_ & Hmarker & Hedge).
  split.
  - apply (Hmarker (append_edge 1 "/EQ" (set_top (new_node "0" "c" 5 6))));
      [left|reflexivity].
  - apply (Hedge (append_edge 1 "/EQ" (set_top (new_node "0" "c" 5 6)))
             1 [] "/EQ" (new_node "1" "a" 1 2));
      [left|reflexivity|reflexivity|reflexivity].
Defined.

(** On a graph that keeps the triple format, every span [list_spans]
    finds in the extracted triples is the span string of a node, or the
    root marker's ["-1:-1"]. *)
Lemma extract_spans cfg g ts s :
  keeps_format cfg g = true →
  extract cfg g = Ok ts → s ∈ span_adds ts →
  s = span_of (-1) (-1) ∨ node_span g (include_span_ends cfg) s.
Proof.
  unfold keeps_format, extract, eds_triples. intros Hfmt H Hs.
  apply andb_true_iff in Hfmt as [Hrel Hpred].
  assert (∀ s, s ∈ span_adds
                 (if score_predicates cfg
                  then if include_predicate_spans cfg
                       then predicate_triples g (include_constants cfg)
                              (include_span_ends cfg)
                       else predicate_bag g (include_constants cfg)
                  else []) →
               node_span g (include_span_ends cfg) s) as Hp.
  { intros s' Hs'. destruct (score_predicates cfg); [|by inversion Hs'].
    destruct (include_predicate_spans cfg).
    - by apply predicate_triples_spans in Hs'.
    - simpl in Hpred. by apply predicate_bag_spans in Hs'. }
  destruct (score_relations cfg).
  - apply bind_Ok_inv in H as (rels & Hrels & H). injection H as <-.
    rewrite span_adds_app in Hs. apply elem_of_app in Hs as [Hs|Hs].
    + right. by apply Hp.
    + by apply (relation_triples_spans g _ _ rels s Hrel Hrels).
  - injection H as <-. right. by apply Hp.
Qed.


(** ** The reconciler on well-formed spans *)

Lemma shift_end_all delta spans :
  (∀ s, s ∈ spans → ∃ a b, s = span_of a b) →
  ∃ new_spans,
    for_each (shift_end delta) spans = Ok new_spans
    ∧ ∀ i new, new_spans !! i = Some new →
        ∃ a b, spans !! i = Some (span_of a b) ∧ new = span_of a (b + delta).
Proof.
  induction spans as [|s spans IH]; intros Hwf.
  - exists []. split; [done|]. intros i new Hi. by destruct i.
  - destruct (Hwf s ltac:(left)) as (a & b & ->).
    destruct IH as (news & Hnews & Hshift).
    { intros s' Hs'. apply Hwf. by right. }
    exists (span_of a (b + delta) :: news). split.
    + cbn [for_each]. by rewrite shift_end_span, Hnews.
    + intros [|i] new Hi; simpl in *.
      * injection Hi as <-. eauto.
      * by apply Hshift.
Qed.

Lemma replace_new_spans_none_gold gold_spans predicted_spans :
  ∀ new_spans i predicted_triples,
  (∀ j new, new_spans !! j = Some new → new ∉ gold_spans) →
  i + length new_spans ≤ length predicted_spans →
  replace_new_spans gold_spans predicted_spans i new_spans predicted_triples
  = Ok predicted_triples.
Proof.
  induction new_spans as [|new_span new_spans IH]; simpl; intros i pt Hnew Hlen;
    [done|].
  unfold index.
  destruct (lookup_lt_is_Some_2 predicted_spans i ltac:(lia)) as [old ->].
  simpl. rewrite (bool_decide_eq_false_2 (new_span ∈ gold_spans)).
  2:{ apply (Hnew 0). done. }
  rewrite andb_false_r. apply IH; [|lia].
  intros j new Hj. by apply (Hnew (S j)).
Qed.

(** When every gold span and every predicted span is a point span
    [s:s], neither pass rewrites anything. *)
Lemma reconcile_point_spans O gold_triples predicted_triples :
  (∀ s, s ∈ span_adds gold_triples → ∃ a, s = span_of a a) →
  (∀ s, s ∈ span_adds predicted_triples → ∃ a, s = span_of a a) →
  reconcile O gold_triples predicted_triples = Ok predicted_triples.
Proof.
  intros Hgold Hpred. unfold reconcile, inc_end_spans, dec_end_spans.
  assert (Hwf : ∀ s, s ∈ list_spans O predicted_triples →
                     ∃ a b, s = span_of a b).
  { intros s Hs. apply enum_elem in Hs. destruct (Hpred s Hs) as [a ->]. eauto. }
  assert (Hno : ∀ delta news,
            delta ≠ 0%Z →
            for_each (shift_end delta) (list_spans O predicted_triples) = Ok news →
            replace_new_spans (list_to_set (list_spans O gold_triples))
              (list_spans O predicted_triples) 0 news predicted_triples
            = Ok predicted_triples).
  { intros delta news Hdelta Hnews.
    destruct (shift_end_all delta _ Hwf) as (news' & Hnews' & Hshift).
    rewrite Hnews in Hnews'. injection Hnews' as <-.
    apply replace_new_spans_none_gold.
    - intros j new Hj Hin.
      destruct (Hshift j new Hj) as (a & b & Hold & ->).
      apply elem_of_list_to_set, enum_elem, Hgold in Hin as [c Hc].
      apply list_elem_of_lookup_2, enum_elem, Hpred in Hold as [d Hd].
      apply span_of_inj in Hc as [Hac Hc]. apply span_of_inj in Hd as [Had Hd].
      lia.
    - apply for_each_length in Hnews. simpl. lia. }
  destruct (shift_end_all 1 _ Hwf) as (inc & Hinc & _).
  destruct (shift_end_all (-1) _ Hwf) as (dec & Hdec & _).
  rewrite Hinc. simpl. rewrite (Hno 1%Z inc) by done. simpl.
  rewrite Hdec. simpl. by apply (Hno (-1)%Z dec).
Qed.

(** More generally: when no predicted span, shifted by one either way,
    is a gold span, neither pass rewrites anything. *)
Lemma reconcile_no_shifted_gold O gold_triples predicted_triples :
  (∀ s, s ∈ span_adds predicted_triples →
        ∃ a b, s = span_of a b
               ∧ (span_of a (b + 1) ∉ span_adds gold_triples)
               ∧ (span_of a (b + -1) ∉ span_adds gold_triples)) →
  reconcile O gold_triples predicted_triples = Ok predicted_triples.
Proof.
  intros Hpred. unfold reconcile, inc_end_spans, dec_end_spans.
  assert (Hwf : ∀ s, s ∈ list_spans O predicted_triples →
                     ∃ a b, s = span_of a b).
  { intros s Hs. apply enum_elem in Hs.
    destruct (Hpred s Hs) as (a & b & -> & _). eauto. }
  assert (Hno : ∀ delta news,
            delta = 1%Z ∨ delta = (-1)%Z →
            for_each (shift_end delta) (list_spans O predicted_triples) = Ok news →
            replace_new_spans (list_to_set (list_spans O gold_triples))
              (list_spans O predicted_triples) 0 news predicted_triples
            = Ok predicted_triples).
  { intros delta news Hdelta Hnews.
    destruct (shift_end_all delta _ Hwf) as (news' & Hnews' & Hshift).
    rewrite Hnews in Hnews'. injection Hnews' as <-.
    apply replace_new_spans_none_gold.
    - intros j new Hj Hin.
      destruct (Hshift j new Hj) as (a & b & Hold & ->).
      apply elem_of_list_to_set, enum_elem in Hin.
      apply list_elem_of_lookup_2, enum_elem, Hpred in Hold
        as (a' & b' & Heq & Hinc & Hdec).
      apply span_of_inj in Heq as [<- <-].
      destruct Hdelta as [-> | ->]; tauto.
    - apply for_each_length in Hnews. simpl. lia. }
  destruct (shift_end_all 1 _ Hwf) as (inc & Hinc & _).
  destruct (shift_end_all (-1) _ Hwf) as (dec & Hdec & _).
  rewrite Hinc. simpl. rewrite (Hno 1%Z inc) by auto. simpl.
  rewrite Hdec. simpl. apply (Hno (-1)%Z dec); auto.
Qed.

(** "Kim sleeps" against the same graph twenty characters further on:
    whatever the enumeration order, nothing is rewritten, and the loop
    ends with five gold triples, five predicted triples and no correct
    one. *)
Lemma reconcile_kim_elsewhere O :
  reconcile O triples_kim_sleeps triples_kim_elsewhere
  = Ok triples_kim_elsewhere.
Proof.
  apply reconcile_no_shifted_gold. intros s Hs.
  assert (Hcases : s = span_of 20 23 ∨ s = span_of 24 30
                   ∨ s = span_of (-1) (-1)).
  { vm_compute in Hs.
    repeat (apply elem_of_cons in Hs as [->|Hs]; [vm_compute; tauto|]).
    by apply elem_of_nil in Hs. }
  assert (Hnot : ∀ x, bool_decide (x ∈ span_adds triples_kim_sleeps) = false →
                      x ∉ span_adds triples_kim_sleeps).
  { intros x Hx. by apply bool_decide_eq_false in Hx. }
  destruct Hcases as [->|[->| ->]].
  - exists 20%Z, 23%Z. split_and!; [done| |]; apply Hnot; vm_compute; reflexivity.
  - exists 24%Z, 30%Z. split_and!; [done| |]; apply Hnot; vm_compute; reflexivity.
  - exists (-1)%Z, (-1)%Z.
    split_and!; [done| |]; apply Hnot; vm_compute; reflexivity.
Qed.

Lemma accumulate_kim_elsewhere O :
  accumulate O full_edm [(7%Z, graph_kim_sleeps)] [(7%Z, graph_kim_elsewhere)]
  = Ok {| total_gold := 5; total_predicted := 5; total_correct := 0;
          none_count := 0 |}.
Proof.
  unfold accumulate. cbn [fold_each]. unfold score_item.
  assert (item_triples full_edm [(7%Z, graph_kim_elsewhere)]
            (7%Z, graph_kim_sleeps)
          = Ok (triples_kim_sleeps, triples_kim_elsewhere, false)) as ->
    by (vm_compute; reflexivity).
  cbn [Py.bind fst snd]. rewrite reconcile_kim_elsewhere.
  vm_compute. reflexivity.
Qed.

Lemma run_reports_first_raises O gold_graphs predicted_graphs header cfg calls
  printed e :
  compute_f1 O gold_graphs predicted_graphs cfg = Err e →
  run_reports O gold_graphs predicted_graphs ((header, cfg) :: calls) printed
  = Raised printed (Some header) e.
Proof. intros H. cbn [run_reports]. by rewrite H. Qed.

(** C1, at the failing input.  The gold file holds "Kim sleeps"; the
    system file holds the same graph under the same id with every span
    twenty characters further on.  Under the Full EDM configuration,
    and whatever the enumeration order of the span sets, the loop ends
    with five gold triples, five predicted triples and no correct one:
    the run is valid, section 4.4 asks for precision, recall and F1
    equal to 0, and lines 240-242 divide by precision + recall = 0 and
    raise ZeroDivisionError. *)
Theorem C1_valid_run_without_correct_triple_raises (O : SetOrder) :
  read_corpus [rec_kim_sleeps] = Ok [(7%Z, graph_kim_sleeps)]
  ∧ read_corpus [rec_kim_elsewhere] = Ok [(7%Z, graph_kim_elsewhere)]
  ∧ accumulate O full_edm [(7%Z, graph_kim_sleeps)]
      [(7%Z, graph_kim_elsewhere)]
    = Ok {| total_gold := 5; total_predicted := 5; total_correct := 0;
            none_count := 0 |}
  ∧ (∃ sets, for_each (item_sets O full_edm [(7%Z, graph_kim_elsewhere)])
               [(7%Z, graph_kim_sleeps)] = Ok sets
             ∧ spec_total_gold sets = 5
             ∧ spec_total_predicted sets = 5
             ∧ spec_total_correct sets = 0)
  ∧ (∃ s, spec_score 5 5 0 = Ok s
          ∧ (precision s == 0)%Q ∧ (recall s == 0)%Q ∧ (f1 s == 0)%Q)
  ∧ compute_f1 O [(7%Z, graph_kim_sleeps)] [(7%Z, graph_kim_elsewhere)]
      full_edm
    = Err ZeroDivisionError
  ∧ main O args_orig [rec_kim_sleeps] [rec_kim_elsewhere]
    = Raised [] (Some "Full EDM") ZeroDivisionError.
Proof.
  pose proof (accumulate_kim_elsewhere O) as Hacc.
  assert (Hf1 : compute_f1 O [(7%Z, graph_kim_sleeps)]
                  [(7%Z, graph_kim_elsewhere)] full_edm
                = Err ZeroDivisionError).
  { unfold compute_f1. rewrite Hacc. reflexivity. }
  split_and!.
  - reflexivity.
  - reflexivity.
  - exact Hacc.
  - rewrite accumulate_spec in Hacc.
    destruct (for_each _ _) as [sets|]; [|done].
    cbn [Py.bind] in Hacc. injection Hacc as Hg Hp Hc.
    by exists sets.
  - apply score_cases_nothing_correct; lia.
  - exact Hf1.
  - unfold main. cbn [orig args_orig].
    change (read_corpus [rec_kim_sleeps]) with (Ok [(7%Z, graph_kim_sleeps)]).
    change (read_corpus [rec_kim_elsewhere])
      with (Ok [(7%Z, graph_kim_elsewhere)]).
    by apply (run_reports_first_raises O _ _ "Full EDM" full_edm).
Qed.

(** *** The same for the texts a configuration emits *)

Lemma predicate_bag_spans_emitted g ic s :
  emitted_names_plain ic g = true →
  s ∈ span_adds (predicate_bag g ic) → False.
Proof.
  unfold emitted_names_plain, span_adds, predicate_bag.
  rewrite forallb_forall.
  intros Hplain. rewrite elem_of_flat_map.
  intros (t & Ht & Hs). apply elem_of_flat_map in Ht as (node & Hnode & Ht).
  apply list_elem_of_In in Hnode. specialize (Hplain node Hnode).
  apply andb_true_iff in Hplain as [Hc Hk].
  apply elem_of_cons in Ht as [->|Ht].
  - rewrite span_adds_of_plain in Hs by done. by inversion Hs.
  - destruct ic; [|by inversion Ht]. simpl in Hk, Ht.
    destruct (has_constant node); [|by inversion Ht].
    apply list_elem_of_singleton in Ht as ->.
    rewrite span_adds_of_plain in Hs by done. by inversion Hs.
Qed.

Lemma relation_triples_spans_emitted g ise labeled ts s :
  negb labeled || labels_plain g = true →
  relation_triples g ise labeled = Ok ts → s ∈ span_adds ts →
  s = span_of (-1) (-1) ∨ node_span g ise s.
Proof.
  intros Hplain. apply relation_triples_spans_labels.
  intros node r Hnode Hr. destruct labeled; [|done].
  simpl in Hplain. apply emitted_label_plain. by eapply labels_plain_spec.
Qed.

(** On a graph whose emitted texts hold no blank, every span
    [list_spans] finds in the extracted triples is the span string of a
    node, or the root marker's ["-1:-1"]. *)
Lemma extract_spans_emitted cfg g ts s :
  emits_plain cfg g = true →
  extract cfg g = Ok ts → s ∈ span_adds ts →
  s = span_of (-1) (-1) ∨ node_span g (include_span_ends cfg) s.
Proof.
  unfold emits_plain, extract, eds_triples. intros Hfmt H Hs.
  apply andb_true_iff in Hfmt as [Hrel Hpred].
  assert (∀ s, s ∈ span_adds
                 (if score_predicates cfg
                  then if include_predicate_spans cfg
                       then predicate_triples g (include_constants cfg)
                              (include_span_ends cfg)
                       else predicate_bag g (include_constants cfg)
                  else []) →
               node_span g (include_span_ends cfg) s) as Hp.
  { intros s' Hs'. destruct (score_predicates cfg); [|by inversion Hs'].
    destruct (include_predicate_spans cfg).
    - by apply predicate_triples_spans in Hs'.
    - simpl in Hpred. by apply predicate_bag_spans_emitted in Hs'. }
  destruct (score_relations cfg).
  - apply bind_Ok_inv in H as (rels & Hrels & H). injection H as <-.
    rewrite span_adds_app in Hs. apply elem_of_app in Hs as [Hs|Hs].
    + right. by apply Hp.
    + by apply (relation_triples_spans_emitted g _ _ rels s Hrel Hrels).
  - injection H as <-. right. by apply Hp.
Qed.

Lemma extract_point_spans_emitted cfg g ts s :
  include_span_ends cfg = false → emits_plain cfg g = true →
  extract cfg g = Ok ts → s ∈ span_adds ts → ∃ a, s = span_of a a.
Proof.
  intros Hise Hfmt Hts Hs.
  destruct (extract_spans_emitted cfg g ts s Hfmt Hts Hs)
    as [->|(node & _ & ->)]; [by exists (-1)%Z|].
  rewrite Hise, span_str_span_of. eauto.
Qed.

(** C9, as amended: with [include_span_ends] false, the reconciler
    returns the predicted triples of a gold item unchanged whenever
    the texts that the configuration puts into the triples of the gold
    graph and of its predicted graph hold no blank: the relation labels
    when relations are scored with their labels, and the concepts and
    included constants when predicates are scored without spans.  All
    spans then read [s:s], a shifted span reads [s:s+1] or [s:s-1], and
    so is not among the gold spans.  A gold item without a predicted
    graph has nothing to rewrite. *)
Theorem C9_start_only_spans_not_rewritten (O : SetOrder) (cfg : config)
  (predicted_graphs : corpus) (item : Z * MrsGraph)
  (tr : list string * list string * bool) :
  include_span_ends cfg = false →
  (∀ predicted_g, corpus_get predicted_graphs item.1 = Some predicted_g →
                  emits_plain cfg item.2 = true
                  ∧ emits_plain cfg predicted_g = true) →
  item_triples cfg predicted_graphs item = Ok tr →
  reconcile O tr.1.1 tr.1.2 = Ok tr.1.2.
Proof.
  intros Hise Hfmt Htr. unfold item_triples in Htr.
  apply bind_Ok_inv in Htr as (gold & Hg & Htr).
  destruct (corpus_get predicted_graphs item.1) as [predicted_g|] eqn:Hget.
  - destruct (Hfmt predicted_g eq_refl) as [Hgold Hpred].
    apply bind_Ok_inv in Htr as (predicted & Hp & Htr). injection Htr as <-.
    simpl. apply reconcile_point_spans.
    + intros s. by apply (extract_point_spans_emitted cfg item.2).
    + intros s. by apply (extract_point_spans_emitted cfg predicted_g).
  - injection Htr as <-. simpl. apply reconcile_nil.
Qed.

(** The gold graph has the label "x 5:6", replaced by REL; the
    predicted span "5:5" is not a gold span, and neither is "5:6" nor
    "5:4". *)
Lemma C9_witness :
  reconcile last_add_order ["4:4 REL 7:7"] ["5:5 REL 7:7"]
  = Ok ["5:5 REL 7:7"].
Proof.
  apply (C9_start_only_spans_not_rewritten last_add_order
           relations_start_only_unlabeled
           [(3%Z, graph_start_five)] (3%Z, graph_blank_label)
           (["4:4 REL 7:7"], ["5:5 REL 7:7"], false)).
  - reflexivity.
  - intros predicted_g Hget. vm_compute in Hget. injection Hget as <-.
    split; reflexivity.
  - reflexivity.
Defined.

(** C9, as stated, fails: a gold relation label with a blank in it
    ("x 5:6") puts the string "5:6" among the gold spans, and the
    predicted span "5:5" is then rewritten although span ends are off. *)
Lemma C9_counterexample :
  include_span_ends relations_start_only = false
  ∧ item_triples relations_start_only [(3%Z, graph_start_five)]
      (3%Z, graph_blank_label)
    = Ok (["4:4 x 5:6 7:7"], ["5:5 ARG1 7:7"], false)
  ∧ reconcile last_add_order ["4:4 x 5:6 7:7"] ["5:5 ARG1 7:7"]
    = Ok ["5:6 ARG1 7:7"].
Proof. split_and!; reflexivity. Qed.


(** ** The spans that drive the reconciler *)

Lemma gold_spans_set O (triples : list string) :
  (list_to_set (list_spans O triples) : gset string)
  = list_to_set (span_adds triples).
Proof.
  apply set_eq. intros s. rewrite !elem_of_list_to_set. apply enum_elem.
Qed.

Lemma replace_new_spans_zip gold_spans predicted_spans :
  ∀ new_spans i predicted_triples,
  i + length new_spans ≤ length predicted_spans →
  replace_new_spans gold_spans predicted_spans i new_spans predicted_triples
  = Ok (rewrite_pass gold_spans (zip (drop i predicted_spans) new_spans)
          predicted_triples).
Proof.
  induction new_spans as [|new_span new_spans IH]; intros i pt Hlen.
  - simpl. by destruct (drop i predicted_spans).
  - simpl in Hlen. cbn [replace_new_spans]. unfold index.
    destruct (lookup_lt_is_Some_2 predicted_spans i ltac:(lia)) as [old Hold].
    rewrite Hold. cbn [Py.bind].
    rewrite IH by lia.
    rewrite (drop_S _ _ _ Hold). done.
Qed.

(** Both passes of [reconcile] pair the one list [list_spans O
    predicted_triples] with its shifted copy; the lookups
    [predicted_spans[i]] never fail. *)
Lemma reconcile_two_passes O gold_triples predicted_triples :
  reconcile O gold_triples predicted_triples
  = (inc <- inc_end_spans (list_spans O predicted_triples) ;;
     dec <- dec_end_spans (list_spans O predicted_triples) ;;
     Ok (rewrite_pass (list_to_set (span_adds gold_triples))
           (zip (list_spans O predicted_triples) dec)
           (rewrite_pass (list_to_set (span_adds gold_triples))
              (zip (list_spans O predicted_triples) inc) predicted_triples))).
Proof.
  unfold reconcile. rewrite gold_spans_set.
  unfold inc_end_spans, dec_end_spans.
  destruct (for_each (shift_end 1) _) as [inc|] eqn:Hinc; [|done].
  cbn [Py.bind].
  rewrite replace_new_spans_zip
    by (apply for_each_length in Hinc; simpl; lia).
  cbn [Py.bind]. rewrite drop_0.
  destruct (for_each (shift_end (-1)) _) as [dec|] eqn:Hdec; [|done].
  cbn [Py.bind].
  rewrite replace_new_spans_zip
    by (apply for_each_length in Hdec; simpl; lia).
  by rewrite drop_0.
Qed.

(** C4, as amended: the spans that drive both passes are one list,
    [list_spans] of the predicted triples as extracted: the distinct
    spans of those triples (no duplicate, same members as the in-order
    list of spans), in the enumeration order of the set.  The second
    pass pairs that same list with the decremented ends and rewrites
    what the first pass has left. *)
Theorem C4_spans_enumerated_once (O : SetOrder)
  (gold_triples predicted_triples : list string) :
  let spans := list_spans O predicted_triples in
  let gold_spans : gset string := list_to_set (span_adds gold_triples) in
  NoDup spans
  ∧ (∀ s, s ∈ spans ↔ s ∈ span_adds predicted_triples)
  ∧ reconcile O gold_triples predicted_triples
    = (inc <- inc_end_spans spans ;;
       dec <- dec_end_spans spans ;;
       Ok (rewrite_pass gold_spans (zip spans dec)
             (rewrite_pass gold_spans (zip spans inc) predicted_triples))).
Proof.
  intros spans gold_spans. split_and!.
  - apply enum_NoDup.
  - intros s. apply enum_elem.
  - apply reconcile_two_passes.
Qed.

(** Whatever the enumeration order, [list_spans] drops the duplicates
    that the in-order list of spans has. *)
Lemma list_spans_drops_duplicates O triples :
  ¬ NoDup (span_adds triples) → list_spans O triples ≠ span_adds triples.
Proof. intros Hdup Heq. apply Hdup. rewrite <- Heq. apply enum_NoDup. Qed.

Lemma enum_pair O x y :
  x ≠ y → enum O [x; y] = [x; y] ∨ enum O [x; y] = [y; x].
Proof.
  intros Hne. apply Permutation_length_2_inv. symmetry.
  apply NoDup_Permutation.
  - apply enum_NoDup.
  - apply NoDup_cons. split; [by apply not_elem_of_cons; split; [|inversion 1]|].
    apply NoDup_singleton.
  - intros z. apply enum_elem.
Qed.

(** C4, as stated, fails.  Two triples on one span give one driving
    span, not two; and the second pass does not see the span "3:51"
    that the first pass produced: the scorer leaves it, where passes
    recomputing their spans would turn it into the gold span "3:50". *)
Lemma C4_counterexample :
  extract predicates_only graph_same_span = Ok triples_same_span
  ∧ list_spans last_add_order triples_same_span = ["1:2"]
  ∧ span_adds triples_same_span = ["1:2"; "1:2"]
  ∧ item_triples predicates_only [(5%Z, graph_3_4_41)] (5%Z, graph_3_5_50)
    = Ok (gold_3_5_50, predicted_3_4_41, false)
  ∧ reconcile last_add_order gold_3_5_50 predicted_3_4_41
    = Ok ["3:5 NAME a"; "3:51 NAME b"]
  ∧ spec_reconcile gold_3_5_50 predicted_3_4_41
    = Ok ["3:5 NAME a"; "3:50 NAME b"].
Proof. split_and!; reflexivity. Qed.

(** Neither outcome depends on the enumeration order. *)
Lemma list_spans_same_span_any_order O :
  list_spans O triples_same_span = ["1:2"].
Proof.
  unfold list_spans. change (span_adds triples_same_span) with ["1:2"; "1:2"].
  pose proof (enum_NoDup O ["1:2"; "1:2"]) as Hnd.
  pose proof (enum_elem O ["1:2"; "1:2"]) as Hel.
  destruct (enum O ["1:2"; "1:2"]) as [|a l].
  - exfalso. assert (H : "1:2" ∈ @nil string) by (apply Hel; left).
    by inversion H.
  - assert (Hall : ∀ x, x ∈ a :: l → x = "1:2").
    { intros x Hx. apply Hel in Hx.
      apply elem_of_cons in Hx as [->|Hx]; [done|].
      by apply list_elem_of_singleton in Hx. }
    rewrite (Hall a) by left. f_equal.
    destruct l as [|b l]; [done|]. exfalso.
    apply NoDup_cons in Hnd as [Hnotin _]. apply Hnotin.
    rewrite (Hall a) by left. rewrite (Hall b) by (right; left). left.
Qed.

Lemma reconcile_3_4_41_any_order O :
  reconcile O gold_3_5_50 predicted_3_4_41 = Ok ["3:5 NAME a"; "3:51 NAME b"].
Proof.
  rewrite reconcile_two_passes. unfold list_spans.
  change (span_adds predicted_3_4_41) with ["3:4"; "3:41"].
  destruct (enum_pair O "3:4" "3:41" ltac:(done)) as [-> | ->]; reflexivity.
Qed.

Lemma reconcile_blank_label_any_order O :
  reconcile O ["4:4 x 5:6 7:7"] ["5:5 ARG1 7:7"] = Ok ["5:6 ARG1 7:7"].
Proof.
  rewrite reconcile_two_passes. unfold list_spans.
  change (span_adds ["5:5 ARG1 7:7"]) with ["5:5"; "7:7"].
  destruct (enum_pair O "5:5" "7:7" ltac:(done)) as [-> | ->]; reflexivity.
Qed.


(** ** The store: what a scorer invocation reads and writes *)

Lemma store_lookup_fresh (h : Store.store) (o : Store.obj) :
  (h ++ [o]) !! length h = Some o.
Proof. by rewrite lookup_app_r, Nat.sub_diag by lia. Qed.

Lemma store_insert_fresh (h : Store.store) (o o' : Store.obj) :
  <[length h := o']> (h ++ [o]) = h ++ [o'].
Proof.
  rewrite insert_app_r_alt by lia. by rewrite Nat.sub_diag.
Qed.

Lemma store_load_list_app h ext l items :
  Store.load_list h l = Ok items → Store.load_list (h ++ ext) l = Ok items.
Proof.
  unfold Store.load_list. destruct (h !! l) as [o|] eqn:E; [|done].
  by rewrite (lookup_app_l_Some _ _ _ _ E).
Qed.

Lemma store_load_strs_app h ext l ts :
  Store.load_strs h l = Ok ts → Store.load_strs (h ++ ext) l = Ok ts.
Proof.
  unfold Store.load_strs. intros H.
  apply bind_Ok_inv in H as (items & Hitems & H).
  by rewrite (store_load_list_app _ ext _ _ Hitems).
Qed.

Lemma store_load_node_app h ext l node :
  Store.load_node h l = Ok node → Store.load_node (h ++ ext) l = Ok node.
Proof.
  unfold Store.load_node. destruct (h !! l) as [o|] eqn:E; [|done].
  rewrite (lookup_app_l_Some _ _ _ _ E). destruct o; try done.
  intros H. apply bind_Ok_inv in H as (es & Hes & H).
  apply bind_Ok_inv in H as (es' & Hes' & H).
  apply bind_Ok_inv in H as (rs & Hrs & H).
  rewrite (store_load_list_app _ ext _ _ Hes). simpl. rewrite Hes'. simpl.
  by rewrite (store_load_strs_app _ ext _ _ Hrs).
Qed.

Lemma for_each_Ok_mono {A B} (f g : A → result B) xs ys :
  (∀ x y, f x = Ok y → g x = Ok y) →
  for_each f xs = Ok ys → for_each g xs = Ok ys.
Proof.
  intros Hfg. revert ys. induction xs as [|x xs IH]; simpl; intros ys H; [done|].
  apply bind_Ok_inv in H as (y & Hy & H).
  apply bind_Ok_inv in H as (ys' & Hys & H).
  by rewrite (Hfg _ _ Hy), (IH _ Hys).
Qed.

(** A graph that loads from a store loads unchanged from any extension
    of that store. *)
Lemma store_load_graph_app h ext l g :
  Store.load_graph h l = Ok g → Store.load_graph (h ++ ext) l = Ok g.
Proof.
  unfold Store.load_graph. destruct (h !! l) as [o|] eqn:E; [|done].
  rewrite (lookup_app_l_Some _ _ _ _ E). destruct o; try done.
  intros H. apply bind_Ok_inv in H as (ns & Hns & H).
  apply bind_Ok_inv in H as (refs & Hrefs & H).
  apply bind_Ok_inv in H as (ns' & Hns' & H).
  rewrite (store_load_list_app _ ext _ _ Hns). simpl. rewrite Hrefs. simpl.
  rewrite (for_each_Ok_mono (Store.load_node h) (Store.load_node (h ++ ext))
             refs ns'); [done| |done].
  intros ??. apply store_load_node_app.
Qed.

Lemma store_load_corpus_app h ext refs c :
  Store.load_corpus h refs = Ok c → Store.load_corpus (h ++ ext) refs = Ok c.
Proof.
  unfold Store.load_corpus. apply for_each_Ok_mono.
  intros item y H. apply bind_Ok_inv in H as (g & Hg & H).
  by rewrite (store_load_graph_app _ ext _ _ Hg).
Qed.

Lemma store_load_strs_fresh h (ts : list string) :
  Store.load_strs (h ++ [Store.OList (map Store.VStr ts)]) (length h) = Ok ts.
Proof.
  unfold Store.load_strs, Store.load_list. rewrite store_lookup_fresh. simpl.
  induction ts as [|t ts IH]; simpl; [done|]. by rewrite IH.
Qed.

Lemma store_extend_fresh h items ys :
  Store.extend (length h) ys (h ++ [Store.OList items])
  = (Ok tt, h ++ [Store.OList (items ++ map Store.VStr ys)]).
Proof.
  unfold Store.extend, Store.load_list.
  by rewrite store_lookup_fresh, store_insert_fresh.
Qed.

(** [eds_triples] on the store: the triples of the loaded graph end up
    in one new list object; nothing else changes. *)
Lemma store_extract_run cfg l h g :
  Store.load_graph h l = Ok g →
  ∃ items,
    Store.extract cfg l h
    = (match extract cfg g with Ok _ => Ok (length h) | Err e => Err e end,
       h ++ [Store.OList items])
    ∧ ∀ ts, extract cfg g = Ok ts → items = map Store.VStr ts.
Proof.
  intros Hg. unfold Store.extract, extract, Store.eds_triples, eds_triples.
  unfold Store.seq at 1, Store.alloc.
  unfold Store.seq at 1, Store.read.
  rewrite (store_load_graph_app h [Store.OList []] l g Hg).
  set (preds := if score_predicates cfg
                then if include_predicate_spans cfg
                     then predicate_triples g (include_constants cfg)
                            (include_span_ends cfg)
                     else predicate_bag g (include_constants cfg)
                else []).
  assert (Hpreds : ∀ k : unit → Store.M nat,
            Store.seq
              (if score_predicates cfg
               then if include_predicate_spans cfg
                    then Store.extend (length h)
                           (predicate_triples g (include_constants cfg)
                              (include_span_ends cfg))
                    else Store.extend (length h)
                           (predicate_bag g (include_constants cfg))
               else Store.ret tt) k (h ++ [Store.OList []])
            = k tt (h ++ [Store.OList (map Store.VStr preds)])).
  { intros k. unfold Store.seq, preds.
    destruct (score_predicates cfg); [|done].
    destruct (include_predicate_spans cfg); by rewrite store_extend_fresh. }
  rewrite Hpreds. clear Hpreds.
  destruct (score_relations cfg).
  - unfold Store.seq, Store.lift, Store.ret.
    destruct (relation_triples g _ _) as [rels|e]; simpl.
    + rewrite store_extend_fresh, <- map_app. eexists. split; [done|].
      by intros ts [= <-].
    + eexists. split; [done|]. done.
  - unfold Store.seq, Store.ret. eexists. split; [done|]. by intros ts [= <-].
Qed.


Lemma store_seq_Ok {A B} (m : Store.M A) (k : A → Store.M B) h a h' :
  m h = (Ok a, h') → Store.seq m k h = k a h'.
Proof. unfold Store.seq. by intros ->. Qed.

Lemma store_seq_Err {A B} (m : Store.M A) (k : A → Store.M B) h e h' :
  m h = (Err e, h') → Store.seq m k h = (Err e, h').
Proof. unfold Store.seq. by intros ->. Qed.

Lemma map_VStr_insert (ts : list string) j t :
  <[j := Store.VStr t]> (map Store.VStr ts) = map Store.VStr (<[j := t]> ts).
Proof.
  change (map Store.VStr) with (fmap (M := list) Store.VStr).
  by rewrite list_fmap_insert.
Qed.

Lemma map_VStr_lookup (ts : list string) j :
  map Store.VStr ts !! j = Store.VStr <$> ts !! j.
Proof.
  change (map Store.VStr) with (fmap (M := list) Store.VStr).
  by rewrite list_lookup_fmap.
Qed.

Lemma for_each_as_str (ts : list string) :
  for_each Store.as_str (map Store.VStr ts) = Ok ts.
Proof. induction ts as [|t ts IH]; simpl; [done|]. by rewrite IH. Qed.

Lemma store_load_strs_lookup h l (ts : list string) :
  h !! l = Some (Store.OList (map Store.VStr ts)) → Store.load_strs h l = Ok ts.
Proof.
  intros H. unfold Store.load_strs, Store.load_list. rewrite H. simpl.
  apply for_each_as_str.
Qed.

(** The inner loop of lines 206-207 on the store: from position [j] on,
    every triple of the list object is replaced by its rewritten form;
    no other object is written. *)
Lemma store_rewrite_triples_run l old_span new_span : ∀ n j ts h,
  h !! l = Some (Store.OList (map Store.VStr ts)) →
  j + n = length ts →
  Store.rewrite_triples l old_span new_span j n h
  = (Ok tt,
     <[l := Store.OList
              (map Store.VStr
                 (take j ts ++ map (replace old_span new_span) (drop j ts)))]> h).
Proof.
  induction n as [|n IH]; intros j ts h Hl Hlen.
  - simpl. unfold Store.ret.
    rewrite drop_ge, take_ge, app_nil_r by lia. by rewrite list_insert_id.
  - cbn [Store.rewrite_triples].
    destruct (lookup_lt_is_Some_2 ts j ltac:(lia)) as [t Ht].
    rewrite (store_seq_Ok _ _ h t h).
    2:{ unfold Store.getitem_str, Store.read, Store.load_list, index.
        rewrite Hl. simpl. by rewrite map_VStr_lookup, Ht. }
    set (ts1 := <[j := replace old_span new_span t]> ts).
    rewrite (store_seq_Ok _ _ h tt
               (<[l := Store.OList (map Store.VStr ts1)]> h)).
    2:{ unfold Store.setitem, Store.load_list. rewrite Hl.
        rewrite length_map.
        destruct (Nat.ltb_spec j (length ts)) as [_|?]; [|lia].
        by rewrite map_VStr_insert. }
    rewrite (IH (S j) ts1).
    + rewrite list_insert_insert_eq. do 3 f_equal. unfold ts1.
      rewrite (take_S_r _ _ (replace old_span new_span t)).
      2:{ by rewrite list_lookup_insert_eq by lia. }
      rewrite take_insert_ge by lia.
      rewrite drop_insert_lt by lia.
      rewrite (drop_S _ _ _ Ht). simpl. by rewrite <- app_assoc.
    + apply list_lookup_insert_eq. by eapply lookup_lt_Some.
    + unfold ts1. rewrite length_insert. lia.
Qed.

Lemma store_replace_new_spans_run gold_spans predicted_spans l :
  ∀ new_spans i ts h,
  h !! l = Some (Store.OList (map Store.VStr ts)) →
  ∃ ts',
    Store.replace_new_spans gold_spans predicted_spans l i new_spans h
    = (match replace_new_spans gold_spans predicted_spans i new_spans ts with
       | Ok _ => Ok tt
       | Err e => Err e
       end,
       <[l := Store.OList (map Store.VStr ts')]> h)
    ∧ ∀ r, replace_new_spans gold_spans predicted_spans i new_spans ts = Ok r →
           ts' = r.
Proof.
  induction new_spans as [|new_span new_spans IH]; intros i ts h Hl.
  - exists ts. simpl. unfold Store.ret. rewrite list_insert_id by done.
    split; [done|]. by intros r [= <-].
  - cbn [Store.replace_new_spans replace_new_spans].
    destruct (index predicted_spans i) as [old_span|e] eqn:Hold.
    2:{ exists ts. rewrite (store_seq_Err _ _ h e h) by done.
        rewrite list_insert_id by done. simpl. by split. }
    rewrite (store_seq_Ok _ _ h old_span h) by done. cbn [Py.bind].
    destruct (bool_decide (old_span ∉ gold_spans)
              && bool_decide (new_span ∈ gold_spans)).
    + set (ts1 := map (replace old_span new_span) ts).
      rewrite (store_seq_Ok _ _ h tt
                 (<[l := Store.OList (map Store.VStr ts1)]> h)).
      2:{ rewrite (store_seq_Ok _ _ h (map Store.VStr ts) h).
          2:{ unfold Store.read, Store.load_list. by rewrite Hl. }
          rewrite length_map.
          rewrite (store_rewrite_triples_run l old_span new_span
                     (length ts) 0 ts h Hl) by lia.
          by rewrite take_0, drop_0. }
      destruct (IH (S i) ts1 (<[l := Store.OList (map Store.VStr ts1)]> h))
        as (ts' & Hrun & Hts').
      { apply list_lookup_insert_eq. by eapply lookup_lt_Some. }
      exists ts'. rewrite Hrun, list_insert_insert_eq. by split.
    + rewrite (store_seq_Ok _ _ h tt h) by done.
      destruct (IH (S i) ts h Hl) as (ts' & Hrun & Hts').
      exists ts'. by split.
Qed.

(** The reconciler on the store writes the predicted list object and
    nothing else, and leaves in it what the list-passing reconciler
    returns. *)
Lemma store_reconcile_run O gl pl gold predicted h :
  Store.load_strs h gl = Ok gold →
  h !! pl = Some (Store.OList (map Store.VStr predicted)) →
  ∃ ts',
    Store.reconcile O gl pl h
    = (match reconcile O gold predicted with
       | Ok _ => Ok tt
       | Err e => Err e
       end,
       <[pl := Store.OList (map Store.VStr ts')]> h)
    ∧ ∀ r, reconcile O gold predicted = Ok r → ts' = r.
Proof.
  intros Hg Hp. unfold Store.reconcile, reconcile.
  rewrite (store_seq_Ok _ _ h gold h) by (unfold Store.read; by rewrite Hg).
  rewrite (store_seq_Ok _ _ h predicted h).
  2:{ unfold Store.read. by rewrite (store_load_strs_lookup _ _ _ Hp). }
  destruct (inc_end_spans (list_spans O predicted)) as [inc|e] eqn:Hinc.
  2:{ exists predicted. rewrite (store_seq_Err _ _ h e h) by done.
      rewrite list_insert_id by done. by split. }
  rewrite (store_seq_Ok _ _ h inc h) by done. cbn [Py.bind].
  destruct (store_replace_new_spans_run
              (list_to_set (list_spans O gold)) (list_spans O predicted)
              pl inc 0 predicted h Hp) as (ts1 & Hrun1 & Hts1).
  destruct (replace_new_spans _ _ 0 inc predicted) as [r1|e] eqn:Hr1.
  2:{ exists ts1. rewrite (store_seq_Err _ _ _ _ _ Hrun1). by split. }
  rewrite (store_seq_Ok _ _ _ _ _ Hrun1). cbn [Py.bind].
  rewrite (Hts1 r1 eq_refl) in *. clear Hts1 Hrun1.
  set (h1 := <[pl := Store.OList (map Store.VStr r1)]> h).
  assert (Hp1 : h1 !! pl = Some (Store.OList (map Store.VStr r1))).
  { apply list_lookup_insert_eq. by eapply lookup_lt_Some. }
  destruct (dec_end_spans (list_spans O predicted)) as [dec|e] eqn:Hdec.
  2:{ exists r1. rewrite (store_seq_Err _ _ h1 e h1) by done. by split. }
  rewrite (store_seq_Ok _ _ h1 dec h1) by done. cbn [Py.bind].
  destruct (store_replace_new_spans_run
              (list_to_set (list_spans O gold)) (list_spans O predicted)
              pl dec 0 r1 h1 Hp1) as (ts2 & Hrun2 & Hts2).
  exists ts2. rewrite Hrun2. unfold h1. rewrite list_insert_insert_eq.
  by split.
Qed.


Lemma store_corpus_get h refs c parse_id :
  Store.load_corpus h refs = Ok c →
  match Store.refs_get refs parse_id with
  | Some l => ∃ g, Store.load_graph h l = Ok g ∧ corpus_get c parse_id = Some g
  | None => corpus_get c parse_id = None
  end.
Proof.
  unfold Store.load_corpus. revert c.
  induction refs as [|[k l] refs IH]; simpl; intros c H.
  - by injection H as <-.
  - apply bind_Ok_inv in H as (item & Hitem & H).
    apply bind_Ok_inv in H as (c' & Hc' & H). injection H as <-.
    apply bind_Ok_inv in Hitem as (g & Hg & Hitem). injection Hitem as <-.
    simpl. destruct (k =? parse_id)%Z; [eauto|]. by apply IH.
Qed.

(** Lines 184-194 on the store: the two lists are new objects holding
    the triples that [item_triples] returns; the store is extended, not
    changed. *)
Lemma store_item_lists_run cfg predicted_refs predicted_graphs parse_id l g h :
  Store.load_graph h l = Ok g →
  Store.load_corpus h predicted_refs = Ok predicted_graphs →
  ∃ res ext,
    Store.item_lists cfg predicted_refs (parse_id, l) h = (res, h ++ ext)
    ∧ match item_triples cfg predicted_graphs (parse_id, g) with
      | Err e => res = Err e
      | Ok tr =>
          ∃ gl pl, res = Ok (gl, pl, tr.2)
            ∧ gl ≠ pl ∧ length h ≤ pl
            ∧ Store.load_strs (h ++ ext) gl = Ok tr.1.1
            ∧ (h ++ ext) !! pl = Some (Store.OList (map Store.VStr tr.1.2))
      end.
Proof.
  intros Hg Hc. unfold Store.item_lists, item_triples. cbn [fst snd].
  destruct (store_extract_run cfg l h g Hg) as (items & Hrun & Hitems).
  destruct (extract cfg g) as [gold|e] eqn:Hgold.
  2:{ exists (Err e), [Store.OList items].
      by rewrite (store_seq_Err _ _ _ _ _ Hrun). }
  rewrite (Hitems gold eq_refl) in Hrun. clear Hitems items.
  rewrite (store_seq_Ok _ _ _ _ _ Hrun). cbn [Py.bind].
  set (h1 := h ++ [Store.OList (map Store.VStr gold)]).
  assert (Hgl : Store.load_strs h1 (length h) = Ok gold)
    by apply store_load_strs_fresh.
  assert (Hlen1 : length h1 = S (length h)).
  { unfold h1. rewrite length_app. simpl. lia. }
  pose proof (store_corpus_get h predicted_refs predicted_graphs parse_id Hc)
    as Hget.
  destruct (Store.refs_get predicted_refs parse_id) as [pl|].
  - destruct Hget as (pg & Hpg & ->).
    destruct (store_extract_run cfg pl h1 pg
                (store_load_graph_app _ _ _ _ Hpg)) as (items & Hrun2 & Hitems).
    destruct (extract cfg pg) as [predicted|e] eqn:Hpred.
    2:{ exists (Err e), [Store.OList (map Store.VStr gold); Store.OList items].
        rewrite (store_seq_Err _ _ _ _ _ Hrun2). unfold h1.
        by rewrite <- app_assoc. }
    rewrite (Hitems predicted eq_refl) in Hrun2. clear Hitems items.
    rewrite (store_seq_Ok _ _ _ _ _ Hrun2). unfold Store.ret. cbn [Py.bind].
    exists (Ok (length h, length h1, false)),
      [Store.OList (map Store.VStr gold); Store.OList (map Store.VStr predicted)].
    replace (h ++ [Store.OList (map Store.VStr gold);
                   Store.OList (map Store.VStr predicted)])
      with (h1 ++ [Store.OList (map Store.VStr predicted)])
      by (unfold h1; by rewrite <- app_assoc).
    split; [done|]. exists (length h), (length h1). simpl.
    split_and!; [done|lia|lia| |].
    + by apply store_load_strs_app.
    + apply store_lookup_fresh.
  - rewrite Hget.
    rewrite (store_seq_Ok _ _ h1 (length h1) (h1 ++ [Store.OList []])) by done.
    destruct (score_nones cfg).
    + rewrite (store_seq_Ok _ _ _ (length h) (h1 ++ [Store.OList []])) by done.
      unfold Store.ret.
      exists (Ok (length h, length h1, true)),
        [Store.OList (map Store.VStr gold); Store.OList []].
      replace (h ++ [Store.OList (map Store.VStr gold); Store.OList []])
        with (h1 ++ [Store.OList []]) by (unfold h1; by rewrite <- app_assoc).
      split; [done|]. exists (length h), (length h1). simpl.
      split_and!; [done|lia|lia| |].
      * by apply store_load_strs_app.
      * apply store_lookup_fresh.
    + set (h2 := h1 ++ [Store.OList []]).
      rewrite (store_seq_Ok _ _ h2 (length h2) (h2 ++ [Store.OList []])) by done.
      unfold Store.ret.
      exists (Ok (length h2, length h1, true)),
        [Store.OList (map Store.VStr gold); Store.OList []; Store.OList []].
      replace (h ++ [Store.OList (map Store.VStr gold); Store.OList [];
                     Store.OList []])
        with (h2 ++ [Store.OList []])
        by (unfold h2, h1; by rewrite <- !app_assoc).
      split; [done|]. exists (length h2), (length h1). simpl.
      assert (length h2 = S (length h1))
        by (unfold h2; rewrite length_app; simpl; lia).
      split_and!; [done|lia|lia| |].
      * apply (store_load_strs_fresh h2 []).
      * apply lookup_app_l_Some. apply store_lookup_fresh.
Qed.

Lemma store_load_strs_insert_ne h gl pl o ts :
  gl ≠ pl → Store.load_strs h gl = Ok ts →
  Store.load_strs (<[pl := o]> h) gl = Ok ts.
Proof.
  intros Hne. unfold Store.load_strs, Store.load_list.
  by rewrite list_lookup_insert_ne.
Qed.

(** Lines 199-233 on the store: only the predicted list object is
    written, and the counters grow as in the list-passing scorer. *)
Lemma store_score_lists_run O t gl pl missing gold predicted h :
  gl ≠ pl →
  Store.load_strs h gl = Ok gold →
  h !! pl = Some (Store.OList (map Store.VStr predicted)) →
  ∃ ts',
    Store.score_lists O t (gl, pl, missing) h
    = (predicted_triples <- reconcile O gold predicted ;;
       Ok {| total_gold := total_gold t + size (list_to_set gold : gset string);
             total_predicted :=
               total_predicted t
               + size (list_to_set predicted_triples : gset string);
             total_correct :=
               total_correct t
               + size ((list_to_set gold : gset string)
                       ∩ list_to_set predicted_triples);
             none_count := if missing then S (none_count t) else none_count t |},
       <[pl := Store.OList (map Store.VStr ts')]> h).
Proof.
  intros Hne Hg Hp. unfold Store.score_lists. cbn [fst snd].
  destruct (store_reconcile_run O gl pl gold predicted h Hg Hp)
    as (ts' & Hrun & Hts').
  exists ts'.
  destruct (reconcile O gold predicted) as [r|e].
  2:{ by rewrite (store_seq_Err _ _ _ _ _ Hrun). }
  rewrite (Hts' r eq_refl) in *. clear Hts'.
  rewrite (store_seq_Ok _ _ _ _ _ Hrun).
  set (h1 := <[pl := Store.OList (map Store.VStr r)]> h).
  rewrite (store_seq_Ok _ _ h1 gold h1).
  2:{ unfold Store.read, h1.
      by rewrite (store_load_strs_insert_ne h gl pl _ gold). }
  rewrite (store_seq_Ok _ _ h1 r h1).
  2:{ unfold Store.read. rewrite (store_load_strs_lookup h1 pl r); [done|].
      apply list_lookup_insert_eq. by eapply lookup_lt_Some. }
  done.
Qed.

(** One turn of the loop on the store. *)
Lemma store_score_item_run O cfg predicted_refs predicted_graphs t parse_id l g h :
  Store.load_graph h l = Ok g →
  Store.load_corpus h predicted_refs = Ok predicted_graphs →
  ∃ ext,
    Store.score_item O cfg predicted_refs t (parse_id, l) h
    = (score_item O cfg predicted_graphs t (parse_id, g), h ++ ext).
Proof.
  intros Hg Hc. unfold Store.score_item, score_item.
  destruct (store_item_lists_run cfg predicted_refs predicted_graphs parse_id
              l g h Hg Hc) as (res & ext & Hrun & Hres).
  destruct (item_triples cfg predicted_graphs (parse_id, g)) as [tr|e].
  2:{ subst res. exists ext. by rewrite (store_seq_Err _ _ _ _ _ Hrun). }
  destruct Hres as (gl & pl & -> & Hne & Hfresh & Hgl & Hpl).
  rewrite (store_seq_Ok _ _ _ _ _ Hrun). cbn [Py.bind].
  destruct (store_score_lists_run O t gl pl tr.2 tr.1.1 tr.1.2 (h ++ ext)
              Hne Hgl Hpl) as (ts' & ->).
  exists (<[pl - length h := Store.OList (map Store.VStr ts')]> ext).
  by rewrite insert_app_r_alt by lia.
Qed.

Lemma store_accumulate_run O cfg predicted_refs predicted_graphs :
  ∀ gold_refs gold_graphs t h,
  Store.load_corpus h gold_refs = Ok gold_graphs →
  Store.load_corpus h predicted_refs = Ok predicted_graphs →
  ∃ ext,
    Store.accumulate_from O cfg predicted_refs t gold_refs h
    = (fold_each (score_item O cfg predicted_graphs) t gold_graphs, h ++ ext).
Proof.
  induction gold_refs as [|[parse_id l] gold_refs IH];
    intros gold_graphs t h Hgold Hpred.
  - injection Hgold as <-. exists []. simpl. unfold Store.ret.
    by rewrite app_nil_r.
  - unfold Store.load_corpus in Hgold. cbn [for_each] in Hgold.
    apply bind_Ok_inv in Hgold as (item & Hitem & Hgold).
    apply bind_Ok_inv in Hgold as (gold' & Hgold' & Hgold).
    injection Hgold as <-.
    apply bind_Ok_inv in Hitem as (g & Hg & Hitem). injection Hitem as <-.
    cbn [Store.accumulate_from fold_each fst snd] in *.
    destruct (store_score_item_run O cfg predicted_refs predicted_graphs t
                parse_id l g h Hg Hpred) as (ext & Hrun).
    destruct (score_item O cfg predicted_graphs t (parse_id, g)) as [t'|e].
    2:{ exists ext. by rewrite (store_seq_Err _ _ _ _ _ Hrun). }
    rewrite (store_seq_Ok _ _ _ _ _ Hrun). cbn [Py.bind].
    destruct (IH gold' t' (h ++ ext)) as (ext' & ->).
    + by apply store_load_corpus_app.
    + by apply store_load_corpus_app.
    + exists (ext ++ ext'). by rewrite app_assoc.
Qed.

Lemma store_compute_f1_run O cfg gold_refs predicted_refs gold_graphs
  predicted_graphs h :
  Store.load_corpus h gold_refs = Ok gold_graphs →
  Store.load_corpus h predicted_refs = Ok predicted_graphs →
  ∃ ext,
    Store.compute_f1 O gold_refs predicted_refs cfg h
    = (compute_f1 O gold_graphs predicted_graphs cfg, h ++ ext).
Proof.
  intros Hgold Hpred. unfold Store.compute_f1, compute_f1, accumulate.
  destruct (store_accumulate_run O cfg predicted_refs predicted_graphs
              gold_refs gold_graphs
              {| total_gold := 0; total_predicted := 0; total_correct := 0;
                 none_count := 0 |} h Hgold Hpred) as (ext & Hrun).
  exists ext. destruct (fold_each _ _ gold_graphs) as [t|e].
  - by rewrite (store_seq_Ok _ _ _ _ _ Hrun).
  - by rewrite (store_seq_Err _ _ _ _ _ Hrun).
Qed.

Lemma store_invocations_run O gold_refs predicted_refs gold_graphs
  predicted_graphs : ∀ cfgs h,
  Store.load_corpus h gold_refs = Ok gold_graphs →
  Store.load_corpus h predicted_refs = Ok predicted_graphs →
  ∃ ext,
    Store.invocations O gold_refs predicted_refs cfgs h
    = (map (compute_f1 O gold_graphs predicted_graphs) cfgs, h ++ ext).
Proof.
  induction cfgs as [|cfg cfgs IH]; intros h Hgold Hpred.
  - exists []. simpl. by rewrite app_nil_r.
  - cbn [Store.invocations map].
    destruct (store_compute_f1_run O cfg gold_refs predicted_refs gold_graphs
                predicted_graphs h Hgold Hpred) as (ext & ->).
    cbn [fst snd].
    destruct (IH (h ++ ext)) as (ext' & ->).
    + by apply store_load_corpus_app.
    + by apply store_load_corpus_app.
    + exists (ext ++ ext'). by rewrite app_assoc.
Qed.


(** C8: any sequence of scorer invocations on two corpora whose graphs
    load from the store leaves every object that was in the store as
    it was (the invocations only add list objects and write into those),
    so every graph loads again with the same nodes, spans, concepts,
    constants, top flags and edges; and each invocation returns what
    the scorer returns on the graphs as they were before the first
    one. *)
Theorem C8_invocations_leave_graphs_unchanged (O : SetOrder)
  (gold_refs predicted_refs : Store.graph_refs)
  (gold_graphs predicted_graphs : corpus) (cfgs : list config)
  (h : list Store.obj) :
  Store.load_corpus h gold_refs = Ok gold_graphs →
  Store.load_corpus h predicted_refs = Ok predicted_graphs →
  ∃ ext,
    (Store.invocations O gold_refs predicted_refs cfgs h).2 = h ++ ext
    ∧ (∀ l, l < length h → (h ++ ext) !! l = h !! l)
    ∧ (∀ l g, Store.load_graph h l = Ok g →
              Store.load_graph (h ++ ext) l = Ok g)
    ∧ (Store.invocations O gold_refs predicted_refs cfgs h).1
      = map (compute_f1 O gold_graphs predicted_graphs) cfgs.
Proof.
  intros Hgold Hpred.
  destruct (store_invocations_run O gold_refs predicted_refs gold_graphs
              predicted_graphs cfgs h Hgold Hpred) as (ext & ->).
  exists ext. split_and!; [done| | |done].
  - intros l Hl. by apply lookup_app_l.
  - intros l g. apply store_load_graph_app.
Qed.

Lemma C8_witness :
  ∃ ext,
    (Store.invocations last_add_order [(7%Z, 7)] [(7%Z, 7)]
       [full_edm; relations_start_only] store_kim_sleeps).2
    = store_kim_sleeps ++ ext
    ∧ (∀ l, l < length store_kim_sleeps →
            (store_kim_sleeps ++ ext) !! l = store_kim_sleeps !! l)
    ∧ (∀ l g, Store.load_graph store_kim_sleeps l = Ok g →
              Store.load_graph (store_kim_sleeps ++ ext) l = Ok g)
    ∧ (Store.invocations last_add_order [(7%Z, 7)] [(7%Z, 7)]
         [full_edm; relations_start_only] store_kim_sleeps).1
      = map (compute_f1 last_add_order [(7%Z, graph_kim_sleeps)]
               [(7%Z, graph_kim_sleeps)])
          [full_edm; relations_start_only].
Proof.
  apply (C8_invocations_leave_graphs_unchanged last_add_order
           [(7%Z, 7)] [(7%Z, 7)] [(7%Z, graph_kim_sleeps)]
           [(7%Z, graph_kim_sleeps)] [full_edm; relations_start_only]
           store_kim_sleeps).
  - reflexivity.
  - reflexivity.
Defined.

Example store_run_kim_sleeps :
  Store.compute_f1 last_add_order [(7%Z, 7)] [(7%Z, 7)] full_edm
    store_kim_sleeps
  = (Ok {| precision := 5 # 5; recall := 5 # 5; f1 := 1250 # 1250 |},
     store_kim_sleeps
     ++ [ Store.OList
            [ Store.VStr "0:3 NAME named";
              Store.VStr ("0:3 CARG " +:+ String quote "Kim" +:+ String quote "");
              Store.VStr "4:10 NAME _sleep_v_1";
              Store.VStr "-1:-1 /H 4:10";
              Store.VStr "4:10 ARG1/NEQ 0:3" ];
          Store.OList
            [ Store.VStr "0:3 NAME named";
              Store.VStr ("0:3 CARG " +:+ String quote "Kim" +:+ String quote "");
              Store.VStr "4:10 NAME _sleep_v_1";
              Store.VStr "-1:-1 /H 4:10";
              Store.VStr "4:10 ARG1/NEQ 0:3" ] ]).
Proof. vm_compute. reflexivity. Qed.


(** ** The scorer returns on corpora that keep the triple format *)

Lemma reconcile_total O gold_triples predicted_triples :
  (∀ s, s ∈ span_adds predicted_triples → ∃ a b, s = span_of a b) →
  is_ok (reconcile O gold_triples predicted_triples) = true.
Proof.
  intros Hwf. rewrite reconcile_two_passes.
  assert (Hspans : ∀ s, s ∈ list_spans O predicted_triples →
                        ∃ a b, s = span_of a b).
  { intros s Hs. apply Hwf. by apply enum_elem in Hs. }
  unfold inc_end_spans, dec_end_spans.
  destruct (shift_end_all 1 _ Hspans) as (inc & -> & _).
  by destruct (shift_end_all (-1) _ Hspans) as (dec & -> & _).
Qed.

Lemma extract_well_formed_spans cfg g ts s :
  keeps_format cfg g = true → extract cfg g = Ok ts →
  s ∈ span_adds ts → ∃ a b, s = span_of a b.
Proof.
  intros Hfmt Hts Hs.
  destruct (extract_spans cfg g ts s Hfmt Hts Hs) as [->|(node & _ & ->)];
    [eauto|].
  rewrite span_str_span_of. eauto.
Qed.

Lemma corpus_get_elem (c : corpus) parse_id g :
  corpus_get c parse_id = Some g → (parse_id, g) ∈ c.
Proof.
  induction c as [|[k g'] c IH]; simpl; [done|].
  destruct (Z.eqb_spec k parse_id) as [->|_].
  - intros [= ->]. left.
  - intros H. right. auto.
Qed.

Lemma fold_each_total {A S} (f : S → A → result S) xs :
  (∀ s x, x ∈ xs → is_ok (f s x) = true) →
  ∀ s, is_ok (fold_each f s xs) = true.
Proof.
  induction xs as [|x xs IH]; intros Hf s; [done|].
  simpl. pose proof (Hf s x ltac:(left)) as Hx.
  destruct (f s x) as [s'|]; [|done]. simpl. apply IH.
  intros s1 y Hy. apply Hf. by right.
Qed.

(** On corpora whose graphs satisfy the graph invariant and keep the
    triple format, the loop over the gold items runs to its end. *)
Lemma accumulate_total O cfg gold_graphs predicted_graphs :
  wf_corpus gold_graphs → wf_corpus predicted_graphs →
  (∀ item, item ∈ gold_graphs → keeps_format cfg item.2 = true) →
  (∀ item, item ∈ predicted_graphs → keeps_format cfg item.2 = true) →
  is_ok (accumulate O cfg gold_graphs predicted_graphs) = true.
Proof.
  intros Hwfg Hwfp Hfg Hfp. unfold accumulate. apply fold_each_total.
  intros t item Hitem. unfold score_item, item_triples.
  pose proof (proj1 (Forall_forall _ _) Hwfg item Hitem) as Hwf.
  pose proof (extract_total cfg item.2 Hwf) as Hok.
  destruct (extract cfg item.2) as [gold|] eqn:Hgold; [|done]. simpl.
  destruct (corpus_get predicted_graphs item.1) as [pg|] eqn:Hget.
  - apply corpus_get_elem in Hget.
    pose proof (proj1 (Forall_forall _ _) Hwfp _ Hget) as Hwf'.
    pose proof (extract_total cfg pg Hwf') as Hok'. simpl in Hok'.
    destruct (extract cfg pg) as [predicted|] eqn:Hpred; [|done]. simpl.
    pose proof (reconcile_total O gold predicted) as Hrec.
    destruct (reconcile O gold predicted); [done|]. apply Hrec.
    intros s. apply (extract_well_formed_spans cfg pg); [|done].
    by apply (Hfp _ Hget).
  - simpl. by rewrite reconcile_nil.
Qed.


(** * Further properties *)

(** ** The parser, field by field *)

Lemma parse_node_fields st rec st' :
  parse_node st rec = Ok st' →
  ∃ node, st'.1 = st.1 ++ [node] ∧ node_of_record rec node
          ∧ edges node = [] ∧ relations node = [].
Proof.
  unfold parse_node, node_of_record. intros H.
  apply bind_Ok_inv in H as (node & Hnode & H). injection H as <-. simpl.
  destruct (prop_constant rec) as [const|].
  - apply bind_Ok_inv in Hnode as (c & Hc & Hnode). injection Hnode as <-.
    destruct (node_top rec) as [[]|]; eexists; (split; [done|]);
      by rewrite ?bool_decide_eq_true_2, ?bool_decide_eq_false_2 by done.
  - injection Hnode as <-.
    destruct (node_top rec) as [[]|]; eexists; (split; [done|]);
      by rewrite ?bool_decide_eq_true_2, ?bool_decide_eq_false_2 by done.
Qed.

Lemma parse_nodes_fields recs : ∀ st st',
  fold_each parse_node st recs = Ok st' →
  ∃ new, st'.1 = st.1 ++ new
         ∧ Forall2 (λ rec node, node_of_record rec node
                                ∧ edges node = [] ∧ relations node = [])
             recs new.
Proof.
  induction recs as [|rec recs IH]; simpl; intros st st' H.
  - injection H as <-. exists []. by rewrite app_nil_r.
  - apply bind_Ok_inv in H as (st1 & H1 & H).
    destruct (parse_node_fields _ _ _ H1) as (node & Hst1 & Hnode).
    destruct (IH _ _ H) as (new & Hst' & Hnew).
    exists (node :: new). split; [|by constructor].
    by rewrite Hst', Hst1, <- app_assoc.
Qed.

Lemma parse_nodes_index_other recs k : ∀ st st',
  fold_each parse_node st recs = Ok st' →
  (∀ rec, rec ∈ recs → (id rec - 1)%Z ≠ k) →
  st'.2 !! k = st.2 !! k.
Proof.
  induction recs as [|rec recs IH]; simpl; intros st st' H Hk.
  - by injection H as <-.
  - apply bind_Ok_inv in H as (st1 & H1 & H).
    rewrite (IH _ _ H) by (intros r Hr; apply Hk; by right).
    apply parse_node_index in H1 as [-> _].
    apply lookup_insert_ne, Hk. left.
Qed.

(** With pairwise distinct ids, the index sends the id of the record at
    position [j] to the node at position [j]. *)
Lemma parse_nodes_positions recs : ∀ st st',
  fold_each parse_node st recs = Ok st' →
  NoDup (map id recs) →
  ∀ j rec, recs !! j = Some rec →
           st'.2 !! (id rec - 1)%Z = Some (length st.1 + j).
Proof.
  induction recs as [|r recs IH]; simpl; intros st st' H Hnd j rec Hj; [done|].
  apply bind_Ok_inv in H as (st1 & H1 & H).
  apply NoDup_cons in Hnd as [Hr Hnd].
  pose proof (parse_node_index _ _ _ H1) as [Hidx Hlen].
  destruct j as [|j]; simpl in Hj.
  - injection Hj as ->.
    rewrite (parse_nodes_index_other recs _ _ _ H).
    + rewrite Hidx, lookup_insert_eq. f_equal. lia.
    + intros r' Hr' Heq. apply Hr. apply elem_of_map. exists r'.
      split; [lia|done].
  - rewrite (IH _ _ H Hnd j rec Hj). f_equal. lia.
Qed.

(** Whatever the ids, a position the index holds is the position of a
    record with that id. *)
Lemma parse_nodes_index_sound recs : ∀ st st',
  fold_each parse_node st recs = Ok st' →
  ∀ k v, st'.2 !! k = Some v →
    st.2 !! k = Some v
    ∨ ∃ rec, length st.1 ≤ v ∧ recs !! (v - length st.1) = Some rec
             ∧ (id rec - 1)%Z = k.
Proof.
  induction recs as [|r recs IH]; simpl; intros st st' H k v Hv.
  - injection H as <-. by left.
  - apply bind_Ok_inv in H as (st1 & H1 & H).
    pose proof (parse_node_index _ _ _ H1) as [Hidx Hlen].
    destruct (IH _ _ H k v Hv) as [Hv1|(rec & Hle & Hrec & Hk)].
    + rewrite Hidx in Hv1.
      destruct (decide ((id r - 1)%Z = k)) as [Heq|Hne].
      * rewrite Heq, lookup_insert_eq in Hv1. injection Hv1 as <-.
        right. exists r. rewrite Nat.sub_diag. by split_and!.
      * rewrite lookup_insert_ne in Hv1 by done. by left.
    + right. exists rec. split_and!; [lia| |done].
      replace (v - length st.1) with (S (v - length st1.1)) by lia. done.
Qed.

(** *** The second loop as a function *)

Lemma append_edges_lists nodes_index es : ∀ node,
  edges (append_edges nodes_index es node)
  = edges node
    ++ map (λ e, default 0 (nodes_index !! (target e - 1)%Z)) es
  ∧ relations (append_edges nodes_index es node)
    = relations node ++ map label es
  ∧ name (append_edges nodes_index es node) = name node
  ∧ concept (append_edges nodes_index es node) = concept node
  ∧ start (append_edges nodes_index es node) = start node
  ∧ end_ (append_edges nodes_index es node) = end_ node
  ∧ constant (append_edges nodes_index es node) = constant node
  ∧ top (append_edges nodes_index es node) = top node.
Proof.
  unfold append_edges.
  induction es as [|e es IH]; intros node; simpl.
  - by rewrite !app_nil_r.
  - destruct (IH (append_edge (default 0 (nodes_index !! (target e - 1)%Z))
                    (label e) node))
      as (-> & -> & -> & -> & -> & -> & -> & ->).
    simpl. by rewrite <- !app_assoc.
Qed.

Lemma add_edge_loop nodes_index parent_ind es : ∀ nodes nodes',
  fold_each (add_edge nodes_index parent_ind) nodes es = Ok nodes' →
  nodes' = alter (append_edges nodes_index es) parent_ind nodes
  ∧ ∀ e, e ∈ es → is_Some (nodes_index !! (target e - 1)%Z).
Proof.
  induction es as [|e es IH]; simpl; intros nodes nodes' H.
  - injection H as <-. split; [|by inversion 1].
    symmetry. by apply list_alter_id.
  - apply bind_Ok_inv in H as (nodes1 & H1 & H).
    unfold add_edge, getitem in H1.
    destruct (nodes_index !! (target e - 1)%Z) as [c|] eqn:Hc; [|done].
    simpl in H1. apply bind_Ok_inv in H1 as (? & _ & H1). injection H1 as <-.
    destruct (IH _ _ H) as [-> Hes]. split.
    + rewrite list_alter_alter_eq. apply list_alter_ext; [|done].
      intros node _. unfold append_edges. simpl. by rewrite Hc.
    + intros e' He'. apply elem_of_cons in He' as [->|He']; [by rewrite Hc|auto].
Qed.

Lemma add_edges_step nodes_index nodes rec nodes' :
  add_edges nodes_index nodes rec = Ok nodes' →
  ∃ parent_ind,
    nodes_index !! (id rec - 1)%Z = Some parent_ind
    ∧ nodes' = alter (append_edges nodes_index (edges_of rec)) parent_ind nodes
    ∧ ∀ e, e ∈ edges_of rec → is_Some (nodes_index !! (target e - 1)%Z).
Proof.
  unfold add_edges, getitem, edges_of. intros H.
  destruct (nodes_index !! (id rec - 1)%Z) as [p|]; [|done].
  exists p. split; [done|]. simpl in H.
  destruct (node_edges rec) as [es|]; simpl.
  - by apply add_edge_loop.
  - injection H as <-. split; [|by inversion 1].
    symmetry. by apply list_alter_id.
Qed.

(** When the records starting at position [off] are indexed at their
    own positions, the second loop appends to every node the edges of
    its own record and of no other. *)
Lemma add_all_edges_lookup nodes_index recs : ∀ off nodes nodes',
  fold_each (add_edges nodes_index) nodes recs = Ok nodes' →
  (∀ j rec, recs !! j = Some rec →
            nodes_index !! (id rec - 1)%Z = Some (off + j)) →
  ∀ q node, nodes !! q = Some node →
    nodes' !! q
    = Some (if decide (off ≤ q)
            then match recs !! (q - off) with
                 | Some rec => append_edges nodes_index (edges_of rec) node
                 | None => node
                 end
            else node).
Proof.
  induction recs as [|r recs IH]; simpl; intros off nodes nodes' H Hpos q node Hq.
  - injection H as <-. rewrite Hq. by case_decide.
  - apply bind_Ok_inv in H as (nodes1 & H1 & H).
    destruct (add_edges_step _ _ _ _ H1) as (p & Hp & -> & _).
    rewrite (Hpos 0 r eq_refl) in Hp. injection Hp as <-.
    rewrite Nat.add_0_r in *.
    destruct (decide (q = off)) as [->|Hne].
    + rewrite (IH (S off) _ _ H) with (node := append_edges nodes_index (edges_of r) node).
      * rewrite decide_False by lia. rewrite decide_True by lia.
        by rewrite Nat.sub_diag.
      * intros j rec Hj. rewrite (Hpos (S j) rec Hj). f_equal. lia.
      * rewrite list_lookup_alter_eq, Hq. done.
    + rewrite (IH (S off) _ _ H) with (node := node).
      * case_decide; case_decide; try lia; [|done].
        replace (q - off) with (S (q - S off)) by lia. done.
      * intros j rec Hj. rewrite (Hpos (S j) rec Hj). f_equal. lia.
      * by rewrite list_lookup_alter_ne.
Qed.

Lemma add_all_edges_resolved nodes_index recs : ∀ nodes nodes',
  fold_each (add_edges nodes_index) nodes recs = Ok nodes' →
  ∀ rec e, rec ∈ recs → e ∈ edges_of rec →
           is_Some (nodes_index !! (target e - 1)%Z).
Proof.
  induction recs as [|r recs IH]; simpl; intros nodes nodes' H rec e Hrec He;
    [by inversion Hrec|].
  apply bind_Ok_inv in H as (nodes1 & H1 & H).
  destruct (add_edges_step _ _ _ _ H1) as (p & _ & _ & Hres).
  apply elem_of_cons in Hrec as [->|Hrec]; eauto.
Qed.


Lemma add_all_edges_fields nodes_index recs' (P : MrsNode → Prop) :
  (∀ es node, P node → P (append_edges nodes_index es node)) →
  ∀ nodes nodes',
  fold_each (add_edges nodes_index) nodes recs' = Ok nodes' →
  ∀ q node', nodes' !! q = Some node' →
             ∃ node, nodes !! q = Some node ∧ (P node → P node').
Proof.
  intros HP. induction recs' as [|r recs' IH]; simpl; intros nodes nodes' H q node' Hq.
  - injection H as <-. eauto.
  - apply bind_Ok_inv in H as (nodes1 & H1 & H).
    destruct (IH _ _ H q node' Hq) as (node1 & Hq1 & HP1).
    destruct (add_edges_step _ _ _ _ H1) as (p & _ & -> & _).
    destruct (decide (p = q)) as [->|Hne].
    + rewrite list_lookup_alter_eq in Hq1.
      destruct (nodes !! q) as [node|]; [|done]. injection Hq1 as <-.
      exists node. split; [done|]. auto.
    + rewrite list_lookup_alter_ne in Hq1 by done. eauto.
Qed.

Lemma node_of_record_append_edges nodes_index es rec node :
  node_of_record rec node →
  node_of_record rec (append_edges nodes_index es node).
Proof.
  unfold node_of_record.
  destruct (append_edges_lists nodes_index es node)
    as (_ & _ & -> & -> & -> & -> & -> & ->).
  done.
Qed.

(** X1: a graph that the parser returns satisfies the graph invariant:
    every child index is a position of the node list, and every node
    has as many relation labels as edges. *)
Theorem X1_parsed_graph_invariant (mrs : mrs_rec) (g : MrsGraph) :
  parse_orig_json_line mrs = Ok g → wf_graph g.
Proof. apply parse_orig_json_line_wf. Qed.

Lemma X1_witness : wf_graph graph_two_eq.
Proof. apply (X1_parsed_graph_invariant rec_two_eq). reflexivity. Defined.

Lemma parse_orig_json_line_fields (mrs : mrs_rec) (g : MrsGraph) :
  parse_orig_json_line mrs = Ok g →
  parse_id g = mrs_id mrs
  ∧ Forall2 node_of_record (mrs_nodes mrs) (nodes g).
Proof.
  unfold parse_orig_json_line. intros H.
  apply bind_Ok_inv in H as (st & Hst & H).
  apply bind_Ok_inv in H as (ns & Hns & H). injection H as <-. simpl.
  split; [done|].
  destruct (parse_nodes_fields _ _ _ Hst) as (new & Hnew & Hall).
  simpl in Hnew. rewrite Hnew in Hns.
  assert (Hlen : length ns = length new).
  { destruct (parse_nodes_shape _ _ _ Hst) as (_ & Hidx & _).
    eapply (add_all_edges_wf st.2 (length st.1)); [|exact Hns|].
    - intros k v Hv. apply Hidx in Hv as [Hv|Hv]; [|done].
      simpl in Hv. by rewrite lookup_empty in Hv.
    - apply Forall_forall. intros node Hnode.
      apply list_elem_of_lookup in Hnode as [i Hi].
      destruct (Forall2_lookup_r _ _ _ _ _ Hall Hi) as (rec & _ & _ & He & Hr).
      unfold wf_node. rewrite He, Hr. split; [done|constructor]. }
  apply Forall2_same_length_lookup. split.
  - rewrite Hlen. by eapply Forall2_length.
  - intros i rec node' Hrec Hnode'.
    destruct (add_all_edges_fields st.2 (mrs_nodes mrs) (node_of_record rec)
                (λ es node, node_of_record_append_edges st.2 es rec node)
                _ _ Hns i node' Hnode') as (node & Hnode & Himp).
    apply Himp.
    destruct (Forall2_lookup_lr _ _ _ _ _ _ Hall Hrec Hnode) as [? _]. done.
Qed.

(** X2: the parser returns one node per node record, in record order;
    the node carries the record's predicate, start and end, the name
    [str(id - 1)], the top flag when the record's is true, and the
    constant in its canonical form (the empty string when the record
    has none); the graph carries the record's id. *)
Theorem X2_parsed_nodes_follow_records (mrs : mrs_rec) (g : MrsGraph) :
  parse_orig_json_line mrs = Ok g →
  parse_id g = mrs_id mrs
  ∧ Forall2 node_of_record (mrs_nodes mrs) (nodes g).
Proof. apply parse_orig_json_line_fields. Qed.

Lemma X2_witness :
  parse_id graph_kim_sleeps = mrs_id rec_kim_sleeps
  ∧ Forall2 node_of_record (mrs_nodes rec_kim_sleeps) (nodes graph_kim_sleeps).
Proof.
  apply (X2_parsed_nodes_follow_records rec_kim_sleeps). reflexivity.
Defined.

(** X3: when the node records have pairwise distinct ids, the node at
    each position has exactly the edges of the record at that
    position, in order: the relation labels are the edge labels, and
    every child index is the position of the record whose id is the
    edge's target. *)
Theorem X3_parsed_edges_resolve_targets (mrs : mrs_rec) (g : MrsGraph) :
  parse_orig_json_line mrs = Ok g →
  NoDup (map id (mrs_nodes mrs)) →
  Forall2 (λ rec node,
             relations node = map label (edges_of rec)
             ∧ Forall2 (λ e child_index,
                          ∃ rec', mrs_nodes mrs !! child_index = Some rec'
                                  ∧ id rec' = target e)
                 (edges_of rec) (edges node))
    (mrs_nodes mrs) (nodes g).
Proof.
  intros H Hnd.
  pose proof (parse_orig_json_line_fields mrs g H) as [_ Hfields].
  unfold parse_orig_json_line in H.
  apply bind_Ok_inv in H as (st & Hst & H).
  apply bind_Ok_inv in H as (ns & Hns & H). injection H as <-.
  simpl in *.
  destruct (parse_nodes_fields _ _ _ Hst) as (new & Hnew & Hall).
  simpl in Hnew. rewrite Hnew in Hns.
  apply Forall2_same_length_lookup. split; [by eapply Forall2_length|].
  intros i rec node' Hrec Hnode'.
  destruct (Forall2_lookup_l _ _ _ _ _ Hall Hrec)
    as (node0 & Hnode0 & _ & He0 & Hr0).
  rewrite (add_all_edges_lookup st.2 (mrs_nodes mrs) 0 new ns Hns) with (node := node0)
    in Hnode'; [| |done].
  2:{ intros j r Hj.
      by rewrite (parse_nodes_positions _ _ _ Hst Hnd j r Hj). }
  rewrite decide_True, Nat.sub_0_r, Hrec in Hnode' by lia.
  injection Hnode' as <-.
  destruct (append_edges_lists st.2 (edges_of rec) node0) as (-> & -> & _).
  rewrite He0, Hr0. simpl. split; [done|].
  apply Forall2_same_length_lookup. split; [by rewrite length_map|].
  intros j e c He Hc.
  assert (He' : e ∈ edges_of rec) by by eapply list_elem_of_lookup_2.
  destruct (add_all_edges_resolved st.2 _ _ _ Hns rec e
              ltac:(by eapply list_elem_of_lookup_2) He') as [v Hv].
  change (map ?f) with (fmap (M := list) f) in Hc.
  rewrite list_lookup_fmap, He in Hc. simpl in Hc. rewrite Hv in Hc.
  injection Hc as <-.
  destruct (parse_nodes_index_sound _ _ _ Hst _ _ Hv)
    as [Hv0|(rec' & _ & Hrec' & Hid)].
  - simpl in Hv0. by rewrite lookup_empty in Hv0.
  - simpl in Hrec'. rewrite Nat.sub_0_r in Hrec'. exists rec'.
    split; [done|lia].
Qed.

Lemma X3_witness :
  Forall2 (λ rec node,
             relations node = map label (edges_of rec)
             ∧ Forall2 (λ e child_index,
                          ∃ rec', mrs_nodes rec_two_eq !! child_index = Some rec'
                                  ∧ id rec' = target e)
                 (edges_of rec) (edges node))
    (mrs_nodes rec_two_eq) (nodes graph_two_eq).
Proof.
  apply (X3_parsed_edges_resolve_targets rec_two_eq graph_two_eq).
  - reflexivity.
  - simpl. repeat (apply NoDup_cons; split; [|]);
      [rewrite !elem_of_cons; intros [?|[?|?]]; (lia || by apply elem_of_nil in H)
      |rewrite !elem_of_cons; intros [?|?]; (lia || by apply elem_of_nil in H)
      |by intros ?%elem_of_nil
      |apply NoDup_nil_2].
Defined.


(** ** When the parser returns *)

Lemma add_edge_loop_total nodes_index parent_ind es : ∀ nodes,
  parent_ind < length nodes →
  (∀ e, e ∈ es → is_Some (nodes_index !! (target e - 1)%Z)) →
  is_ok (fold_each (add_edge nodes_index parent_ind) nodes es) = true.
Proof.
  induction es as [|e es IH]; intros nodes Hp Hes; [done|].
  cbn [fold_each]. unfold add_edge at 1, getitem.
  destruct (Hes e ltac:(left)) as [child_ind ->]. cbn [Py.bind].
  unfold index. destruct (lookup_lt_is_Some_2 nodes parent_ind Hp) as [nd ->].
  cbn [Py.bind]. apply IH.
  - by rewrite length_alter.
  - intros e' He'. apply Hes. by right.
Qed.

Lemma add_all_edges_total nodes_index recs : ∀ nodes,
  (∀ k v, nodes_index !! k = Some v → v < length nodes) →
  (∀ rec, rec ∈ recs → is_Some (nodes_index !! (id rec - 1)%Z)) →
  (∀ rec e, rec ∈ recs → e ∈ edges_of rec →
            is_Some (nodes_index !! (target e - 1)%Z)) →
  is_ok (fold_each (add_edges nodes_index) nodes recs) = true.
Proof.
  induction recs as [|rec recs IH]; intros nodes Hidx Hids Htargets; [done|].
  cbn [fold_each].
  destruct (Hids rec ltac:(left)) as [parent_ind Hparent].
  pose proof (add_edge_loop_total nodes_index parent_ind (edges_of rec) nodes
                (Hidx _ _ Hparent)
                (λ e He, Htargets rec e ltac:(left) He)) as Hloop.
  assert (Hstep : add_edges nodes_index nodes rec
                  = fold_each (add_edge nodes_index parent_ind) nodes
                      (edges_of rec)).
  { unfold add_edges, getitem, edges_of. rewrite Hparent. cbn [Py.bind].
    by destruct (node_edges rec). }
  rewrite Hstep.
  destruct (fold_each (add_edge nodes_index parent_ind) nodes (edges_of rec))
    as [nodes1|] eqn:H1; [|done].
  cbn [Py.bind].
  assert (Hlen : length nodes1 = length nodes).
  { destruct (add_edge_loop _ _ _ _ _ H1) as [-> _]. by rewrite length_alter. }
  apply IH.
  - intros k v Hv. rewrite Hlen. eauto.
  - intros rec' Hrec'. apply Hids. by right.
  - intros rec' e Hrec' He. apply (Htargets rec' e); [by right|done].
Qed.

Lemma parse_node_total st rec :
  prop_constant rec ≠ Some "" → is_ok (parse_node st rec) = true.
Proof.
  intros Hc. unfold parse_node.
  destruct (prop_constant rec) as [const|]; [|done].
  destruct (canonical_constant_wraps const) as (c & -> & _); [congruence|].
  done.
Qed.

Lemma parse_node_constant st rec st' :
  parse_node st rec = Ok st' → prop_constant rec ≠ Some "".
Proof.
  unfold parse_node. intros H Hc. rewrite Hc in H.
  by rewrite canonical_constant_empty in H.
Qed.

(** X4: the canonical form of a constant is a fixed point of the
    canonicalisation: a constant that the parser has stored is stored
    unchanged when it is read again, so quotes never pile up. *)
Theorem X4_canonical_constant_idempotent (const c : string) :
  canonical_constant const = Ok c → canonical_constant c = Ok c.
Proof.
  intros H.
  assert (Hne : const ≠ "").
  { intros ->. by rewrite canonical_constant_empty in H. }
  destruct (canonical_constant_wraps const Hne) as (c' & Hc' & Hfirst & Hlast & _).
  rewrite H in Hc'. injection Hc' as <-.
  unfold canonical_constant. rewrite Hfirst. cbn [Py.bind].
  rewrite Ascii.eqb_refl, Hlast. cbn [Py.bind].
  by rewrite Ascii.eqb_refl.
Qed.

Lemma X4_witness : canonical_constant "Kim" = Ok (String quote ("Kim" +:+ String quote ""))
  ∧ canonical_constant (String quote ("Kim" +:+ String quote ""))
    = Ok (String quote ("Kim" +:+ String quote "")).
Proof.
  split; [reflexivity|].
  apply (X4_canonical_constant_idempotent "Kim"). reflexivity.
Defined.

(** X5: the parser returns a graph exactly when no record carries the
    empty string as its constant and every edge targets the id of some
    node record; a record's own parent lookup and the node list
    indexing of the second loop never fail. *)
Theorem X5_parser_returns_iff (mrs : mrs_rec) :
  is_ok (parse_orig_json_line mrs) = true
  ↔ (∀ rec, rec ∈ mrs_nodes mrs → prop_constant rec ≠ Some "")
    ∧ (∀ rec e, rec ∈ mrs_nodes mrs → e ∈ edges_of rec →
                ∃ rec', rec' ∈ mrs_nodes mrs ∧ id rec' = target e).
Proof.
  unfold parse_orig_json_line. split.
  - intros H.
    destruct (fold_each parse_node ([], ∅) (mrs_nodes mrs)) as [st|] eqn:Hst;
      [|done].
    cbn [Py.bind] in H.
    destruct (fold_each (add_edges st.2) st.1 (mrs_nodes mrs)) as [ns|] eqn:Hns;
      [|done].
    split.
    + intros rec Hrec.
      destruct (fold_each_Ok_each parse_node _ rec Hrec _ _ Hst)
        as (s1 & s2 & Hs).
      by eapply parse_node_constant.
    + intros rec e Hrec He.
      pose proof (add_all_edges_resolved _ _ _ _ Hns rec e Hrec He) as Hsome.
      apply (parse_nodes_index _ _ _ Hst) in Hsome as [Hsome|(rec' & Hrec' & Hid)].
      * simpl in Hsome. rewrite lookup_empty in Hsome. by destruct Hsome.
      * exists rec'. split; [done|lia].
  - intros [Hconst Htargets].
    pose proof (fold_each_total parse_node (mrs_nodes mrs)
                  (λ s x Hx, parse_node_total s x (Hconst x Hx)) ([], ∅)) as Hst.
    destruct (fold_each parse_node ([], ∅) (mrs_nodes mrs)) as [st|] eqn:Est;
      [|done].
    cbn [Py.bind].
    pose proof (add_all_edges_total st.2 (mrs_nodes mrs) st.1) as Hns.
    destruct (fold_each (add_edges st.2) st.1 (mrs_nodes mrs)); [done|].
    apply Hns.
    + intros k v Hv.
      destruct (parse_nodes_shape _ _ _ Est) as (_ & Hidx & _).
      apply Hidx in Hv as [Hv|Hv]; [|done].
      simpl in Hv. by rewrite lookup_empty in Hv.
    + intros rec Hrec. apply (parse_nodes_index _ _ _ Est). right. eauto.
    + intros rec edge Hrec Hedge.
      destruct (Htargets rec edge Hrec Hedge) as (rec' & Hrec' & Hid).
      apply (parse_nodes_index _ _ _ Est). right. exists rec'.
      split; [done|lia].
Qed.

(** X6: the extractors never fail on a graph that the parser
    returned, whatever the configuration: the indexing of the node
    list by a child index (line 146) and of the relation list by an
    edge position (lines 148, 151) stays in range. *)
Theorem X6_extraction_of_parsed_graph (cfg : config) (mrs : mrs_rec)
  (g : MrsGraph) :
  parse_orig_json_line mrs = Ok g → is_ok (extract cfg g) = true.
Proof.
  intros H. apply extract_total. by eapply parse_orig_json_line_wf.
Qed.

Lemma X6_witness : is_ok (extract full_edm graph_two_eq) = true.
Proof.
  apply (X6_extraction_of_parsed_graph full_edm rec_two_eq). reflexivity.
Defined.


(** ** How many triples, and which spans *)

Lemma predicate_triples_length g ic ise :
  length (predicate_triples g ic ise)
  = length (nodes g) + (if ic then const_count g else 0).
Proof.
  unfold predicate_triples, const_count.
  induction (nodes g) as [|node ns IH]; [by destruct ic|].
  cbn [flat_map]. rewrite (filter_cons (λ node, has_constant node = true)).
  rewrite length_app, IH.
  destruct ic, (has_constant node) eqn:E; simpl;
    try (rewrite decide_True by done); try (rewrite decide_False by done);
    simpl; lia.
Qed.

Lemma predicate_bag_length g ic :
  length (predicate_bag g ic)
  = length (nodes g) + (if ic then const_count g else 0).
Proof.
  unfold predicate_bag, const_count.
  induction (nodes g) as [|node ns IH]; [by destruct ic|].
  cbn [flat_map]. rewrite (filter_cons (λ node, has_constant node = true)).
  rewrite length_app, IH.
  destruct ic, (has_constant node) eqn:E; simpl;
    try (rewrite decide_True by done); try (rewrite decide_False by done);
    simpl; lia.
Qed.

Lemma top_triples_length g ise : length (top_triples g ise) = top_count g.
Proof.
  unfold top_triples, top_count.
  induction (nodes g) as [|node ns IH]; [done|].
  cbn [flat_map]. rewrite (filter_cons (λ node, top node = true)).
  rewrite length_app, IH.
  destruct (top node) eqn:E;
    [rewrite decide_True by done|rewrite decide_False by done]; done.
Qed.

Lemma edge_triples_length g node ise labeled : ∀ children k node_ind ts,
  edge_triples g node ise labeled k children node_ind = Ok ts →
  length ts = length children.
Proof.
  induction children as [|c children IH]; simpl; intros k node_ind ts H.
  - by injection H as <-.
  - apply bind_Ok_inv in H as (child_node & _ & H).
    apply bind_Ok_inv in H as (relation & _ & H).
    apply bind_Ok_inv in H as (rest & Hrest & H). injection H as <-.
    simpl. f_equal. by eapply IH.
Qed.

Lemma for_each_concat_length {A B} (f : A → result (list B)) (len : A → nat)
  xs : ∀ yss,
  (∀ x ys, x ∈ xs → f x = Ok ys → length ys = len x) →
  for_each f xs = Ok yss → length (concat yss) = sum_list_with len xs.
Proof.
  induction xs as [|x xs IH]; simpl; intros yss Hlen H.
  - by injection H as <-.
  - apply bind_Ok_inv in H as (ys & Hys & H).
    apply bind_Ok_inv in H as (yss' & Hyss & H). injection H as <-.
    simpl. rewrite length_app. f_equal.
    + apply Hlen; [left|done].
    + apply IH; [|done]. intros x' ys' Hx'. apply Hlen. by right.
Qed.

Lemma relation_triples_length g ise labeled ts :
  relation_triples g ise labeled = Ok ts →
  length ts = top_count g + edge_count g.
Proof.
  unfold relation_triples. intros H.
  apply bind_Ok_inv in H as (per_node & Hper & H). injection H as <-.
  rewrite length_app, top_triples_length. f_equal.
  apply (for_each_concat_length _ (λ node, length (edges node)) _ _
           (λ x ys _ Hx, edge_triples_length g x ise labeled _ _ _ _ Hx) Hper).
Qed.

(** X7: the number of extracted triples is fixed by the shape of the
    graph: one per node and, with constants included, one more per
    node that has a constant (with or without predicate spans); one
    root marker per top node and one triple per edge. *)
Theorem X7_number_of_triples (cfg : config) (g : MrsGraph) (ts : list string) :
  extract cfg g = Ok ts → length ts = triple_count cfg g.
Proof.
  unfold extract, eds_triples, triple_count. intros H.
  assert (Hpred :
    length (if score_predicates cfg
            then if include_predicate_spans cfg
                 then predicate_triples g (include_constants cfg)
                        (include_span_ends cfg)
                 else predicate_bag g (include_constants cfg)
            else [])
    = if score_predicates cfg
      then length (nodes g)
           + (if include_constants cfg then const_count g else 0)
      else 0).
  { destruct (score_predicates cfg); [|done].
    destruct (include_predicate_spans cfg);
      [apply predicate_triples_length|apply predicate_bag_length]. }
  destruct (score_relations cfg).
  - apply bind_Ok_inv in H as (rels & Hrels & H). injection H as <-.
    rewrite length_app, Hpred. f_equal. by eapply relation_triples_length.
  - injection H as <-. rewrite Hpred. lia.
Qed.

Lemma X7_witness :
  ∃ ts, extract full_edm graph_two_eq = Ok ts
        ∧ length ts = triple_count full_edm graph_two_eq.
Proof.
  eexists. split; [vm_compute; reflexivity|].
  apply (X7_number_of_triples full_edm graph_two_eq). vm_compute. reflexivity.
Defined.

Lemma list_predicate_spans_app ts us :
  list_predicate_spans (ts ++ us)
  = list_predicate_spans ts ++ list_predicate_spans us.
Proof. unfold list_predicate_spans. apply flat_map_app. Qed.

Lemma list_predicate_spans_keyed (key : string) span rest :
  plain span = true → plain key = true →
  list_predicate_spans [span +:+ " " +:+ key +:+ " " +:+ rest]
  = if bool_decide (key = "NAME") then [span] else [].
Proof.
  intros Hspan Hkey. unfold list_predicate_spans. cbn [flat_map].
  change (span +:+ " " +:+ key +:+ " " +:+ rest)
    with (span +:+ String " " (key +:+ String " " rest)).
  rewrite !split_app by done.
  destruct (split " " rest) as [|field fields] eqn:E;
    [by apply split_nonempty in E|].
  cbn [length lookup list_lookup Nat.ltb Nat.leb andb].
  rewrite (bool_decide_ext (Some key = Some "NAME") (key = "NAME"))
    by (split; congruence).
  rewrite app_nil_r. by destruct (bool_decide _).
Qed.

(** X8: the spans read back from the predicate triples of a graph are
    the spans of its nodes, whatever the concepts and constants
    contain: [list_predicate_spans] yields one span per node, in node
    order, and [list_spans] yields exactly the node spans. *)
Theorem X8_spans_of_predicate_triples (O : SetOrder) (g : MrsGraph)
  (ic ise : bool) :
  list_predicate_spans (predicate_triples g ic ise)
  = map (λ node, span_str node ise) (nodes g)
  ∧ ∀ s, s ∈ list_spans O (predicate_triples g ic ise) ↔ node_span g ise s.
Proof.
  split.
  - unfold predicate_triples.
    induction (nodes g) as [|node ns IH]; [done|].
    cbn [flat_map map].
    change ((?t :: ?c) ++ ?r) with ([t] ++ (c ++ r)).
    rewrite !list_predicate_spans_app, IH.
    change (span_str node ise +:+ " NAME " +:+ concept node)
      with (span_str node ise +:+ " " +:+ "NAME" +:+ " " +:+ concept node).
    rewrite list_predicate_spans_keyed by (done || apply span_str_plain).
    destruct (ic && has_constant node); [|done].
    change (span_str node ise +:+ " CARG " +:+ constant node)
      with (span_str node ise +:+ " " +:+ "CARG" +:+ " " +:+ constant node).
    by rewrite list_predicate_spans_keyed by (done || apply span_str_plain).
  - intros s. unfold list_spans. rewrite enum_elem. split.
    + apply predicate_triples_spans.
    + intros (node & Hnode & ->).
      unfold span_adds. apply elem_of_flat_map.
      exists (span_str node ise +:+ " NAME " +:+ concept node). split.
      * unfold predicate_triples. apply elem_of_flat_map.
        exists node. split; [done|left].
      * change (span_str node ise +:+ " NAME " +:+ concept node)
          with (span_str node ise +:+ " " +:+ "NAME" +:+ " " +:+ concept node).
        rewrite span_adds_of_keyed by (done || apply span_str_plain).
        left.
Qed.


(** ** Shifting span ends *)

Lemma split_two sep s :
  lacks sep s = false → ∃ s0 s1 rest, split sep s = s0 :: s1 :: rest.
Proof.
  unfold lacks. induction s as [|c s IH]; simpl; [done|].
  destruct (Ascii.eqb c sep); simpl.
  - intros _. destruct (split sep s) as [|w ws] eqn:E;
      [by apply split_nonempty in E|]. eauto.
  - intros Hs. destruct (IH Hs) as (s0 & s1 & rest & ->). eauto.
Qed.

Lemma split_head_lacks sep s : ∀ s0 rest,
  split sep s = s0 :: rest → lacks sep s0 = true.
Proof.
  unfold lacks. induction s as [|c s IH]; simpl; intros s0 rest H.
  - by injection H as <- <-.
  - destruct (Ascii.eqb c sep) eqn:Ec.
    + by injection H as <- <-.
    + destruct (split sep s) as [|w ws] eqn:E.
      * injection H as <- <-. simpl. by rewrite Ec.
      * injection H as <- <-. simpl. rewrite Ec. simpl. by eapply IH.
Qed.

Lemma shift_end_Ok delta span s :
  shift_end delta span = Ok s →
  ∃ s0 s1 n, split ":" span !! 0 = Some s0 ∧ split ":" span !! 1 = Some s1
             ∧ int s1 = Ok n ∧ lacks ":" s0 = true
             ∧ s = s0 +:+ ":" +:+ str (n + delta).
Proof.
  unfold shift_end, index. intros H.
  destruct (split ":" span) as [|s0 [|s1 rest]] eqn:E; try done.
  cbn [lookup list_lookup Py.bind] in H.
  apply bind_Ok_inv in H as (n & Hn & H). injection H as <-.
  exists s0, s1, n. split_and!; try done.
  by eapply split_head_lacks.
Qed.

Lemma shift_end_shifted delta s0 n :
  lacks ":" s0 = true →
  shift_end delta (s0 +:+ ":" +:+ str n) = Ok (s0 +:+ ":" +:+ str (n + delta)).
Proof.
  intros Hs0. unfold shift_end.
  change (s0 +:+ ":" +:+ str n) with (s0 +:+ String ":" (str n)).
  rewrite split_app by done.
  rewrite split_lacks by (apply str_lacks, colon_not_int_char).
  unfold index. cbn [lookup list_lookup Py.bind]. by rewrite int_str.
Qed.

Lemma shift_end_compose d d' span s :
  shift_end d span = Ok s → shift_end d' s = shift_end (d + d') span.
Proof.
  intros H. destruct (shift_end_Ok _ _ _ H) as (s0 & s1 & n & H0 & H1 & Hn & Hs0 & ->).
  rewrite shift_end_shifted by done.
  unfold shift_end, index. rewrite H0, H1. cbn [Py.bind]. rewrite Hn.
  cbn [Py.bind]. by rewrite Z.add_assoc.
Qed.

Lemma shift_end_back d span s :
  shift_end d span = Ok s →
  ∃ back, shift_end (- d) s = Ok back ∧ shift_end d back = Ok s
          ∧ ∀ a b, span = span_of a b → back = span.
Proof.
  intros H. destruct (shift_end_Ok _ _ _ H) as (s0 & s1 & n & H0 & H1 & Hn & Hs0 & ->).
  exists (s0 +:+ ":" +:+ str n). split_and!.
  - rewrite shift_end_shifted by done.
    by replace (n + d + - d)%Z with n by lia.
  - by rewrite shift_end_shifted.
  - intros a b ->. rewrite split_span in H0, H1.
    injection H0 as <-. injection H1 as <-.
    rewrite int_str in Hn. by injection Hn as <-.
Qed.

Lemma for_each_back d spans : ∀ up,
  for_each (shift_end d) spans = Ok up →
  ∃ back, for_each (shift_end (- d)) up = Ok back
          ∧ for_each (shift_end d) back = Ok up
          ∧ ∀ i a b, spans !! i = Some (span_of a b) →
                     back !! i = Some (span_of a b).
Proof.
  induction spans as [|span spans IH]; simpl; intros up H.
  - injection H as <-. exists []. by split_and!.
  - apply bind_Ok_inv in H as (s & Hs & H).
    apply bind_Ok_inv in H as (up' & Hup & H). injection H as <-.
    destruct (shift_end_back _ _ _ Hs) as (b0 & Hb0 & Hb0' & Hcanon).
    destruct (IH _ Hup) as (back & Hback & Hback' & Hcanons).
    exists (b0 :: back). simpl. rewrite Hb0, Hback, Hb0', Hback'. simpl.
    split_and!; try done.
    intros [|i] a b Hi; simpl in *.
    + injection Hi as ->. f_equal. by eapply Hcanon.
    + by apply Hcanons.
Qed.

(** X9: decrementing the span ends that [inc_end_spans] returned
    never fails; the list obtained increments again to the same
    list, and it gives back unchanged every span that was written as
    [start:end] with both offsets in the form [str] prints. *)
Theorem X9_dec_after_inc (spans up : list string) :
  inc_end_spans spans = Ok up →
  ∃ back, dec_end_spans up = Ok back
          ∧ inc_end_spans back = Ok up
          ∧ ∀ i a b, spans !! i = Some (span_of a b) →
                     back !! i = Some (span_of a b).
Proof. apply (for_each_back 1). Qed.

Lemma X9_witness :
  ∃ back, dec_end_spans ["3:5"; "x:8"] = Ok back
          ∧ inc_end_spans back = Ok ["3:5"; "x:8"]
          ∧ ∀ i a b, ["3:4"; "x: +7 :9"] !! i = Some (span_of a b) →
                     back !! i = Some (span_of a b).
Proof.
  apply (X9_dec_after_inc ["3:4"; "x: +7 :9"] ["3:5"; "x:8"]).
  vm_compute. reflexivity.
Defined.

(** X10: shifting a span end raises IndexError exactly when the span
    holds no colon, and ValueError exactly when [int] rejects the
    second piece of [span.split(':')]; the delta plays no part. *)
Theorem X10_shift_end_index_error (delta : Z) (span : string) :
  (shift_end delta span = Err IndexError ↔ lacks ":" span = true)
  ∧ (shift_end delta span = Err ValueError
     ↔ ∃ s1, split ":" span !! 1 = Some s1 ∧ is_ok (int s1) = false).
Proof.
  unfold shift_end, index.
  destruct (lacks ":" span) eqn:E.
  - rewrite (split_lacks _ _ E). cbn [lookup list_lookup Py.bind].
    split; [done|]. split; [done|]. by intros (s1 & ? & _).
  - destruct (split_two _ _ E) as (s0 & s1 & rest & ->).
    cbn [lookup list_lookup Py.bind].
    destruct (int s1) as [n|e] eqn:En; cbn [Py.bind].
    + split; [done|]. split; [done|].
      intros (s1' & [= <-] & Hok). by rewrite En in Hok.
    + pose proof (int_raises _ _ En) as ->.
      split; [done|]. split; [|done]. intros _. exists s1.
      split; [done|]. by rewrite En.
Qed.


(** ** The off-by-one repair *)

Lemma rewrite_pass_length gold_spans pairs : ∀ triples,
  length (rewrite_pass gold_spans pairs triples) = length triples.
Proof.
  unfold rewrite_pass. induction pairs as [|p pairs IH]; intros triples; [done|].
  simpl. rewrite IH. destruct (_ && _); [apply length_map|done].
Qed.

Lemma prefix_app (old rest : string) : String.prefix old (old +:+ rest) = true.
Proof.
  induction old as [|c old IH]; [by destruct rest|].
  rewrite string_app_cons. simpl. by destruct (ascii_dec c c).
Qed.

Lemma prefix_lacks c (old : string) : ∀ s,
  String.prefix old s = true → lacks c s = true → lacks c old = true.
Proof.
  unfold lacks. induction old as [|x old IH]; intros s Hp Hs; [done|].
  destruct s as [|y s]; [done|]. simpl in Hp.
  destruct (ascii_dec x y) as [->|]; [|done].
  simpl in *. apply andb_true_iff in Hs as [-> Hs]. simpl. by eapply IH.
Qed.

Lemma replace_from_skip old new (pre rest : string) :
  replace_from old new (String.length pre) (pre +:+ rest)
  = replace_from old new 0 rest.
Proof.
  induction pre as [|c pre IH]; [done|].
  rewrite string_app_cons. simpl. apply IH.
Qed.

Lemma replace_from_absent c old new : ∀ s,
  lacks c old = false → lacks c s = true → replace_from old new 0 s = s.
Proof.
  intros s Hold. induction s as [|x s IH]; intros Hs; [done|].
  cbn [replace_from]. destruct (String.prefix old (String x s)) eqn:Hp.
  - pose proof (prefix_lacks c old _ Hp Hs). congruence.
  - f_equal. apply IH. unfold lacks in *. simpl in Hs.
    by apply andb_true_iff in Hs as [_ Hs].
Qed.

Lemma replace_prefix c (old new rest : string) :
  lacks c old = false → lacks c rest = true →
  replace old new (old +:+ rest) = new +:+ rest.
Proof.
  intros Hold Hrest. destruct old as [|x old]; [done|].
  unfold replace. rewrite string_app_cons.
  cbn [replace_from]. rewrite <- string_app_cons, prefix_app.
  cbn [String.length]. rewrite Nat.sub_1_r. cbn [Nat.pred].
  rewrite replace_from_skip. f_equal. by eapply replace_from_absent.
Qed.

Lemma span_of_has_colon a b : lacks ":" (span_of a b) = false.
Proof.
  unfold lacks, span_of. rewrite all_chars_app.
  change (":" +:+ str b) with (String ":" (str b)). simpl.
  apply andb_false_r.
Qed.

Lemma enum_single O (adds : list string) s :
  adds ≠ [] → (∀ x, x ∈ adds → x = s) → enum O adds = [s].
Proof.
  intros Hne Hall.
  assert (Hs : s ∈ enum O adds).
  { apply enum_elem. destruct adds as [|x adds]; [done|].
    rewrite <- (Hall x) by left. left. }
  pose proof (enum_NoDup O adds) as Hnd.
  assert (Hall' : ∀ x, x ∈ enum O adds → x = s).
  { intros x Hx. apply Hall. by apply (enum_elem O). }
  destruct (enum O adds) as [|x [|y l]].
  - by inversion Hs.
  - f_equal. apply Hall'. left.
  - exfalso. apply NoDup_cons in Hnd as [Hx _]. apply Hx.
    rewrite (Hall' x) by left. rewrite (Hall' y) by (right; left). left.
Qed.

(** X11: the reconciler returns as many predicted triples as it was
    given: the repair rewrites triples in place and never adds or
    drops one. *)
Theorem X11_reconcile_keeps_length (O : SetOrder)
  (gold_triples predicted_triples r : list string) :
  reconcile O gold_triples predicted_triples = Ok r →
  length r = length predicted_triples.
Proof.
  rewrite reconcile_two_passes. intros H.
  apply bind_Ok_inv in H as (inc & _ & H).
  apply bind_Ok_inv in H as (dec & _ & H). injection H as <-.
  by rewrite !rewrite_pass_length.
Qed.

Lemma X11_witness :
  length ["3:5 NAME a"; "3:51 NAME b"] = length predicted_3_4_41.
Proof.
  apply (X11_reconcile_keeps_length last_add_order gold_3_5_50).
  vm_compute. reflexivity.
Defined.

(** X12: the repair itself.  When the predicted triples show one span
    [a:b] only, the gold triples do not show it but show the span whose
    end is one more (or one less) and not the one whose end is one
    less (or one more), every predicted triple is rewritten by
    replacing [a:b] with that gold span; a triple that starts with
    [a:b] and holds no colon after it gets the gold span in place of
    its own and is otherwise unchanged. *)
Theorem X12_off_by_one_end_repaired (O : SetOrder)
  (gold_triples predicted_triples : list string) (a b d : Z) :
  d = 1%Z ∨ d = (-1)%Z →
  span_adds predicted_triples ≠ [] →
  (∀ s, s ∈ span_adds predicted_triples → s = span_of a b) →
  span_of a b ∉ span_adds gold_triples →
  span_of a (b + d) ∈ span_adds gold_triples →
  span_of a (b - d) ∉ span_adds gold_triples →
  reconcile O gold_triples predicted_triples
  = Ok (map (replace (span_of a b) (span_of a (b + d))) predicted_triples)
  ∧ ∀ rest, span_of a b +:+ rest ∈ predicted_triples →
            lacks ":" rest = true →
            replace (span_of a b) (span_of a (b + d)) (span_of a b +:+ rest)
            = span_of a (b + d) +:+ rest.
Proof.
  intros Hd Hne Hall Hold Hnew Hother. split.
  - rewrite reconcile_two_passes. unfold list_spans.
    rewrite (enum_single O _ (span_of a b) Hne Hall).
    unfold inc_end_spans, dec_end_spans. cbn [for_each].
    rewrite !shift_end_span. cbn [Py.bind zip zip_with].
    unfold rewrite_pass. cbn [foldl fst snd].
    rewrite (bool_decide_eq_true_2 (span_of a b ∉ _))
      by (by rewrite elem_of_list_to_set).
    cbn [andb].
    destruct Hd as [-> | ->].
    + rewrite (bool_decide_eq_true_2 (span_of a (b + 1) ∈ _))
        by (by rewrite elem_of_list_to_set).
      rewrite (bool_decide_eq_false_2 (span_of a (b + -1) ∈ _)); [done|].
      rewrite elem_of_list_to_set. by replace (b + -1)%Z with (b - 1)%Z by lia.
    + rewrite (bool_decide_eq_false_2 (span_of a (b + 1) ∈ _)).
      2:{ rewrite elem_of_list_to_set.
          by replace (b + 1)%Z with (b - -1)%Z by lia. }
      by rewrite (bool_decide_eq_true_2 (span_of a (b + -1) ∈ _))
        by (by rewrite elem_of_list_to_set).
  - intros rest _ Hrest.
    by apply (replace_prefix ":"); [apply span_of_has_colon|].
Qed.

Lemma X12_witness :
  reconcile last_add_order ["3:5 NAME a"] ["3:4 NAME a"; "3:4 CARG b"]
  = Ok (map (replace (span_of 3 4) (span_of 3 (4 + 1)))
          ["3:4 NAME a"; "3:4 CARG b"])
  ∧ ∀ rest, span_of 3 4 +:+ rest ∈ ["3:4 NAME a"; "3:4 CARG b"] →
            lacks ":" rest = true →
            replace (span_of 3 4) (span_of 3 (4 + 1)) (span_of 3 4 +:+ rest)
            = span_of 3 (4 + 1) +:+ rest.
Proof.
  apply (X12_off_by_one_end_repaired last_add_order
           ["3:5 NAME a"] ["3:4 NAME a"; "3:4 CARG b"] 3 4 1).
  - by left.
  - done.
  - intros s Hs. vm_compute in Hs.
    apply elem_of_cons in Hs as [->|Hs]; [reflexivity|].
    apply list_elem_of_singleton in Hs as ->. reflexivity.
  - vm_compute. intros Hs. apply list_elem_of_singleton in Hs. discriminate.
  - vm_compute. left.
  - vm_compute. intros Hs. apply list_elem_of_singleton in Hs. discriminate.
Defined.


(** ** The totals and the score *)

Lemma sum_list_with_le {A} (f h : A → nat) (l : list A) :
  (∀ x, f x ≤ h x) → sum_list_with f l ≤ sum_list_with h l.
Proof.
  intros Hle. induction l as [|x l IH]; simpl; [done|].
  specialize (Hle x). lia.
Qed.

Lemma accumulate_bounds O cfg gold_graphs predicted_graphs t :
  accumulate O cfg gold_graphs predicted_graphs = Ok t →
  total_correct t ≤ total_predicted t
  ∧ total_correct t ≤ total_gold t
  ∧ none_count t ≤ length gold_graphs.
Proof.
  rewrite accumulate_spec. intros H.
  apply bind_Ok_inv in H as (sets & _ & H). injection H as <-. simpl.
  split_and!.
  - apply sum_list_with_le. intros s. apply subseteq_size.
    apply intersection_subseteq_r.
  - apply sum_list_with_le. intros s. apply subseteq_size.
    apply intersection_subseteq_l.
  - unfold spec_none_count. apply length_filter.
Qed.

Lemma count_ratio_le c n : c ≤ n → 0 < n → (count c / count n <= 1)%Q.
Proof.
  intros Hc Hn. apply Qle_shift_div_r.
  - unfold count, Qlt. simpl. lia.
  - rewrite Qmult_1_l. unfold count, Qle. simpl. lia.
Qed.

Lemma f1_range (p r : Q) :
  (0 < p)%Q → (p <= 1)%Q → (0 < r)%Q → (r <= 1)%Q →
  (0 < 2 * p * r / (p + r))%Q ∧ (2 * p * r / (p + r) <= 1)%Q.
Proof.
  intros Hp Hp1 Hr Hr1. split.
  - apply Qlt_shift_div_l; [lra|nra].
  - apply Qle_shift_div_r; [lra|nra].
Qed.

(** X13: the counters the loop ends with are ordered: the correct
    triples are at most the predicted ones and at most the gold ones,
    and the missing predictions at most the gold graphs. *)
Theorem X13_totals_ordered (O : SetOrder) (cfg : config)
  (gold_graphs predicted_graphs : corpus) (t : totals) :
  accumulate O cfg gold_graphs predicted_graphs = Ok t →
  total_correct t ≤ total_predicted t
  ∧ total_correct t ≤ total_gold t
  ∧ none_count t ≤ length gold_graphs.
Proof. apply accumulate_bounds. Qed.

Lemma X13_witness :
  5 ≤ 5 ∧ 5 ≤ 5 ∧ 0 ≤ length [(7%Z, graph_kim_sleeps)].
Proof.
  apply (X13_totals_ordered last_add_order full_edm
           [(7%Z, graph_kim_sleeps)] [(7%Z, graph_kim_sleeps)]
           {| total_gold := 5; total_predicted := 5; total_correct := 5;
              none_count := 0 |}).
  vm_compute. reflexivity.
Defined.

(** X14: a score that [compute_f1] returns lies in the half-open
    interval from 0 to 1 in each of its three ratios; a precision,
    recall or F1 of 0 is never returned. *)
Theorem X14_score_in_unit_interval (O : SetOrder)
  (gold_graphs predicted_graphs : corpus) (cfg : config) (s : score) :
  compute_f1 O gold_graphs predicted_graphs cfg = Ok s →
  (0 < precision s ∧ precision s <= 1)%Q
  ∧ (0 < recall s ∧ recall s <= 1)%Q
  ∧ (0 < f1 s ∧ f1 s <= 1)%Q.
Proof.
  unfold compute_f1. intros H.
  apply bind_Ok_inv in H as (t & Ht & H).
  destruct (accumulate_bounds _ _ _ _ _ Ht) as (Hcp & Hcg & _).
  rewrite final_score_cases in H. unfold score_cases in H.
  destruct (bool_decide _) eqn:E1 in H; [done|].
  destruct (bool_decide _) eqn:E2 in H; [done|].
  apply bool_decide_eq_false in E1. apply bool_decide_eq_false in E2.
  injection H as <-. cbn [precision recall f1].
  assert (0 < count (total_correct t) / count (total_predicted t))%Q as Hp
    by (apply count_ratio_pos; lia).
  assert (count (total_correct t) / count (total_predicted t) <= 1)%Q as Hp1
    by (apply count_ratio_le; lia).
  assert (0 < count (total_correct t) / count (total_gold t))%Q as Hr
    by (apply count_ratio_pos; lia).
  assert (count (total_correct t) / count (total_gold t) <= 1)%Q as Hr1
    by (apply count_ratio_le; lia).
  split_and!; try done; by apply f1_range.
Qed.

Lemma X14_witness :
  (0 < 5 # 5 ∧ 5 # 5 <= 1)%Q ∧ (0 < 5 # 5 ∧ 5 # 5 <= 1)%Q
  ∧ (0 < 1250 # 1250 ∧ 1250 # 1250 <= 1)%Q.
Proof.
  apply (X14_score_in_unit_interval last_add_order
           [(7%Z, graph_kim_sleeps)] [(7%Z, graph_kim_sleeps)] full_edm
           {| precision := 5 # 5; recall := 5 # 5; f1 := 1250 # 1250 |}).
  vm_compute. reflexivity.
Defined.

(** X15: [compute_f1] raises ZeroDivisionError exactly when the loop
    ends with predicted and gold triples but not one correct triple:
    the assertion passes, both ratios are 0 and the F1 quotient
    divides by their sum. *)
Theorem X15_zero_division_iff_nothing_correct (O : SetOrder)
  (gold_graphs predicted_graphs : corpus) (cfg : config) :
  compute_f1 O gold_graphs predicted_graphs cfg = Err ZeroDivisionError
  ↔ ∃ t, accumulate O cfg gold_graphs predicted_graphs = Ok t
         ∧ 0 < total_predicted t ∧ 0 < total_gold t ∧ total_correct t = 0.
Proof.
  unfold compute_f1.
  destruct (accumulate O cfg gold_graphs predicted_graphs) as [t|e] eqn:Ht;
    cbn [Py.bind].
  - rewrite final_score_cases. unfold score_cases. split.
    + intros H. exists t.
      destruct (bool_decide _) eqn:E1 in H; [done|].
      destruct (bool_decide _) eqn:E2 in H; [|done].
      apply bool_decide_eq_false in E1. apply bool_decide_eq_true in E2.
      split; [done|]. lia.
    + intros (t' & [= <-] & Hp & Hg & Hc).
      rewrite bool_decide_eq_false_2 by lia.
      by rewrite bool_decide_eq_true_2.
  - split.
    + intros [= ->]. by destruct (accumulate_raises _ _ _ _ _ Ht).
    + by intros (t & ? & _).
Qed.

(** X16: on graphs that satisfy the graph invariant and keep the
    triple format, in both corpora, [compute_f1] fails in two ways
    only: the assertion of line 235, or the division by zero of line
    242. *)
Theorem X16_failures_on_well_formed_corpora (O : SetOrder)
  (gold_graphs predicted_graphs : corpus) (cfg : config) (e : error) :
  wf_corpus gold_graphs → wf_corpus predicted_graphs →
  (∀ item, item ∈ gold_graphs → keeps_format cfg item.2 = true) →
  (∀ item, item ∈ predicted_graphs → keeps_format cfg item.2 = true) →
  compute_f1 O gold_graphs predicted_graphs cfg = Err e →
  e = AssertionError ∨ e = ZeroDivisionError.
Proof.
  intros Hg Hp Hfg Hfp. unfold compute_f1.
  pose proof (accumulate_total O cfg _ _ Hg Hp Hfg Hfp) as Hok.
  destruct (accumulate O cfg gold_graphs predicted_graphs) as [t|]; [|done].
  cbn [Py.bind]. rewrite final_score_cases. unfold score_cases.
  destruct (bool_decide _); [intros [= <-]; by left|].
  destruct (bool_decide _); [intros [= <-]; by right|done].
Qed.

Lemma X16_witness :
  ZeroDivisionError = AssertionError ∨ ZeroDivisionError = ZeroDivisionError.
Proof.
  apply (X16_failures_on_well_formed_corpora last_add_order
           [(7%Z, graph_kim_sleeps)] [(7%Z, graph_two_eq)] full_edm).
  - constructor; [|constructor]. exact wf_graph_kim_sleeps.
  - constructor; [|constructor].
    apply (parse_orig_json_line_wf rec_two_eq). reflexivity.
  - intros item Hitem. apply list_elem_of_singleton in Hitem as ->.
    reflexivity.
  - intros item Hitem. apply list_elem_of_singleton in Hitem as ->.
    reflexivity.
  - vm_compute. reflexivity.
Defined.


(** ** What the score depends on *)

Lemma fold_each_ext {A S} (f g : S → A → result S) xs :
  (∀ s x, x ∈ xs → f s x = g s x) →
  ∀ s, fold_each f s xs = fold_each g s xs.
Proof.
  induction xs as [|x xs IH]; intros Hext s; [done|].
  simpl. rewrite Hext by left.
  destruct (g s x) as [s'|]; [|done]. simpl. apply IH.
  intros s'' x' Hx'. apply Hext. by right.
Qed.

Lemma final_score_same_counts t t' :
  same_counts t t' → final_score t = final_score t'.
Proof. intros (Hg & Hp & Hc). by rewrite !final_score_cases, Hg, Hp, Hc. Qed.

Lemma item_sets_missing O cfg predicted_graphs item :
  score_nones cfg = false →
  corpus_get predicted_graphs item.1 = None →
  is_ok (extract cfg item.2) = true →
  item_sets O cfg predicted_graphs item = Ok (∅, ∅).
Proof.
  intros Hsn Hnone Hok. unfold item_sets, item_triples.
  destruct (extract cfg item.2) as [gold_triples|]; [|done].
  cbn [Py.bind]. rewrite Hnone, Hsn. cbn [Py.bind fst snd].
  by rewrite reconcile_nil.
Qed.

Lemma accumulate_predicted_items O cfg predicted_graphs gold_graphs :
  score_nones cfg = false →
  (∀ item, item ∈ gold_graphs →
           corpus_get predicted_graphs item.1 = None →
           is_ok (extract cfg item.2) = true) →
  ∀ t t', same_counts t t' →
  match fold_each (score_item O cfg predicted_graphs) t gold_graphs,
        fold_each (score_item O cfg predicted_graphs) t'
          (predicted_items predicted_graphs gold_graphs) with
  | Ok u, Ok u' => same_counts u u'
  | Err e, Err e' => e = e'
  | _, _ => False
  end.
Proof.
  intros Hsn. unfold predicted_items.
  induction gold_graphs as [|item gold IH]; intros Hok t t' Ht; [done|].
  rewrite (filter_cons (λ item : Z * MrsGraph,
                          is_Some (corpus_get predicted_graphs item.1))).
  cbn [fold_each].
  assert (Hok' : ∀ item, item ∈ gold →
             corpus_get predicted_graphs item.1 = None →
             is_ok (extract cfg item.2) = true).
  { intros item' Hitem'. apply Hok. by right. }
  destruct (decide (is_Some (corpus_get predicted_graphs item.1))) as [Hp|Hp].
  - cbn [fold_each]. rewrite !score_item_sets.
    destruct (item_sets O cfg predicted_graphs item) as [s|]; [|done].
    cbn [Py.bind]. apply IH; [done|].
    destruct Ht as (Hg & Hq & Hc). unfold same_counts. simpl. lia.
  - apply eq_None_not_Some in Hp.
    rewrite score_item_sets.
    rewrite (item_sets_missing O cfg _ _ Hsn Hp (Hok item ltac:(left) Hp)).
    cbn [Py.bind]. apply IH; [done|].
    destruct Ht as (Hg & Hq & Hc). unfold same_counts.
    cbn [total_gold total_predicted total_correct fst snd].
    rewrite (idemp_L (∩) (∅ : gset string)), size_empty. lia.
Qed.

(** X17: with [score_nones] false, the gold graphs that have no
    prediction do not count: the outcome is the one obtained on the
    gold graphs that have a prediction, provided the triples of the
    others can be extracted (they are extracted before they are
    dropped). *)
Theorem X17_missing_graphs_excluded (O : SetOrder)
  (gold_graphs predicted_graphs : corpus) (cfg : config) :
  score_nones cfg = false →
  (∀ item, item ∈ gold_graphs →
           corpus_get predicted_graphs item.1 = None →
           is_ok (extract cfg item.2) = true) →
  compute_f1 O gold_graphs predicted_graphs cfg
  = compute_f1 O (predicted_items predicted_graphs gold_graphs)
      predicted_graphs cfg.
Proof.
  intros Hsn Hok. unfold compute_f1, accumulate.
  pose proof (accumulate_predicted_items O cfg predicted_graphs gold_graphs
                Hsn Hok
                {| total_gold := 0; total_predicted := 0;
                   total_correct := 0; none_count := 0 |}
                {| total_gold := 0; total_predicted := 0;
                   total_correct := 0; none_count := 0 |}
                ltac:(done)) as H.
  destruct (fold_each _ _ gold_graphs) as [u|e],
           (fold_each _ _ (predicted_items _ _)) as [u'|e']; try done.
  - cbn [Py.bind]. by apply final_score_same_counts.
  - by subst.
Qed.

Lemma X17_witness :
  compute_f1 last_add_order
    [(7%Z, graph_kim_sleeps); (8%Z, graph_two_eq)] [(7%Z, graph_kim_sleeps)]
    {| score_predicates := true; score_relations := true;
       include_constants := true; labeled := true; include_span_ends := true;
       include_predicate_spans := true; score_nones := false;
       verbose := false |}
  = compute_f1 last_add_order
      (predicted_items [(7%Z, graph_kim_sleeps)]
         [(7%Z, graph_kim_sleeps); (8%Z, graph_two_eq)])
      [(7%Z, graph_kim_sleeps)]
      {| score_predicates := true; score_relations := true;
         include_constants := true; labeled := true; include_span_ends := true;
         include_predicate_spans := true; score_nones := false;
         verbose := false |}.
Proof.
  apply (X17_missing_graphs_excluded last_add_order
           [(7%Z, graph_kim_sleeps); (8%Z, graph_two_eq)]
           [(7%Z, graph_kim_sleeps)]).
  - reflexivity.
  - intros item Hitem _.
    apply elem_of_cons in Hitem as [->|Hitem]; [reflexivity|].
    apply list_elem_of_singleton in Hitem as ->. reflexivity.
Defined.

(** X18: of the predicted corpus the scorer reads nothing but the
    graphs stored under the ids of the gold graphs: two predicted
    corpora that agree on those ids give the same outcome, so a
    predicted graph under another id is never extracted and cannot
    make the run fail. *)
Theorem X18_only_gold_ids_looked_up (O : SetOrder)
  (gold_graphs predicted_graphs predicted_graphs' : corpus) (cfg : config) :
  (∀ item, item ∈ gold_graphs →
           corpus_get predicted_graphs item.1
           = corpus_get predicted_graphs' item.1) →
  compute_f1 O gold_graphs predicted_graphs cfg
  = compute_f1 O gold_graphs predicted_graphs' cfg.
Proof.
  intros Hsame. unfold compute_f1, accumulate.
  rewrite (fold_each_ext (score_item O cfg predicted_graphs)
             (score_item O cfg predicted_graphs')); [done|].
  intros t item Hitem. unfold score_item, item_triples.
  by rewrite (Hsame item Hitem).
Qed.

Lemma X18_witness :
  compute_f1 last_add_order [(7%Z, graph_kim_sleeps)]
    [(7%Z, graph_kim_sleeps)] full_edm
  = compute_f1 last_add_order [(7%Z, graph_kim_sleeps)]
      [(3%Z, graph_blank_label); (7%Z, graph_kim_sleeps)] full_edm.
Proof.
  apply (X18_only_gold_ids_looked_up last_add_order [(7%Z, graph_kim_sleeps)]).
  intros item Hitem. apply list_elem_of_singleton in Hitem as ->.
  reflexivity.
Defined.

Lemma for_each_Permutation {A B} (f : A → result B) xs xs' :
  xs ≡ₚ xs' →
  ∀ ys, for_each f xs = Ok ys → ∃ ys', for_each f xs' = Ok ys' ∧ ys ≡ₚ ys'.
Proof.
  induction 1 as [|x xs xs' _ IH|x y xs|xs xs' xs'' _ IH1 _ IH2]; intros ys H.
  - exists ys. by split.
  - simpl in H. apply bind_Ok_inv in H as (y & Hy & H).
    apply bind_Ok_inv in H as (ys0 & Hys0 & H). injection H as <-.
    destruct (IH _ Hys0) as (ys' & Hys' & Hperm).
    exists (y :: ys'). simpl. rewrite Hy, Hys'. simpl.
    split; [done|by constructor].
  - simpl in H. apply bind_Ok_inv in H as (b & Hb & H).
    apply bind_Ok_inv in H as (ys0 & H0 & H). injection H as <-.
    apply bind_Ok_inv in H0 as (a & Ha & H0).
    apply bind_Ok_inv in H0 as (ys1 & Hys1 & H0). injection H0 as <-.
    exists (a :: b :: ys1). simpl. rewrite Ha, Hb, Hys1. simpl.
    split; [done|by constructor].
  - destruct (IH1 _ H) as (ys' & Hys' & Hperm1).
    destruct (IH2 _ Hys') as (ys'' & Hys'' & Hperm2).
    exists ys''. split; [done|by etrans].
Qed.

(** X19: the order of the gold corpus does not matter to a run whose
    loop ends: on any rearrangement of the gold graphs the loop ends
    with the same four counters, and [compute_f1] gives the same
    outcome. *)
Theorem X19_gold_order_irrelevant (O : SetOrder)
  (gold_graphs gold_graphs' predicted_graphs : corpus) (cfg : config)
  (t : totals) :
  gold_graphs ≡ₚ gold_graphs' →
  accumulate O cfg gold_graphs predicted_graphs = Ok t →
  accumulate O cfg gold_graphs' predicted_graphs = Ok t
  ∧ compute_f1 O gold_graphs' predicted_graphs cfg
    = compute_f1 O gold_graphs predicted_graphs cfg.
Proof.
  intros Hperm Ht.
  assert (Ht' : accumulate O cfg gold_graphs' predicted_graphs = Ok t).
  { rewrite accumulate_spec in Ht |- *.
    apply bind_Ok_inv in Ht as (sets & Hsets & Ht). injection Ht as <-.
    destruct (for_each_Permutation _ _ _ Hperm _ Hsets)
      as (sets' & -> & Hsets').
    cbn [Py.bind]. f_equal.
    unfold spec_total_gold, spec_total_predicted, spec_total_correct,
      spec_none_count.
    by rewrite Hsets', Hperm. }
  split; [done|]. unfold compute_f1. by rewrite Ht, Ht'.
Qed.

Lemma X19_witness :
  accumulate last_add_order full_edm
    [(8%Z, graph_two_eq); (7%Z, graph_kim_sleeps)] [(7%Z, graph_kim_sleeps)]
  = Ok {| total_gold := 10; total_predicted := 5; total_correct := 5;
          none_count := 1 |}
  ∧ compute_f1 last_add_order
      [(8%Z, graph_two_eq); (7%Z, graph_kim_sleeps)]
      [(7%Z, graph_kim_sleeps)] full_edm
    = compute_f1 last_add_order
        [(7%Z, graph_kim_sleeps); (8%Z, graph_two_eq)]
        [(7%Z, graph_kim_sleeps)] full_edm.
Proof.
  apply (X19_gold_order_irrelevant last_add_order
           [(7%Z, graph_kim_sleeps); (8%Z, graph_two_eq)]).
  - apply perm_swap.
  - vm_compute. reflexivity.
Defined.

(** X20: a call that scores neither predicates nor relations never
    returns: every triple list is empty, both totals stay 0 and the
    assertion of line 235 fails, whatever the corpora hold. *)
Theorem X20_nothing_scored_fails (O : SetOrder)
  (gold_graphs predicted_graphs : corpus) (cfg : config) :
  nothing_scored cfg = true →
  compute_f1 O gold_graphs predicted_graphs cfg = Err AssertionError.
Proof.
  unfold nothing_scored. intros H.
  apply andb_true_iff in H as [Hp Hr].
  apply negb_true_iff in Hp, Hr.
  assert (Hex : ∀ g, extract cfg g = Ok []).
  { intros g. unfold extract, eds_triples. by rewrite Hp, Hr. }
  unfold compute_f1. rewrite accumulate_spec.
  rewrite (for_each_all_ok _ (λ _, (∅, ∅))).
  - cbn [Py.bind]. apply final_score_assertion. left.
    cbn [total_predicted]. unfold spec_total_predicted.
    induction gold_graphs as [|item gold IH]; [done|].
    cbn [map sum_list_with snd]. by rewrite size_empty, IH.
  - intros item _. unfold item_sets, item_triples. rewrite Hex.
    cbn [Py.bind].
    destruct (corpus_get predicted_graphs item.1) as [g|].
    + rewrite Hex. cbn [Py.bind fst snd]. by rewrite reconcile_nil.
    + cbn [Py.bind]. destruct (score_nones cfg); cbn [fst snd];
        by rewrite reconcile_nil.
Qed.

Lemma X20_witness :
  compute_f1 last_add_order [(7%Z, graph_kim_sleeps)]
    [(7%Z, graph_kim_sleeps)]
    {| score_predicates := false; score_relations := false;
       include_constants := true; labeled := true; include_span_ends := true;
       include_predicate_spans := true; score_nones := true;
       verbose := false |}
  = Err AssertionError.
Proof.
  apply (X20_nothing_scored_fails last_add_order). reflexivity.
Defined.


(** ** Reading the corpora, and a whole run *)

Lemma corpus_get_set c k g k' :
  corpus_get (corpus_set c k g) k'
  = if (k =? k')%Z then Some g else corpus_get c k'.
Proof.
  induction c as [|[k0 g0] c IH]; simpl; [done|].
  destruct (Z.eqb_spec k0 k) as [Heq|Hne]; simpl.
  - subst k0. by destruct (_ =? _)%Z.
  - rewrite IH.
    destruct (Z.eqb_spec k0 k'), (Z.eqb_spec k k'); try done; congruence.
Qed.

Lemma corpus_set_elem c k g item :
  item ∈ corpus_set c k g → item = (k, g) ∨ item ∈ c.
Proof.
  induction c as [|[k0 g0] c IH]; simpl.
  - intros ->%list_elem_of_singleton. by left.
  - destruct (k0 =? k)%Z eqn:E0.
    + apply Z.eqb_eq in E0 as ->.
      intros [->|H]%elem_of_cons; [by left|right; by right].
    + intros [->|H]%elem_of_cons; [right; left|].
      destruct (IH H) as [->|H']; [by left|right; by right].
Qed.

Lemma corpus_set_keys c k g :
  NoDup (map fst c) → NoDup (map fst (corpus_set c k g)).
Proof.
  induction c as [|[k0 g0] c IH]; simpl; intros Hnd.
  - apply NoDup_singleton.
  - apply NoDup_cons in Hnd as [Hk0 Hnd].
    destruct (k0 =? k)%Z eqn:E0; simpl.
    + by apply NoDup_cons.
    + apply NoDup_cons. split; [|by apply IH].
      intros Hin. apply elem_of_map in Hin as (item & Hk & Hitem).
      apply corpus_set_elem in Hitem as [->|Hitem].
      * simpl in Hk. subst. by rewrite Z.eqb_refl in E0.
      * apply Hk0. apply elem_of_map. by exists item.
Qed.

Lemma corpus_set_wf c k g :
  wf_corpus c → wf_graph g → wf_corpus (corpus_set c k g).
Proof.
  unfold wf_corpus. intros Hc Hg. apply Forall_forall. intros item Hitem.
  apply corpus_set_elem in Hitem as [->|Hitem]; [done|].
  by eapply Forall_forall in Hc.
Qed.

Lemma parse_orig_json_line_id mrs g :
  parse_orig_json_line mrs = Ok g → parse_id g = mrs_id mrs.
Proof.
  unfold parse_orig_json_line. intros H.
  apply bind_Ok_inv in H as (st & _ & H).
  apply bind_Ok_inv in H as (ns & _ & H). by injection H as <-.
Qed.

Lemma read_corpus_from lines : ∀ c0 c,
  fold_each read_graph c0 lines = Ok c →
  (NoDup (map fst c0) → NoDup (map fst c))
  ∧ (wf_corpus c0 → wf_corpus c)
  ∧ ∀ k, corpus_get c k
         = match last_line lines k with
           | Some line => returned (parse_orig_json_line line)
           | None => corpus_get c0 k
           end.
Proof.
  unfold last_line.
  induction lines as [|line lines IH]; simpl; intros c0 c H.
  - by injection H as <-.
  - apply bind_Ok_inv in H as (c1 & H1 & H).
    unfold read_graph in H1. apply bind_Ok_inv in H1 as (g & Hg & H1).
    injection H1 as <-.
    destruct (IH _ _ H) as (Hnd & Hwf & Hget).
    split_and!.
    + intros H0. by apply Hnd, corpus_set_keys.
    + intros H0. apply Hwf, corpus_set_wf; [done|].
      by eapply parse_orig_json_line_wf.
    + intros k. rewrite Hget, corpus_get_set.
      rewrite (parse_orig_json_line_id _ _ Hg).
      rewrite (filter_cons (λ line, mrs_id line = k)).
      destruct (decide (mrs_id line = k)) as [->|Hne].
      * rewrite last_cons, Z.eqb_refl.
        destruct (last _); [done|]. by rewrite Hg.
      * destruct (last _); [done|].
        destruct (Z.eqb_spec (mrs_id line) k); done.
Qed.

(** X21: reading a file into a corpus.  When every line parses, the
    corpus holds each parse id once, every graph in it satisfies the
    graph invariant, and the graph stored under an id is the one
    parsed from the last line that carries this id (no graph when no
    line does). *)
Theorem X21_read_corpus_last_line_wins (lines : list mrs_rec) (c : corpus) :
  read_corpus lines = Ok c →
  NoDup (map fst c)
  ∧ wf_corpus c
  ∧ ∀ k, corpus_get c k
         = line ← last_line lines k; returned (parse_orig_json_line line).
Proof.
  unfold read_corpus. intros H.
  destruct (read_corpus_from _ _ _ H) as (Hnd & Hwf & Hget).
  split_and!.
  - apply Hnd. constructor.
  - apply Hwf. constructor.
  - intros k. rewrite Hget. by destruct (last_line lines k).
Qed.

Lemma X21_witness :
  NoDup (map fst [(1%Z, graph_two_eq_reversed)])
  ∧ wf_corpus [(1%Z, graph_two_eq_reversed)]
  ∧ ∀ k, corpus_get [(1%Z, graph_two_eq_reversed)] k
         = line ← last_line [rec_two_eq; rec_two_eq_reversed] k;
           returned (parse_orig_json_line line).
Proof.
  apply (X21_read_corpus_last_line_wins [rec_two_eq; rec_two_eq_reversed]).
  vm_compute. reflexivity.
Defined.

Lemma corpus_get_NoDup (c : corpus) k g :
  NoDup (map fst c) → (k, g) ∈ c → corpus_get c k = Some g.
Proof.
  induction c as [|[k0 g0] c IH]; simpl; intros Hnd Hin; [by inversion Hin|].
  apply NoDup_cons in Hnd as [Hk0 Hnd].
  apply elem_of_cons in Hin as [[= -> ->]|Hin].
  - by rewrite Z.eqb_refl.
  - destruct (Z.eqb_spec k0 k) as [->|Hne]; [|by apply IH].
    exfalso. apply Hk0. apply elem_of_map. by exists (k, g).
Qed.

Lemma self_totals O cfg (c : corpus) t :
  NoDup (map fst c) →
  accumulate O cfg c c = Ok t →
  total_predicted t = total_gold t ∧ total_correct t = total_gold t.
Proof.
  intros Hnd. rewrite accumulate_spec. intros H.
  apply bind_Ok_inv in H as (sets & Hsets & H). injection H as <-.
  cbn [total_predicted total_gold total_correct].
  apply equal_sets_equal_totals.
  eapply for_each_Forall; [|exact Hsets]. intros item s Hitem Hs.
  apply (item_sets_equal O cfg c item s); [|done].
  intros tr Htr. unfold item_triples in Htr. destruct item as [k g].
  cbn [fst snd] in Htr. rewrite (corpus_get_NoDup c k g Hnd Hitem) in Htr.
  destruct (extract cfg g) as [ts|]; [|done].
  cbn [Py.bind] in Htr. by injection Htr as <-.
Qed.

Lemma self_score O cfg (c : corpus) :
  NoDup (map fst c) →
  match compute_f1 O c c cfg with
  | Ok s => perfect s
  | Err e => e ≠ ZeroDivisionError
  end.
Proof.
  intros Hnd. unfold compute_f1.
  destruct (accumulate O cfg c c) as [t|e] eqn:Ht; cbn [Py.bind].
  - destruct (self_totals _ _ _ _ Hnd Ht) as [Hp Hc].
    destruct (decide (0 < total_gold t)) as [Hpos|Hzero].
    + destruct (f1_of_equal_totals t Hp Hc Hpos) as (s & -> & Hs).
      unfold perfect. tauto.
    + rewrite (proj2 (final_score_assertion t)) by lia. done.
  - by destruct (accumulate_raises _ _ _ _ _ Ht) as [-> | ->].
Qed.

Lemma run_reports_self O (c : corpus) calls : ∀ printed,
  NoDup (map fst c) →
  Forall (λ p : string * score, perfect p.2) printed →
  Forall (λ p : string * score, perfect p.2)
    (printed_of (run_reports O c c calls printed))
  ∧ ∀ p h, run_reports O c c calls printed ≠ Raised p h ZeroDivisionError.
Proof.
  induction calls as [|[header cfg] calls IH]; intros printed Hnd Hp; simpl.
  - done.
  - pose proof (self_score O cfg c Hnd) as Hs.
    destruct (compute_f1 O c c cfg) as [s|e].
    + apply IH; [done|]. apply Forall_app. split; [done|].
      by apply Forall_singleton.
    + split; [done|]. intros p h [= _ _ ->]. done.
Qed.

(** X22: scoring a file against itself.  Whatever the flags and
    however the run ends, every score it has printed is 100 percent in
    precision, recall and F1, and the run does not end in a
    ZeroDivisionError. *)
Theorem X22_file_against_itself (O : SetOrder) (a : args)
  (lines : list mrs_rec) :
  Forall (λ p : string * score, perfect p.2) (printed_of (main O a lines lines))
  ∧ ∀ p h, main O a lines lines ≠ Raised p h ZeroDivisionError.
Proof.
  unfold main. destruct (orig a); [|by split].
  destruct (read_corpus lines) as [c|e] eqn:Hc.
  - destruct (read_corpus_from _ _ _ Hc) as (Hnd & _ & _).
    apply run_reports_self; [|done]. apply Hnd. constructor.
  - split; [done|]. intros p h [= _ _ ->].
    unfold read_corpus in Hc.
    refine (fold_each_raises (λ e, e ≠ ZeroDivisionError) read_graph lines
              _ _ _ Hc eq_refl).
    intros c0 line e He. unfold read_graph in He.
    destruct (parse_orig_json_line line) as [g|e'] eqn:Hg; [done|].
    cbn [Py.bind] in He. injection He as <-.
    by destruct (parse_orig_json_line_raises _ _ Hg) as [-> | ->].
Qed.
